(** * trufflehog-redactor: the redaction engine and the selection console

    A shallow embedding of [trufflehog_redactor/redactor.py],
    [trufflehog_redactor/tui.py], [trufflehog_redactor/parser.py] and of
    the part of [trufflehog_redactor/cli.py] that leads from the findings
    to the files, with the properties of the parser ([parse_findings]),
    the planner ([generate_replacements]), the diff renderer
    ([generate_diffs]), the committer ([apply_redactions]), the masking and
    truncation helpers, the key handler and the event loop of the console,
    and [main].

    Python [str] values are sequences of code points; they are modelled as
    lists of [N].  Python [int] values are modelled as [Z]. *)

From Stdlib Require Import ZArith NArith List Lia Bool String Ascii Sorted.
From stdpp Require Import base list sorting gmap.
Import ListNotations.

#[local] Set Warnings "-clear-no-such-hyp".

Local Open Scope nat_scope.

(** ** Text *)

Definition char : Type := N.
Definition text : Type := list char.

(** A string literal of the source, as text. *)
Definition py (s : string) : text := map N_of_ascii (list_ascii_of_string s).

Definition star : char := 42%N.

Fixpoint text_eqb (a b : text) : bool :=
  match a, b with
  | [], [] => true
  | x :: a', y :: b' => N.eqb x y && text_eqb a' b'
  | _, _ => false
  end.

(** [s.startswith(p)] *)
Fixpoint startswith (p s : text) : bool :=
  match p, s with
  | [], _ => true
  | x :: p', y :: s' => N.eqb x y && startswith p' s'
  | _ :: _, [] => false
  end.

(** [x in s] on strings: [x] is a contiguous part of [s]. *)
Fixpoint contains (x s : text) : bool :=
  startswith x s ||
  match s with
  | [] => false
  | _ :: s' => contains x s'
  end.

(** The same, as a proposition. *)
Definition occurs (x s : text) : Prop := exists p q, s = p ++ x ++ q.

(** ** [str.replace]

    [s.replace(old, new)] replaces the occurrences of [old] found by one
    scan from the left, each search starting where the previous occurrence
    ended.  [skip] counts the characters of a found occurrence still to
    be passed over.  With an empty [old], Python puts [new] before every
    character and at the end. *)
Fixpoint replace_from (old new : text) (skip : nat) (s : text) : text :=
  match s with
  | [] => []
  | c :: s' =>
      match skip with
      | S k => replace_from old new k s'
      | O =>
          if startswith old s
          then new ++ replace_from old new (length old - 1) s'
          else c :: replace_from old new 0 s'
      end
  end.

Definition str_replace (s old new : text) : text :=
  match old with
  | [] => new ++ flat_map (fun c => c :: new) s
  | _ :: _ => replace_from old new 0 s
  end.


(** ** Python sequence operations *)

Definition len {A : Type} (l : list A) : Z := Z.of_nat (length l).

(** The position a slice bound [n] denotes in a sequence of length
    [len s]: a negative bound counts from the end, and bounds are clipped
    to the sequence. *)
Definition slice_bound {A : Type} (s : list A) (n : Z) : nat :=
  Z.to_nat (if (n <? 0)%Z then Z.max 0 (len s + n) else n).

(** [s[:n]] *)
Definition slice_to {A : Type} (s : list A) (n : Z) : list A :=
  take (slice_bound s n) s.

(** [s[n:]] *)
Definition slice_from {A : Type} (s : list A) (n : Z) : list A :=
  drop (slice_bound s n) s.

(** [c * n] for a one-character string [c]; empty when [n <= 0]. *)
Definition str_mul (c : char) (n : Z) : text := replicate (Z.to_nat n) c.

(** [sep.join(parts)] *)
Fixpoint str_join (sep : text) (parts : list text) : text :=
  match parts with
  | [] => []
  | [p] => p
  | p :: rest => p ++ sep ++ str_join sep rest
  end.

(** [range(a, b)] *)
Definition py_range (a b : Z) : list Z :=
  map (fun k => (a + Z.of_nat k)%Z) (seq 0 (Z.to_nat (b - a))).

(** Exceptions of the source and of the libraries it calls.
    [PermissionError] is a subclass of [OSError]; the others are not.
    [ValueError] stands for a [ValueError] that is no
    [json.JSONDecodeError], and [CursesError] for [curses.error]. *)
Inductive exn : Type :=
| OSError
| PermissionError
| UnicodeEncodeError
| IndexError
| KeyboardInterrupt
| ValueError
| RecursionError
| CursesError.

Definition is_OSError (e : exn) : bool :=
  match e with
  | OSError | PermissionError => true
  | _ => false
  end.

Definition is_PermissionError (e : exn) : bool :=
  match e with
  | PermissionError => true
  | _ => false
  end.

Inductive outcome (A : Type) : Type :=
| Return (a : A)
| Raise (e : exn).
Arguments Return {A} a.
Arguments Raise {A} e.

(** The index [l[i]] denotes, when it is in range. *)
Definition py_index {A : Type} (l : list A) (i : Z) : option nat :=
  let j := if (i <? 0)%Z then (i + len l)%Z else i in
  if (0 <=? j)%Z && (j <? len l)%Z then Some (Z.to_nat j) else None.

(** [l[i]] *)
Definition getitem {A : Type} (l : list A) (i : Z) : outcome A :=
  match py_index l i with
  | Some j =>
      match l !! j with
      | Some x => Return x
      | None => Raise IndexError
      end
  | None => Raise IndexError
  end.

(** [l[i] = x] *)
Definition setitem {A : Type} (l : list A) (i : Z) (x : A) : outcome (list A) :=
  match py_index l i with
  | Some j => Return (<[j := x]> l)
  | None => Raise IndexError
  end.

(** ** parser.py: the record consumed by the engine *)

Record Finding : Type := {
  file_path : text;
  secret : text;
  detector_name : text
}.

(** A [dict] keeps its keys in insertion order; assigning to a key that
    is present keeps the key's place. *)
Fixpoint dict_set {V : Type} (d : list (text * V)) (k : text) (v : V)
  : list (text * V) :=
  match d with
  | [] => [(k, v)]
  | (k', v') :: d' =>
      if text_eqb k' k then (k', v) :: d' else (k', v') :: dict_set d' k v
  end.

Fixpoint dict_get {V : Type} (d : list (text * V)) (k : text) : option V :=
  match d with
  | [] => None
  | (k', v') :: d' => if text_eqb k' k then Some v' else dict_get d' k
  end.

(** ** redactor.py *)

(** What the logger receives. *)
Inductive log_record : Type :=
| SkippingSymlink (path : text)
| SkippingMissingFile (path : text)
| HardLinks (path : text) (st_nlink : nat)
| CannotRead (path : text)
| CannotDecode (path : text)
| CannotWrite (path : text).

(** The file system as the planner sees it: what a path is, and what
    reading it as UTF-8 text gives.  [open] follows a symbolic link and
    reads what is no regular file as well (a device, a pipe), so every
    kind of path has its read result: [Symlink] is a path for which
    [os.path.islink] holds, whatever it points to; [NotAFile] one for
    which neither [os.path.islink] nor [os.path.isfile] holds; [Regular]
    one for which [os.path.isfile] holds and [os.path.islink] does not,
    with the link count [os.stat] gives. *)
Inductive read_result : Type :=
| Content (c : text)
| ReadOSError
| ReadUnicodeDecodeError.

Inductive node : Type :=
| NotAFile (rd : read_result)
| Symlink (rd : read_result)
| Regular (st_nlink : nat) (rd : read_result).

Definition filesystem : Type := text -> node.

Definition _validate_file (fs : filesystem) (path : text)
  : bool * list log_record :=
  match fs path with
  | Symlink _ => (false, [SkippingSymlink path])
  | NotAFile _ => (false, [SkippingMissingFile path])
  | Regular st_nlink _ =>
      if 1 <? st_nlink then (true, [HardLinks path st_nlink]) else (true, [])
  end.

(** [open(file_path, encoding="utf-8").read()] *)
Definition read_text (fs : filesystem) (path : text) : read_result :=
  match fs path with
  | NotAFile rd | Symlink rd | Regular _ rd => rd
  end.

(** [grouped[f.file_path].append(f)] on a [defaultdict(list)] *)
Definition group_add (grouped : list (text * list Finding)) (f : Finding)
  : list (text * list Finding) :=
  dict_set grouped (file_path f)
    (default [] (dict_get grouped (file_path f)) ++ [f]).

Definition _group_by_file (findings : list Finding)
  : list (text * list Finding) :=
  fold_left group_add findings [].

(** [sorted(file_findings, key=lambda x: len(x.secret), reverse=True)]:
    a stable sort, longest secret first; findings whose secrets have the
    same length keep their order. *)
Fixpoint insert_longest_first (f : Finding) (l : list Finding)
  : list Finding :=
  match l with
  | [] => [f]
  | g :: l' =>
      if length (secret f) <? length (secret g)
      then g :: insert_longest_first f l'
      else f :: g :: l'
  end.

Definition sorted_longest_first (l : list Finding) : list Finding :=
  foldr insert_longest_first [] l.

(** [placeholder if placeholder else "*" * len(f.secret)] *)
Definition replacement_for (placeholder : text) (f : Finding) : text :=
  match placeholder with
  | [] => str_mul star (len (secret f))
  | _ :: _ => placeholder
  end.

(** One turn of the substitution loop. *)
Definition redact_step (placeholder : text) (redacted : text) (f : Finding)
  : text :=
  str_replace redacted (secret f) (replacement_for placeholder f).

(** The substitution loop of [generate_replacements] on one file. *)
Definition redact (placeholder : text) (file_findings : list Finding)
  (original : text) : text :=
  fold_left (redact_step placeholder) (sorted_longest_first file_findings)
    original.

(** The body of the loop over the groups: the result mapping and the log
    after one more group. *)
Definition plan_group (fs : filesystem) (placeholder : text)
  (acc : list (text * (text * text)) * list log_record)
  (group : text * list Finding)
  : list (text * (text * text)) * list log_record :=
  let '(results, log) := acc in
  let '(path, file_findings) := group in
  match _validate_file fs path with
  | (false, w) => (results, log ++ w)
  | (true, w) =>
      match read_text fs path with
      | ReadOSError => (results, log ++ w ++ [CannotRead path])
      | ReadUnicodeDecodeError => (results, log ++ w ++ [CannotDecode path])
      | Content original =>
          let redacted := redact placeholder file_findings original in
          if negb (text_eqb redacted original)
          then (dict_set results path (original, redacted), log ++ w)
          else (results, log ++ w)
      end
  end.

Definition generate_replacements_log (fs : filesystem)
  (findings : list Finding) (placeholder : text)
  : list (text * (text * text)) * list log_record :=
  fold_left (plan_group fs placeholder) (_group_by_file findings) ([], []).

Definition generate_replacements (fs : filesystem) (findings : list Finding)
  (placeholder : text) : list (text * (text * text)) :=
  fst (generate_replacements_log fs findings placeholder).

(** ** tui.py: layout constants and pure helpers *)

Local Open Scope Z_scope.

Definition _HEADER_ROWS : Z := 3.
Definition _BOTTOM_RESERVE : Z := 1.
Definition _DETECTOR_COL_WIDTH : Z := 16.
Definition _MIN_SECRET_WIDTH : Z := 10.
Definition _MIN_PATH_WIDTH : Z := 5.
Definition _PATH_BUDGET : Z := 20.
Definition _ELLIPSIS : text := py "...".

Definition mask_secret (secret : text) (visible : Z) : text :=
  if len secret <=? visible * 2
  then str_mul star (len secret)
  else slice_to secret visible
         ++ str_mul star (len secret - visible * 2)
         ++ slice_from secret (- visible).

(** The default of the parameter [visible]. *)
Definition mask_secret_default_visible : Z := 4.

Definition _adjust_scroll (cursor top visible : Z) : Z :=
  if cursor <? top then cursor
  else if cursor >=? top + visible then cursor - visible + 1
  else top.

Definition _truncate_secret (t : text) (max_width : Z) : text :=
  if len t <=? max_width then t
  else if max_width <=? len _ELLIPSIS then slice_to t max_width
  else slice_to t (max_width - len _ELLIPSIS) ++ _ELLIPSIS.

Definition _truncate_path (path : text) (max_width : Z) : text :=
  if len path <=? max_width then path
  else if max_width <=? len _ELLIPSIS then slice_to path max_width
  else
    let side := (max_width - len _ELLIPSIS) / 2 in
    slice_to path side ++ _ELLIPSIS
      ++ slice_from path (- (max_width - len _ELLIPSIS - side)).

(** [f"{s:<{w}s}"]: pad with spaces on the right up to width [w]; a
    longer [s] is kept whole. *)
Definition ljust (s : text) (w : Z) : text :=
  s ++ str_mul 32%N (w - len s).

(** The columns [_draw_finding_row] computes: the prefix, the secret
    column and the path column. *)
Record row_columns : Type := {
  row_prefix : text;
  row_secret : text;
  row_path_max : Z;
  row_path : text
}.

Definition finding_row_columns (max_x : Z) (finding : Finding)
  (is_selected reveal : bool) : row_columns :=
  let mark := if is_selected then py "x" else py " " in
  let masked :=
    if reveal then secret finding
    else mask_secret (secret finding) mask_secret_default_visible in
  let prefix :=
    py "[" ++ mark ++ py "] "
      ++ ljust (detector_name finding) _DETECTOR_COL_WIDTH ++ py " " in
  let secret_max :=
    Z.max _MIN_SECRET_WIDTH (max_x - 1 - len prefix - 1 - _PATH_BUDGET) in
  let masked := _truncate_secret masked secret_max in
  let path_max := Z.max _MIN_PATH_WIDTH (max_x - 1 - len prefix - len masked - 1) in
  {| row_prefix := prefix;
     row_secret := masked;
     row_path_max := path_max;
     row_path := _truncate_path (file_path finding) path_max |}.

(** What the console writes to the screen: the calls of
    [stdscr.addnstr], each from column 0 and for at most [n] characters.
    The title, the controls and the separator are written on the rows 0,
    1 and 2; [reverse] stands for the attribute [curses.A_REVERSE], and
    the status bar shows [count] and [total]. *)
Inductive screen_op : Type :=
| DrawTitle (n : Z)
| DrawControls (n : Z)
| DrawSeparator (n : Z)
| DrawRow (row : Z) (line : text) (n : Z) (reverse : bool)
| DrawStatus (row : Z) (count total : Z) (n : Z).

(** The calls to curses in one turn of the event loop that can raise. *)
Inductive curses_call : Type :=
| Clear
| Addnstr (op : screen_op)
| Refresh
| Getch.

(** What the terminal does with the calls of one turn: [None] when the
    call returns, the exception it raises otherwise, such as
    [curses.error] for a row that is not on the screen, [ValueError] for
    a string with a NUL character, or [KeyboardInterrupt] while a key is
    waited for. *)
Definition screen : Type := curses_call -> option exn.

(** [stdscr.addnstr(...)]: the call is made, and raises what the
    terminal raises for it. *)
Definition addnstr (scr : screen) (op : screen_op)
  : outcome (list screen_op) :=
  match scr (Addnstr op) with
  | Some e => Raise e
  | None => Return [op]
  end.

(** The call that [_draw_finding_row] makes. *)
Definition finding_row (row max_x : Z) (finding : Finding)
  (is_selected is_cursor reveal : bool) : screen_op :=
  let c := finding_row_columns max_x finding is_selected reveal in
  let line := row_prefix c ++ row_secret c ++ py " " ++ row_path c in
  DrawRow row line (max_x - 1) is_cursor.

Definition _draw_finding_row (scr : screen) (row max_x : Z)
  (finding : Finding) (is_selected is_cursor reveal : bool)
  : outcome (list screen_op) :=
  addnstr scr (finding_row row max_x finding is_selected is_cursor reveal).

Definition _draw_header (scr : screen) (max_x : Z)
  : outcome (list screen_op) :=
  match addnstr scr (DrawTitle (max_x - 1)) with
  | Raise e => Raise e
  | Return title =>
      match addnstr scr (DrawControls (max_x - 1)) with
      | Raise e => Raise e
      | Return controls =>
          match addnstr scr (DrawSeparator (max_x - 1)) with
          | Raise e => Raise e
          | Return separator => Return (title ++ controls ++ separator)
          end
      end
  end.

(** The rows of the list, in order; an index out of range raises, and
    so does a call that the terminal makes raise. *)
Fixpoint draw_rows (scr : screen) (findings : list Finding)
  (selected : list bool) (cursor top : Z) (reveal : bool) (max_x : Z)
  (indices : list Z) : outcome (list screen_op) :=
  match indices with
  | [] => Return []
  | idx :: rest =>
      match getitem findings idx with
      | Raise e => Raise e
      | Return finding =>
          match getitem selected idx with
          | Raise e => Raise e
          | Return is_selected =>
              match _draw_finding_row scr (_HEADER_ROWS + idx - top) max_x
                      finding is_selected (idx =? cursor) reveal with
              | Raise e => Raise e
              | Return row =>
                  match draw_rows scr findings selected cursor top reveal
                          max_x rest with
                  | Raise e => Raise e
                  | Return ops => Return (row ++ ops)
                  end
              end
          end
      end
  end.

Definition _draw_list (scr : screen) (findings : list Finding)
  (selected : list bool) (cursor top : Z) (reveal : bool) (max_y max_x : Z)
  : outcome (list screen_op) :=
  let visible := max_y - _HEADER_ROWS - _BOTTOM_RESERVE in
  match draw_rows scr findings selected cursor top reveal max_x
          (py_range top (Z.min (top + visible) (len findings))) with
  | Raise e => Raise e
  | Return ops =>
      let count := len (filter (fun b : bool => b = true) selected) in
      match addnstr scr
              (DrawStatus (max_y - 1) count (len findings) (max_x - 1)) with
      | Raise e => Raise e
      | Return status => Return (ops ++ status)
      end
  end.

(** ** tui.py: the key handler *)

(** Key codes: [curses.KEY_DOWN], [curses.KEY_UP] and [ord] of the
    characters the handler compares with. *)
Definition KEY_DOWN : Z := 258.
Definition KEY_UP : Z := 259.
Definition ord_k : Z := 107.
Definition ord_j : Z := 106.
Definition ord_space : Z := 32.
Definition ord_a : Z := 97.
Definition ord_t : Z := 116.
Definition ord_r : Z := 114.
Definition ord_newline : Z := 10.
Definition ord_q : Z := 113.

(** [all(selected[i] for i in indices)]: stops at the first entry that
    is not selected. *)
Fixpoint all_selected_at (selected : list bool) (indices : list Z)
  : outcome bool :=
  match indices with
  | [] => Return true
  | i :: rest =>
      match getitem selected i with
      | Raise e => Raise e
      | Return true => all_selected_at selected rest
      | Return false => Return false
      end
  end.

(** [for i in indices: selected[i] = v] *)
Fixpoint set_selected_at (selected : list bool) (indices : list Z) (v : bool)
  : outcome (list bool) :=
  match indices with
  | [] => Return selected
  | i :: rest =>
      match setitem selected i v with
      | Raise e => Raise e
      | Return selected' => set_selected_at selected' rest v
      end
  end.

(** [[i for i, f in enumerate(findings) if f.detector_name == cat]] *)
Fixpoint category_indices (cat : text) (i : Z) (findings : list Finding)
  : list Z :=
  match findings with
  | [] => []
  | f :: rest =>
      if text_eqb (detector_name f) cat
      then i :: category_indices cat (i + 1) rest
      else category_indices cat (i + 1) rest
  end.

(** [[f for f, s in zip(findings, selected) if s]] *)
Fixpoint selected_findings (findings : list Finding) (selected : list bool)
  : list Finding :=
  match findings, selected with
  | f :: fs, s :: ss =>
      if s then f :: selected_findings fs ss else selected_findings fs ss
  | _, _ => []
  end.

(** What one call of [_handle_key] leaves: the returned triple and the
    list [selected], which the handler updates in place. *)
Record key_result : Type := {
  kr_cursor : Z;
  kr_reveal : bool;
  kr_result : option (list Finding);
  kr_selected : list bool
}.

Definition _handle_key (key : Z) (findings : list Finding)
  (selected : list bool) (cursor : Z) (reveal : bool) : outcome key_result :=
  let continue cursor reveal selected :=
    Return {| kr_cursor := cursor; kr_reveal := reveal;
              kr_result := None; kr_selected := selected |} in
  if (key =? KEY_UP) || (key =? ord_k) then
    continue (Z.max 0 (cursor - 1)) reveal selected
  else if (key =? KEY_DOWN) || (key =? ord_j) then
    continue (Z.min (len findings - 1) (cursor + 1)) reveal selected
  else if key =? ord_space then
    match getitem selected cursor with
    | Raise e => Raise e
    | Return b =>
        match setitem selected cursor (negb b) with
        | Raise e => Raise e
        | Return selected' => continue cursor reveal selected'
        end
    end
  else if key =? ord_a then
    if forallb (fun b : bool => b) selected
    then continue cursor reveal (replicate (length findings) false)
    else continue cursor reveal (replicate (length findings) true)
  else if key =? ord_t then
    match getitem findings cursor with
    | Raise e => Raise e
    | Return f =>
        let indices := category_indices (detector_name f) 0 findings in
        match all_selected_at selected indices with
        | Raise e => Raise e
        | Return all_on =>
            match set_selected_at selected indices (negb all_on) with
            | Raise e => Raise e
            | Return selected' => continue cursor reveal selected'
            end
        end
    end
  else if key =? ord_r then
    continue cursor (negb reveal) selected
  else if key =? ord_newline then
    Return {| kr_cursor := cursor; kr_reveal := reveal;
              kr_result := Some (selected_findings findings selected);
              kr_selected := selected |}
  else if key =? ord_q then
    Return {| kr_cursor := cursor; kr_reveal := reveal;
              kr_result := Some []; kr_selected := selected |}
  else
    continue cursor reveal selected.

(** ** tui.py: the console *)

(** What the terminal does when the console starts: [os.open] of
    [/dev/tty] raises [OSError], or [os.fdopen] does; or the terminal is
    opened and [os.dup] or [os.dup2] raises [OSError] when the standard
    input is to be redirected; or curses raises when it is started on the
    terminal ([curses.wrapper], [curses.curs_set] and
    [curses.use_default_colors], the latter two at the start of [draw]);
    or all of this succeeds. *)
Inductive tty_status : Type :=
| TtyOpenFails
| TtyFdopenFails
| TtyRedirectFails
| TtyCursesFails (e : exn)
| TtyReady.

(** What one turn of the event loop meets on the terminal: its size
    ([stdscr.getmaxyx()]), the next key ([stdscr.getch()]), and what the
    calls of the turn raise. *)
Record terminal_input : Type := {
  term_max_y : Z;
  term_max_x : Z;
  term_key : Z;
  term_raises : screen
}.

Inductive console_event : Type :=
| OsOpenTty
| Stderr (message : string)
| OsCloseFd
| RedirectStdin
| Frame (ops : list screen_op)
| GetKey (key : Z)
| RestoreStdin
| CloseTty.

(** How a run of the console ends: it returns a selection, an exception
    leaves it, or it is blocked in [getch] with no more input. *)
Inductive console_end : Type :=
| Returned (result : list Finding)
| Raised (e : exn)
| WaitingForKey.

(** The two lines printed when [/dev/tty] cannot be opened. *)
Definition no_tty_message : string :=
  "Error: No TTY available for interactive selection.
Hint: use --no-confirm to skip interactive mode.".

(** [True] when a file object is returned, [False] for [None]. *)
Definition _open_tty (tty : tty_status) : bool * list console_event :=
  match tty with
  | TtyOpenFails =>
      (false,
       [OsOpenTty;
        Stderr no_tty_message])
  | TtyFdopenFails =>
      (false,
       [OsOpenTty; OsCloseFd;
        Stderr "Error: Could not open TTY file descriptor."])
  | TtyRedirectFails | TtyCursesFails _ | TtyReady => (true, [OsOpenTty])
  end.

(** What one turn writes before it reads the key: the frame is shown by
    [stdscr.refresh()], once every line is written. *)
Definition draw_frame (scr : screen) (findings : list Finding)
  (selected : list bool) (cursor top : Z) (reveal : bool) (max_y max_x : Z)
  : outcome (list screen_op) :=
  match scr Clear with
  | Some e => Raise e
  | None =>
      match _draw_header scr max_x with
      | Raise e => Raise e
      | Return header =>
          match _draw_list scr findings selected cursor top reveal
                  max_y max_x with
          | Raise e => Raise e
          | Return ops =>
              match scr Refresh with
              | Some e => Raise e
              | None => Return (header ++ ops)
              end
          end
      end
  end.

(** The event loop of the closure [draw] over the selection state. *)
Fixpoint draw (findings : list Finding) (selected : list bool)
  (cursor top : Z) (reveal : bool) (input : list terminal_input)
  : console_end * list console_event :=
  match input with
  | [] => (WaitingForKey, [])
  | i :: rest =>
      let max_y := term_max_y i in
      let max_x := term_max_x i in
      let visible := max_y - _HEADER_ROWS - _BOTTOM_RESERVE in
      let top := _adjust_scroll cursor top visible in
      match draw_frame (term_raises i) findings selected cursor top reveal
              max_y max_x with
      | Raise e => (Raised e, [])
      | Return frame =>
          match term_raises i Getch with
          | Some e => (Raised e, [Frame frame])
          | None =>
              let shown := [Frame frame; GetKey (term_key i)] in
              match _handle_key (term_key i) findings selected cursor
                      reveal with
              | Raise e => (Raised e, shown)
              | Return r =>
                  match kr_result r with
                  | Some result => (Returned result, shown)
                  | None =>
                      let '(e, evs) :=
                        draw findings (kr_selected r) (kr_cursor r) top
                          (kr_reveal r) rest in
                      (e, shown ++ evs)
                  end
              end
          end
      end
  end.

Definition run_tui (tty : tty_status) (findings : list Finding)
  (input : list terminal_input) : console_end * list console_event :=
  match findings with
  | [] => (Returned [], [])
  | _ :: _ =>
      match _open_tty tty with
      | (false, evs) => (Returned [], evs)
      | (true, evs) =>
          match tty with
          | TtyRedirectFails => (Raised OSError, evs)
          | TtyCursesFails e =>
              (Raised e, evs ++ [RedirectStdin; RestoreStdin; CloseTty])
          | _ =>
              let selected := replicate (length findings) true in
              let '(e, loop) := draw findings selected 0 0 false input in
              match e with
              | WaitingForKey => (e, evs ++ [RedirectStdin] ++ loop)
              | _ =>
                  (e, evs ++ [RedirectStdin] ++ loop
                        ++ [RestoreStdin; CloseTty])
              end
          end
      end
  end.

(** ** redactor.py: the diff renderer *)

(** One turn of the masking loop, on both displayed texts. *)
Definition mask_step (shown : text * text) (f : Finding) : text * text :=
  let masked := mask_secret (secret f) mask_secret_default_visible in
  (str_replace (fst shown) (secret f) masked,
   str_replace (snd shown) (secret f) masked).

(** The findings of one file, in the order of the masking loop. *)
Definition findings_of_file (findings : list Finding) (path : text)
  : list Finding :=
  sorted_longest_first
    (List.filter (fun f => text_eqb (file_path f) path) findings).

(** [display_original] and [display_redacted] of one entry.  [findings]
    is [None] when the argument is left out; [if findings:] also fails for
    an empty list. *)
Definition displayed (findings : option (list Finding)) (path : text)
  (original redacted : text) : text * text :=
  match findings with
  | Some (f :: fs) =>
      fold_left mask_step (findings_of_file (f :: fs) path)
        (original, redacted)
  | _ => (original, redacted)
  end.

(** The order of [str] values: by code point, a proper prefix first. *)
Fixpoint text_compare (a b : text) : comparison :=
  match a, b with
  | [], [] => Eq
  | [], _ :: _ => Lt
  | _ :: _, [] => Gt
  | x :: a', y :: b' =>
      match N.compare x y with
      | Eq => text_compare a' b'
      | c => c
      end
  end.

(** The order of the tuples [(file_path, (original, redacted))]. *)
Definition item_compare (x y : text * (text * text)) : comparison :=
  match text_compare (fst x) (fst y) with
  | Eq =>
      match text_compare (fst (snd x)) (fst (snd y)) with
      | Eq => text_compare (snd (snd x)) (snd (snd y))
      | c => c
      end
  | c => c
  end.

Definition item_ltb (x y : text * (text * text)) : bool :=
  match item_compare x y with
  | Lt => true
  | _ => false
  end.

(** [sorted(replacements.items())]: a stable ascending sort. *)
Fixpoint insert_item (x : text * (text * text))
  (l : list (text * (text * text))) : list (text * (text * text)) :=
  match l with
  | [] => [x]
  | y :: l' => if item_ltb y x then y :: insert_item x l' else x :: y :: l'
  end.

Definition sorted_items (l : list (text * (text * text)))
  : list (text * (text * text)) :=
  foldr insert_item [] l.

Definition newline : text := [10%N].

Section Difflib.

(** The two library functions the renderer hands its texts to:
    [difflib.unified_diff(a, b, fromfile=..., tofile=...)], with the
    lines it yields, and [str.splitlines(keepends=True)]. *)
Variable unified_diff : list text -> list text -> text -> text -> list text.
Variable splitlines : text -> list text.

Definition diff_part (findings : option (list Finding))
  (item : text * (text * text)) : text :=
  let '(path, (original, redacted)) := item in
  let '(display_original, display_redacted) :=
    displayed findings path original redacted in
  concat (unified_diff (splitlines display_original)
            (splitlines display_redacted) path path).

Definition generate_diffs (replacements : list (text * (text * text)))
  (findings : option (list Finding)) : text :=
  str_join newline (map (diff_part findings) (sorted_items replacements)).

End Difflib.

(** ** redactor.py: the committer *)

(** What the operating system answers to the calls made for one target
    file: [None] when the call succeeds, the exception it raises
    otherwise.  [tempfile.mkstemp], called for the directory of the
    target, gives the path of the file it made; [os_write] stands for the
    output of [fh.write] and of closing the file. *)
Record os_answers : Type := {
  os_mkstemp : outcome text;
  os_fdopen : option exn;
  os_write : option exn;
  os_stat : option exn;
  os_chmod : option exn;
  os_chown : option exn;
  os_replace : option exn;
  os_unlink : option exn
}.

Inductive commit_event : Type :=
| Mkstemp (target : text)
| Created (tmp : text)
| Written (tmp : text) (content : text)
| ModeCopied (tmp : text)
| OwnerCopied (tmp : text)
| Renamed (tmp target : text)
| Unlinked (tmp : text)
| UnlinkFailed (tmp : text)
| Warning (record : log_record).

(** UTF-8 encodes every code point but the surrogates. *)
Definition is_surrogate (c : char) : bool :=
  (55296 <=? c)%N && (c <=? 57343)%N.

Definition utf8_encodable (t : text) : bool :=
  forallb (fun c => negb (is_surrogate c)) t.

(** A computation that logs events and may raise. *)
Definition commit (A : Type) : Type := outcome A * list commit_event.

Definition bind {A B : Type} (m : commit A) (k : A -> commit B) : commit B :=
  match m with
  | (Return a, evs) => let '(r, evs') := k a in (r, evs ++ evs')
  | (Raise e, evs) => (Raise e, evs)
  end.

Definition call (answer : option exn) (done : list commit_event)
  : commit unit :=
  match answer with
  | None => (Return tt, done)
  | Some e => (Raise e, [])
  end.

#[global] Instance commit_bind : MBind commit :=
  fun A B k m => bind m k.

(** The inner [try] block, once the temporary file exists. *)
Definition write_and_rename (os : os_answers) (tmp target redacted : text)
  : commit unit :=
  call (os_fdopen os) [] ;;
  (if utf8_encodable redacted
   then call (os_write os) [Written tmp redacted]
   else (Raise UnicodeEncodeError, [])) ;;
  call (os_stat os) [] ;;
  call (os_chmod os) [ModeCopied tmp] ;;
  (match os_chown os with
   | None => (Return tt, [OwnerCopied tmp])
   | Some e => if is_PermissionError e then (Return tt, []) else (Raise e, [])
   end) ;;
  call (os_replace os) [Renamed tmp target].

(** [except BaseException]: unlink the temporary file, an [OSError] of
    the unlink being suppressed, and raise again. *)
Definition cleanup (os : os_answers) (tmp : text) (e : exn) : commit unit :=
  match os_unlink os with
  | None => (Raise e, [Unlinked tmp])
  | Some e' =>
      if is_OSError e' then (Raise e, [UnlinkFailed tmp]) else (Raise e', [])
  end.

(** The outer [try] block for one entry. *)
Definition commit_entry (os : os_answers) (target redacted : text)
  : commit unit :=
  match os_mkstemp os with
  | Raise e => (Raise e, [Mkstemp target])
  | Return tmp =>
      match write_and_rename os tmp target redacted with
      | (Return tt, evs) => (Return tt, Mkstemp target :: Created tmp :: evs)
      | (Raise e, evs) =>
          let '(r, evs') := cleanup os tmp e in
          (r, Mkstemp target :: Created tmp :: evs ++ evs')
      end
  end.

(** The loop of [apply_redactions], from a count. *)
Fixpoint apply_from (os : text -> os_answers) (count : Z)
  (items : list (text * (text * text))) : commit Z :=
  match items with
  | [] => (Return count, [])
  | (path, (_, redacted)) :: rest =>
      match commit_entry (os path) path redacted with
      | (Return tt, evs) =>
          let '(r, evs') := apply_from os (count + 1) rest in
          (r, evs ++ evs')
      | (Raise e, evs) =>
          if is_OSError e
          then
            let '(r, evs') := apply_from os count rest in
            (r, evs ++ [Warning (CannotWrite path)] ++ evs')
          else (Raise e, evs)
      end
  end.

Definition apply_redactions (os : text -> os_answers)
  (replacements : list (text * (text * text))) : commit Z :=
  apply_from os 0 replacements.

(** ** parser.py: reading the findings *)

(** The values [json.loads] gives: [None], a [bool], a number, a [str],
    a [list], or a [dict], whose keys are strings; the members of a
    [dict] are listed with each key once. *)
#[local] Unset Elimination Schemes.
Inductive json : Type :=
| JNull
| JBool (b : bool)
| JNumber (literal : text)
| JString (s : text)
| JArray (items : list json)
| JObject (members : list (text * json)).
#[local] Set Elimination Schemes.

(** [c.isspace()] for one character. *)
Definition isspace (c : char) : bool :=
  ((9 <=? c) && (c <=? 13))%N || ((28 <=? c) && (c <=? 32))%N
  || (c =? 133)%N || (c =? 160)%N || (c =? 5760)%N
  || ((8192 <=? c) && (c <=? 8202))%N
  || (c =? 8232)%N || (c =? 8233)%N || (c =? 8239)%N || (c =? 8287)%N
  || (c =? 12288)%N.

(** [s.lstrip()] *)
Fixpoint lstrip (s : text) : text :=
  match s with
  | [] => []
  | c :: s' => if isspace c then lstrip s' else s
  end.

(** [s.strip()] *)
Definition strip (s : text) : text := rev (lstrip (rev (lstrip s))).

(** [d.get(key, default)] *)
Definition get (d : list (text * json)) (key : text) (dflt : json) : json :=
  match dict_get d key with
  | Some v => v
  | None => dflt
  end.

Definition _valid_finding (raw file_path : json) : bool :=
  match raw, file_path with
  | JString raw, JString file_path =>
      negb (text_eqb raw []) && negb (text_eqb file_path [])
      && negb (contains [0%N] file_path)
  | _, _ => false
  end.

(** A [Finding] as the parser makes it.  The secret and the path are
    strings, [_valid_finding] having checked them; the detector name is
    the value the line gives, whatever its type. *)
Record RawFinding : Type := {
  raw_file_path : text;
  raw_secret : text;
  raw_detector_name : json
}.

(** The values the loop reads from the [dict] of a line: [raw],
    [detector] and [file_path]. *)
Definition line_fields (obj : list (text * json)) : json * json * json :=
  let raw := get obj (py "Raw") (JString []) in
  let detector := get obj (py "DetectorName") (JString (py "Unknown")) in
  let source_meta := get obj (py "SourceMetadata") (JObject []) in
  let data :=
    match source_meta with
    | JObject d => get d (py "Data") (JObject [])
    | _ => JObject []
    end in
  let filesystem :=
    match data with
    | JObject d => get d (py "Filesystem") (JObject [])
    | _ => JObject []
    end in
  let file_path :=
    match filesystem with
    | JObject d => get d (py "file") (JString [])
    | _ => JString []
    end in
  (raw, detector, file_path).

(** What [json.loads] does with a text: it returns the value of the
    document, raises [json.JSONDecodeError], or raises another exception,
    such as [RecursionError] for brackets nested too deep or [ValueError]
    for an integer with more digits than the interpreter converts. *)
Inductive loads_result : Type :=
| Loaded (v : json)
| JSONDecodeError
| LoadsRaises (e : exn).

(** The outcome of the parser: a value, the [AttributeError] of
    [obj.get] on a value that is not a [dict], or an exception of
    [json.loads] that the loop does not catch. *)
Inductive parse_outcome (A : Type) : Type :=
| Parsed (a : A)
| AttributeError
| Propagated (e : exn).
Arguments Parsed {A} a.
Arguments AttributeError {A}.
Arguments Propagated {A} e.

Section Json.

Variable json_loads : text -> loads_result.

(** The body of the loop: the set [seen] and the list [findings] after
    one more line. *)
Definition parse_line (state : gset (text * text) * list RawFinding)
  (line : text) : parse_outcome (gset (text * text) * list RawFinding) :=
  let '(seen, findings) := state in
  let line := strip line in
  match line with
  | [] => Parsed state
  | _ :: _ =>
      match json_loads line with
      | JSONDecodeError => Parsed state
      | LoadsRaises e => Propagated e
      | Loaded (JObject obj) =>
          let '(raw, detector, file_path) := line_fields obj in
          if negb (_valid_finding raw file_path) then Parsed state
          else
            match raw, file_path with
            | JString raw, JString file_path =>
                let key := (file_path, raw) in
                if bool_decide (key ∈ seen) then Parsed state
                else
                  Parsed ({[ key ]} ∪ seen,
                          findings ++
                          [{| raw_file_path := file_path; raw_secret := raw;
                              raw_detector_name := detector |}])
            | _, _ => Parsed state
            end
      | Loaded _ => AttributeError
      end
  end.

Fixpoint parse_loop (state : gset (text * text) * list RawFinding)
  (stream : list text)
  : parse_outcome (gset (text * text) * list RawFinding) :=
  match stream with
  | [] => Parsed state
  | line :: rest =>
      match parse_line state line with
      | Parsed state' => parse_loop state' rest
      | AttributeError => AttributeError
      | Propagated e => Propagated e
      end
  end.

(** [stream] is the sequence of the lines the stream yields. *)
Definition parse_findings (stream : list text)
  : parse_outcome (list RawFinding) :=
  match parse_loop (∅, []) stream with
  | Parsed (_, findings) => Parsed findings
  | AttributeError => AttributeError
  | Propagated e => Propagated e
  end.

(** The finding a line holds, when it holds a valid one. *)
Definition line_finding (line : text) : option RawFinding :=
  match strip line with
  | [] => None
  | _ :: _ =>
      match json_loads (strip line) with
      | Loaded (JObject obj) =>
          match line_fields obj with
          | (JString raw, detector, JString file_path) =>
              if _valid_finding (JString raw) (JString file_path)
              then Some {| raw_file_path := file_path; raw_secret := raw;
                           raw_detector_name := detector |}
              else None
          | _ => None
          end
      | _ => None
      end
  end.

(** The line makes [obj.get] fail: it holds a document that is not an
    object. *)
Definition not_an_object (line : text) : bool :=
  match strip line with
  | [] => false
  | _ :: _ =>
      match json_loads (strip line) with
      | Loaded (JObject _) | JSONDecodeError | LoadsRaises _ => false
      | Loaded _ => true
      end
  end.

(** The exception that [json.loads] raises for the line and that the
    loop does not catch, if any. *)
Definition loads_raises (line : text) : option exn :=
  match strip line with
  | [] => None
  | _ :: _ =>
      match json_loads (strip line) with
      | LoadsRaises e => Some e
      | _ => None
      end
  end.

(** The loop ends at the line: an exception leaves it. *)
Definition ends_loop (line : text) : bool :=
  not_an_object line
  || match loads_raises line with Some _ => true | None => false end.

End Json.

(** The key by which the parser tells findings apart. *)
Definition finding_key (f : RawFinding) : text * text :=
  (raw_file_path f, raw_secret f).

(** The finding of the engine, when the detector name is a string. *)
Definition as_Finding (f : RawFinding) : option Finding :=
  match raw_detector_name f with
  | JString d =>
      Some {| file_path := raw_file_path f; secret := raw_secret f;
              detector_name := d |}
  | _ => None
  end.

(** ** cli.py: from the findings to the files *)

(** The options of the command line that [main] reads after the
    findings are parsed. *)
Record cli_args : Type := {
  args_placeholder : text;
  args_no_confirm : bool;
  args_dry_run : bool
}.

(** What [main] and [_confirm_changes] print. *)
Inductive message : Type :=
| NoSecretsFound
| Found (n : Z)
| NoSecretsSelected
| NoMatchingSecrets
| DiffPreview
| DiffText (diff_output : text)
| EndPreview
| Prompt (num_files : Z)
| CannotReadConfirmation
| Aborted
| DryRun (n : Z)
| Redacted (count : Z).

Inductive cli_event : Type :=
| ToStdout (m : message)
| ToStderr (m : message)
| Console (ev : console_event)
| Logged (r : log_record)
| OpenConfirmTty
| Os (ev : commit_event).

(** How a run ends: [main] returns, [sys.exit] is called, an exception
    leaves [main], or the console waits for a key. *)
Inductive cli_end : Type :=
| Returns
| SystemExit (code : Z)
| Uncaught (e : exn)
| Blocked.

(** What [/dev/tty] gives when the confirmation is asked for: [open]
    raises [OSError], or [readline] does, or [readline] returns a line. *)
Inductive confirm_tty : Type :=
| ConfirmOpenFails
| ConfirmReadFails
| ConfirmLine (line : text).

(** What a run meets outside the program. *)
Record world : Type := {
  w_tty : tty_status;
  w_keys : list terminal_input;
  w_fs : filesystem;
  w_confirm : confirm_tty;
  w_os : text -> os_answers
}.

(** A step of [main]: a value to go on with or the end of the run, and
    the events of the step. *)
Definition cli (A : Type) : Type := (A + cli_end) * list cli_event.

#[global] Instance cli_bind : MBind cli :=
  fun A B k m =>
    match m with
    | (inl a, evs) => let '(r, evs') := k a in (r, evs ++ evs')
    | (inr e, evs) => (inr e, evs)
    end.

Definition print (m : message) : cli unit := (inl tt, [ToStdout m]).

Definition finish {A : Type} (e : cli_end) : cli A := (inr e, []).

Section Cli.

Variable unified_diff : list text -> list text -> text -> text -> list text.
Variable splitlines : text -> list text.

(** [str.lower] *)
Variable lower : text -> text.

Definition _confirm_changes (tty : confirm_tty) (num_files : Z)
  (diff_output : text) : cli bool :=
  print DiffPreview ;;
  print (DiffText diff_output) ;;
  print EndPreview ;;
  match tty with
  | ConfirmOpenFails =>
      (inr (SystemExit 1), [OpenConfirmTty; ToStderr CannotReadConfirmation])
  | ConfirmReadFails =>
      (inr (SystemExit 1),
       [OpenConfirmTty; ToStdout (Prompt num_files);
        ToStderr CannotReadConfirmation])
  | ConfirmLine line =>
      (inl (text_eqb (lower (strip line)) (py "y")),
       [OpenConfirmTty; ToStdout (Prompt num_files)])
  end.

(** [findings if args.no_confirm else run_tui(findings)] *)
Definition select (args : cli_args) (w : world) (findings : list Finding)
  : cli (list Finding) :=
  if args_no_confirm args then (inl findings, [])
  else
    let '(e, evs) := run_tui (w_tty w) findings (w_keys w) in
    (match e with
     | Returned selected => inl selected
     | Raised x => inr (Uncaught x)
     | WaitingForKey => inr Blocked
     end,
     map Console evs).

(** [main], once the mapping of the planner is made: the preview and
    the confirmation, then the dry run or the writing. *)
Definition main_on_replacements (args : cli_args) (w : world)
  (selected : list Finding) (replacements : list (text * (text * text)))
  : cli unit :=
  match replacements with
  | [] => print NoMatchingSecrets ;; finish Returns
  | _ :: _ =>
      let diff_output :=
        generate_diffs unified_diff splitlines replacements (Some selected) in
      confirmed ←
        (if negb (args_no_confirm args)
         then _confirm_changes (w_confirm w) (len replacements) diff_output
         else (inl true, []));
      if negb confirmed then print Aborted ;; finish Returns
      else if args_dry_run args then
        (if args_no_confirm args then print (DiffText diff_output)
         else (inl tt, [])) ;;
        print (DryRun (len replacements)) ;;
        finish Returns
      else
        match apply_redactions (w_os w) replacements with
        | (Return count, evs) => (inl tt, map Os evs) ;; print (Redacted count)
        | (Raise e, evs) => (inr (Uncaught e), map Os evs)
        end
  end.

(** [main], once the selection is made. *)
Definition main_on_selection (args : cli_args) (w : world)
  (selected : list Finding) : cli unit :=
  match selected with
  | [] => print NoSecretsSelected ;; finish Returns
  | _ :: _ =>
      let '(replacements, log) :=
        generate_replacements_log (w_fs w) selected (args_placeholder args) in
      (inl tt, map Logged log) ;;
      main_on_replacements args w selected replacements
  end.

(** [main], from the findings that [parse_findings] returned. *)
Definition main_steps (args : cli_args) (w : world) (findings : list Finding)
  : cli unit :=
  match findings with
  | [] => print NoSecretsFound ;; finish Returns
  | _ :: _ =>
      print (Found (len findings)) ;;
      selected ← select args w findings;
      main_on_selection args w selected
  end.

Definition main (args : cli_args) (w : world) (findings : list Finding)
  : cli_end * list cli_event :=
  match main_steps args w findings with
  | (inl _, evs) => (Returns, evs)
  | (inr e, evs) => (e, evs)
  end.

End Cli.

(** ** Vocabulary of the properties *)

Local Open Scope nat_scope.

(** A sequence of substitutions [(old, new)], applied in order. *)
Definition apply_passes (ps : list (text * text)) (s : text) : text :=
  fold_left (fun t p => str_replace t (fst p) (snd p)) ps s.

(** The substitutions of the planner for one file, in order. *)
Definition plan_passes (placeholder : text) (file_findings : list Finding)
  : list (text * text) :=
  map (fun f => (secret f, replacement_for placeholder f))
    (sorted_longest_first file_findings).

(** The substitutions of the masking loop for one file, in order. *)
Definition mask_passes (file_findings : list Finding) : list (text * text) :=
  map (fun f => (secret f, mask_secret (secret f) mask_secret_default_visible))
    file_findings.

(** The scan of [str.replace], as a relation between a text and its
    image: the text is cut into stretches without an occurrence of [old],
    separated by the occurrences found, each the leftmost one of what is
    left. *)
Inductive scan (old new : text) : text -> text -> Prop :=
| scan_rest g : ~ occurs old g -> scan old new g g
| scan_hit g v v' :
    (forall a b, g ++ old ++ v = a ++ old ++ b -> length g <= length a) ->
    scan old new v v' ->
    scan old new (g ++ old ++ v) (g ++ new ++ v').

(** No occurrence of [x], in any text, shares a character with an
    embedded copy of [m]. *)
Definition never_overlaps (x m : text) : Prop :=
  forall u v a b, u ++ m ++ v = a ++ x ++ b ->
    length a + length x <= length u \/ length u + length m <= length a.

(** One of two texts starts with the other. *)
Definition compatible (a b : text) : bool := startswith a b || startswith b a.

(** [x] can be laid over [m] with at least one character in common:
    either [x] starts before or at the start of [m] and its tail from
    [j] agrees with [m], or [x] starts inside [m] at [j]. *)
Definition overlapsb (x m : text) : bool :=
  existsb (fun j => compatible (drop j x) m) (seq 0 (length x))
  || existsb (fun j => compatible x (drop j m)) (seq 1 (length m - 1)).

(** In [u ++ m ++ v], every occurrence of [x] keeps clear of the block
    [m], except the block itself when [x] is [m]. *)
Definition standalone (x u m v : text) : Prop :=
  forall a b, u ++ m ++ v = a ++ x ++ b ->
    length a + length x <= length u \/ length u + length m <= length a
    \/ (a = u /\ x = m).

Definition standaloneb (x u m v : text) : bool :=
  forallb
    (fun i =>
       negb (startswith x (drop i (u ++ m ++ v)))
       || (i + length x <=? length u)
       || (length u + length m <=? i)
       || ((i =? length u) && text_eqb x m))
    (seq 0 (S (length (u ++ m ++ v)))).

(** No proper prefix of [s] of length [1..n] is also a suffix of [s]. *)
Definition border_free (n : nat) (s : text) : Prop :=
  forall k, 1 <= k <= n -> take k s <> drop (length s - k) s.

Definition border_freeb (n : nat) (s : text) : bool :=
  forallb (fun k => negb (text_eqb (take k s) (drop (length s - k) s)))
    (seq 1 n).

(** The findings of a list that name one file, in their order. *)
Definition group_of (findings : list Finding) (path : text) : list Finding :=
  List.filter (fun f => text_eqb (file_path f) path) findings.

(** The entry the planner makes for a file and its group, if any. *)
Definition entry_for (fs : filesystem) (placeholder : text) (path : text)
  (file_findings : list Finding) : option (text * text) :=
  match fs path with
  | Regular _ (Content original) =>
      let redacted := redact placeholder file_findings original in
      if text_eqb redacted original then None else Some (original, redacted)
  | _ => None
  end.

(** The conditions under which the substitutions of a group do what
    they are meant to: no secret is empty, and no secret of the group can
    overlap a replacement text used for the group. *)
Definition secrets_nonempty (file_findings : list Finding) : Prop :=
  forall f, In f file_findings -> secret f <> [].

Definition replacements_clear (placeholder : text)
  (file_findings : list Finding) : Prop :=
  forall f g, In f file_findings -> In g file_findings ->
    never_overlaps (secret f) (replacement_for placeholder g).

Definition replacements_clearb (placeholder : text)
  (file_findings : list Finding) : bool :=
  forallb
    (fun f =>
       forallb
         (fun g => negb (overlapsb (secret f) (replacement_for placeholder g)))
         file_findings)
    file_findings.

Definition secrets_nonemptyb (file_findings : list Finding) : bool :=
  forallb (fun f => negb (text_eqb (secret f) [])) file_findings.

(** The conditions under which the masking loop hides the secrets of a
    file: no secret is empty or contains an asterisk, and a secret longer
    than twice the visible part does not start with an end of its own
    visible tail. *)
Definition maskable (s : text) : Prop :=
  s <> [] /\ ~ In star s /\
  (8 < length s -> border_free (Z.to_nat mask_secret_default_visible) s).

Definition maskableb (s : text) : bool :=
  negb (text_eqb s [])
  && negb (existsb (N.eqb star) s)
  && ((length s <=? 8)
      || border_freeb (Z.to_nat mask_secret_default_visible) s).

(** [g] may stand before [h]: its secret is at least as long. *)
Definition not_shorter (g h : Finding) : Prop :=
  length (secret h) <= length (secret g).

(** A group so far, and the findings that join it. *)
Definition merge_group (o : option (list Finding)) (g : list Finding)
  : option (list Finding) :=
  match o with
  | Some g0 => Some (g0 ++ g)
  | None =>
      match g with
      | [] => None
      | _ :: _ => Some g
      end
  end.

(** A substitution leaves no occurrence of the text it replaces. *)
Definition removes_own (p : text * text) : Prop :=
  forall s, ~ occurs (fst p) (str_replace s (fst p) (snd p)).

(** A substitution brings no occurrence of [x] into a text without
    one. *)
Definition keeps_absent (x : text) (p : text * text) : Prop :=
  forall s, ~ occurs x s -> ~ occurs x (str_replace s (fst p) (snd p)).

(** Every occurrence of a secret of the group that is at least as long
    as the secret of [fA] keeps clear of the block [secret fA] in
    [u ++ secret fA ++ v], the block itself apart. *)
Definition standalone_in_group (file_findings : list Finding) (fA : Finding)
  (u v : text) : Prop :=
  forall f, In f file_findings ->
    length (secret fA) <= length (secret f) ->
    standalone (secret f) u (secret fA) v.

Definition standalone_in_groupb (file_findings : list Finding) (fA : Finding)
  (u v : text) : bool :=
  forallb
    (fun f =>
       (length (secret f) <? length (secret fA))
       || standaloneb (secret f) u (secret fA) v)
    file_findings.

(** The mapping with the displayed texts in the place of the texts. *)
Definition mask_item (findings : list Finding)
  (item : text * (text * text)) : text * (text * text) :=
  (fst item,
   displayed (Some findings) (fst item) (fst (snd item)) (snd (snd item))).

Definition masked_items (findings : list Finding)
  (replacements : list (text * (text * text)))
  : list (text * (text * text)) :=
  map (mask_item findings) replacements.

(** Counting the events of a trace: the renames, the warnings, and the
    targets of the attempts to make a temporary file. *)
Definition count_events (p : commit_event -> bool)
  (trace : list commit_event) : Z :=
  len (List.filter p trace).

Definition is_renamed (ev : commit_event) : bool :=
  match ev with
  | Renamed _ _ => true
  | _ => false
  end.

Definition is_warning (ev : commit_event) : bool :=
  match ev with
  | Warning _ => true
  | _ => false
  end.

Definition renames (trace : list commit_event) : Z :=
  count_events is_renamed trace.

Definition warnings (trace : list commit_event) : Z :=
  count_events is_warning trace.

Definition attempts (trace : list commit_event) : list text :=
  flat_map (fun ev => match ev with Mkstemp p => [p] | _ => [] end) trace.

(** The events of the steps between the making of the temporary file
    and its rename. *)
Definition is_step (ev : commit_event) : bool :=
  match ev with
  | Written _ _ | ModeCopied _ | OwnerCopied _ => true
  | _ => false
  end.

(** Every failure the operating system answers with is an [OSError]. *)
Definition fails_with_OSError (answer : option exn) : Prop :=
  forall e, answer = Some e -> is_OSError e = true.

Definition os_errors_only (os : os_answers) : Prop :=
  (forall e, os_mkstemp os = Raise e -> is_OSError e = true)
  /\ fails_with_OSError (os_fdopen os)
  /\ fails_with_OSError (os_write os)
  /\ fails_with_OSError (os_stat os)
  /\ fails_with_OSError (os_chmod os)
  /\ fails_with_OSError (os_chown os)
  /\ fails_with_OSError (os_replace os)
  /\ fails_with_OSError (os_unlink os).

Definition fails_with_OSErrorb (answer : option exn) : bool :=
  match answer with
  | None => true
  | Some e => is_OSError e
  end.

Definition os_errors_onlyb (os : os_answers) : bool :=
  match os_mkstemp os with
  | Return _ => true
  | Raise e => is_OSError e
  end
  && fails_with_OSErrorb (os_fdopen os)
  && fails_with_OSErrorb (os_write os)
  && fails_with_OSErrorb (os_stat os)
  && fails_with_OSErrorb (os_chmod os)
  && fails_with_OSErrorb (os_chown os)
  && fails_with_OSErrorb (os_replace os)
  && fails_with_OSErrorb (os_unlink os).

(** The entry is committed: its rename is done. *)
Definition commits (os : text -> os_answers) (item : text * (text * text))
  : bool :=
  match commit_entry (os (fst item)) (fst item) (snd (snd item)) with
  | (Return _, _) => true
  | (Raise _, _) => false
  end.

(** The events of one entry, with the warning that follows a failure. *)
Definition entry_events (os : text -> os_answers)
  (item : text * (text * text)) : list commit_event :=
  snd (commit_entry (os (fst item)) (fst item) (snd (snd item)))
    ++ (if commits os item then [] else [Warning (CannotWrite (fst item))]).

(** How the work on one entry can end when only [OSError]s occur: the
    rename is done, as the last step; or no temporary file could be made;
    or a later step failed, and the last step is the attempt to unlink
    the temporary file. *)
Inductive entry_report (os : os_answers) (target : text)
  : commit unit -> Prop :=
| entry_committed tmp evs :
    os_mkstemp os = Return tmp -> forallb is_step evs = true ->
    entry_report os target
      (Return tt, Mkstemp target :: Created tmp :: evs ++ [Renamed tmp target])
| entry_no_temp e :
    is_OSError e = true -> os_mkstemp os = Raise e ->
    entry_report os target (Raise e, [Mkstemp target])
| entry_cleaned_up e tmp evs gone :
    is_OSError e = true -> os_mkstemp os = Return tmp ->
    forallb is_step evs = true ->
    (gone = Unlinked tmp /\ os_unlink os = None
     \/ gone = UnlinkFailed tmp /\ os_unlink os <> None) ->
    entry_report os target
      (Raise e, Mkstemp target :: Created tmp :: evs ++ [gone]).

(** The path a record of the log is about. *)
Definition record_path (r : log_record) : text :=
  match r with
  | SkippingSymlink p | SkippingMissingFile p | HardLinks p _
  | CannotRead p | CannotDecode p | CannotWrite p => p
  end.

(** What the planner logs for the group of one path. *)
Definition group_log (fs : filesystem) (path : text) : list log_record :=
  snd (_validate_file fs path)
    ++ (if fst (_validate_file fs path)
        then match read_text fs path with
             | ReadOSError => [CannotRead path]
             | ReadUnicodeDecodeError => [CannotDecode path]
             | Content _ => []
             end
        else []).

(** The findings of a list that the parser keeps when the keys in
    [seen] were met before: the first finding of each further key. *)
Fixpoint keep_first (seen : gset (text * text)) (l : list RawFinding)
  : list RawFinding :=
  match l with
  | [] => []
  | f :: l' =>
      if bool_decide (finding_key f ∈ seen) then keep_first seen l'
      else f :: keep_first ({[ finding_key f ]} ∪ seen) l'
  end.

(** The events of the committer in a trace of [main]. *)
Definition os_events (trace : list cli_event) : list commit_event :=
  flat_map (fun ev => match ev with Os e => [e] | _ => [] end) trace.


(** An event of the work on the entry of [target] with the text
    [redacted]: what is written is that text, and what is made, renamed
    onto or warned about is that target. *)
Definition entry_event (target redacted : text) (ev : commit_event) : Prop :=
  match ev with
  | Mkstemp t | Renamed _ t | Warning (CannotWrite t) => t = target
  | Written _ content => content = redacted
  | Warning _ => False
  | _ => True
  end.

(** [x] may stand before [y] in [sorted(replacements.items())]. *)
Definition item_le (x y : text * (text * text)) : Prop :=
  item_ltb y x = false.

(** The calls of a list made one after the other, up to the first that
    the terminal makes raise. *)
Fixpoint perform (scr : screen) (ops : list screen_op)
  : outcome (list screen_op) :=
  match ops with
  | [] => Return []
  | op :: rest =>
      match scr (Addnstr op) with
      | Some e => Raise e
      | None =>
          match perform scr rest with
          | Raise e => Raise e
          | Return done => Return (op :: done)
          end
      end
  end.

(** The three lines of the header, for a window [max_x] columns wide. *)
Definition header_lines (max_x : Z) : list screen_op :=
  [DrawTitle (max_x - 1); DrawControls (max_x - 1); DrawSeparator (max_x - 1)].

(** The rows of a frame that are drawn as the cursor row. *)
Definition cursor_rows (ops : list screen_op) : list screen_op :=
  List.filter
    (fun op => match op with
               | DrawRow _ _ _ true => true
               | _ => false
               end)
    ops.

(** ** Example data *)

Definition finding (path s detector : string) : Finding :=
  {| file_path := py path; secret := py s; detector_name := py detector |}.

(** One regular file with one link and the given content. *)
Definition one_file (path : string) (content : text) : filesystem :=
  fun p => if text_eqb p (py path) then Regular 1 (Content content)
           else NotAFile ReadOSError.

(** Every path is a symbolic link to a readable file with the given
    content. *)
Definition linked_file_of (content : text) : filesystem :=
  fun _ => Symlink (Content content).

(** A short secret that is part of a longer one, both in one file. *)
Definition nested_findings : list Finding :=
  [finding "app.env" "SECRET" "Generic";
   finding "app.env" "SUPERSECRETLONG" "Generic"].

Definition nested_content : text := py "a=SUPERSECRETLONG b=SECRET".

Definition linked_file : filesystem := linked_file_of nested_content.

(** A placeholder that contains the short secret. *)
Definition key_findings : list Finding :=
  [finding "app.env" "KEY" "Generic";
   finding "app.env" "APIKEY123" "Generic"].

Definition key_content : text := py "token=APIKEY123 short=KEY".

Definition key_placeholder : text := py "<API_KEY>".

Definition key_redacted : text := py "token=<API_<API_KEY>> short=<API_KEY>".

(** Secrets of two files, the one of the first file also standing in
    the second file. *)
Definition cross_findings : list Finding :=
  [finding "a.txt" "hunter2hunter2" "Generic";
   finding "b.txt" "API-KEY-0123456789" "Generic"].

Definition cross_fs : filesystem :=
  fun p =>
    if text_eqb p (py "a.txt")
    then Regular 1 (Content (py "pw=hunter2hunter2" ++ newline))
    else if text_eqb p (py "b.txt")
    then Regular 1
           (Content (py "key=API-KEY-0123456789 pw=hunter2hunter2" ++ newline))
    else NotAFile ReadOSError.

Definition cross_replacements : list (text * (text * text)) :=
  [(py "a.txt",
    (py "pw=hunter2hunter2" ++ newline, py "pw=**************" ++ newline));
   (py "b.txt",
    (py "key=API-KEY-0123456789 pw=hunter2hunter2" ++ newline,
     py "key=****************** pw=hunter2hunter2" ++ newline))].

(** The entry the planner makes for the nested secrets with the default
    placeholder. *)
Definition nested_replacements : list (text * (text * text)) :=
  [(py "app.env", (nested_content, py "a=*************** b=******"))].

(** An operating system that answers every call with success. *)
Definition os_success (target : text) : os_answers :=
  {| os_mkstemp := Return (target ++ py ".tmp");
     os_fdopen := None; os_write := None; os_stat := None; os_chmod := None;
     os_chown := None; os_replace := None; os_unlink := None |}.

(** One that refuses to change the owner, and cannot write the second
    of three files. *)
Definition os_second_write_fails (target : text) : os_answers :=
  {| os_mkstemp := Return (target ++ py ".tmp");
     os_fdopen := None;
     os_write := if text_eqb target (py "b.txt") then Some OSError else None;
     os_stat := None; os_chmod := None; os_chown := Some PermissionError;
     os_replace := None; os_unlink := None |}.

Definition three_replacements : list (text * (text * text)) :=
  [(py "a.txt", (py "SECRET1", py "[R1]"));
   (py "b.txt", (py "SECRET2", py "[R2]"));
   (py "c.txt", (py "SECRET3", py "[R3]"))].

(** A redacted text with a lone surrogate, as a placeholder given on the
    command line with undecodable bytes brings one. *)
Definition surrogate_replacements : list (text * (text * text)) :=
  [(py "a.txt", (py "SECRET1", [56448%N]));
   (py "b.txt", (py "SECRET2", py "[R2]"))].

(** Findings of two detectors, as in a test of the key handler. *)
Definition category_findings : list Finding :=
  [finding "/tmp/f.txt" "s1" "AWS";
   finding "/tmp/f.txt" "s2" "AWS";
   finding "/tmp/f.txt" "s3" "GitHub"].

(** A line of JSON, written with apostrophes in the place of the double
    quotes. *)
Definition json_line (s : string) : text :=
  map (fun c => if (c =? 39)%N then 34%N else c) (py s).

Definition finding_line : text :=
  json_line "{'Raw': 'SUPERSECRETKEY1234', 'DetectorName': 'Generic', 'SourceMetadata': {'Data': {'Filesystem': {'file': '/tmp/test.txt'}}}}".

Definition finding_document : json :=
  JObject
    [(py "Raw", JString (py "SUPERSECRETKEY1234"));
     (py "DetectorName", JString (py "Generic"));
     (py "SourceMetadata",
      JObject
        [(py "Data",
          JObject
            [(py "Filesystem",
              JObject [(py "file", JString (py "/tmp/test.txt"))])])])].

(** A line that holds an integer of 5000 digits, more than the
    interpreter converts. *)
Definition long_number_line : text := replicate (N.to_nat 5000) 49%N.

(** What [json.loads] does with some lines; the others are no JSON
    documents. *)
Definition example_json_loads (t : text) : loads_result :=
  if text_eqb t long_number_line then LoadsRaises ValueError
  else
    match dict_get
            [(finding_line, finding_document);
             (json_line "{'Raw': 'secret'}",
              JObject [(py "Raw", JString (py "secret"))]);
             (py "42", JNumber (py "42"))]
            t with
    | Some v => Loaded v
    | None => JSONDecodeError
    end.

(** A stream with a blank line, a line that is not JSON, the line of a
    finding twice and a line without a path. *)
Definition example_stream : list text :=
  [newline;
   py "not json" ++ newline;
   finding_line ++ newline;
   finding_line ++ newline;
   json_line "{'Raw': 'secret'}" ++ newline].

Definition example_finding : RawFinding :=
  {| raw_file_path := py "/tmp/test.txt";
     raw_secret := py "SUPERSECRETKEY1234";
     raw_detector_name := JString (py "Generic") |}.

(** The row a call writes on, and whether its string holds a NUL
    character; the strings of the header and of the status bar hold
    none. *)
Definition op_row (op : screen_op) : Z :=
  match op with
  | DrawTitle _ => 0
  | DrawControls _ => 1
  | DrawSeparator _ => 2
  | DrawRow row _ _ _ | DrawStatus row _ _ _ => row
  end%Z.

Definition op_has_nul (op : screen_op) : bool :=
  match op with
  | DrawRow _ line _ _ => contains [0%N] line
  | _ => false
  end.

(** A terminal with a window of [max_y] rows: [addnstr] raises
    [ValueError] for a string with a NUL character, and [curses.error]
    for a row that is not in the window. *)
Definition window_screen (max_y : Z) : screen :=
  fun call =>
    match call with
    | Addnstr op =>
        if op_has_nul op then Some ValueError
        else if ((0 <=? op_row op) && (op_row op <? max_y))%Z then None
        else Some CursesError
    | _ => None
    end.


(** A turn on a terminal with a window of the given size, with the
    given key. *)
Definition turn (max_y max_x key : Z) : terminal_input :=
  {| term_max_y := max_y; term_max_x := max_x; term_key := key;
     term_raises := window_screen max_y |}.

(** A world with a terminal on which the confirm key is pressed at once,
    one file that holds the two secrets, and an operating system that
    answers every call with success. *)
Definition example_world (answer : confirm_tty) : world :=
  {| w_tty := TtyReady;
     w_keys := [turn 24 80 ord_newline];
     w_fs := one_file "app.env" nested_content;
     w_confirm := answer;
     w_os := os_success |}.

(** The same world, but the first finding is taken out of the selection
    with the space key before the confirm key is pressed. *)
Definition deselecting_world (answer : confirm_tty) : world :=
  {| w_tty := TtyReady;
     w_keys := [turn 24 80 ord_space; turn 24 80 ord_newline];
     w_fs := one_file "app.env" nested_content;
     w_confirm := answer;
     w_os := os_success |}.

(** * Properties *)

(** ** Basic facts on text *)

Lemma text_eqb_eq a b : text_eqb a b = true <-> a = b.
Proof.
  revert b; induction a as [|x a IH]; intros [|y b]; simpl; try easy.
  rewrite andb_true_iff, N.eqb_eq, IH. split.
  - intros [-> ->]; reflexivity.
  - intros [= -> ->]; auto.
Qed.

Lemma text_eqb_refl a : text_eqb a a = true.
Proof. apply text_eqb_eq; reflexivity. Qed.

Lemma text_eqb_neq a b : text_eqb a b = false <-> a <> b.
Proof.
  rewrite <- text_eqb_eq. destruct (text_eqb a b); split; congruence.
Qed.

Lemma startswith_prefix p s : startswith p s = true <-> exists q, s = p ++ q.
Proof.
  revert s; induction p as [|x p IH]; intros s; simpl.
  - split; eauto.
  - destruct s as [|y s].
    + split; [discriminate | intros [q [=]]].
    + rewrite andb_true_iff, N.eqb_eq, IH. split.
      * intros [-> [q ->]]. eauto.
      * intros [q [= -> ->]]. eauto.
Qed.

Lemma startswith_app p q : startswith p (p ++ q) = true.
Proof. apply startswith_prefix; eauto. Qed.

Lemma contains_occurs x s : contains x s = true <-> occurs x s.
Proof.
  induction s as [|c s IH]; simpl.
  - rewrite orb_false_r, startswith_prefix. split.
    + intros [q Hq]. exists [], q. exact Hq.
    + intros [p [q Hq]]. destruct p; [eauto | discriminate].
  - rewrite orb_true_iff, startswith_prefix, IH. split.
    + intros [[q Hq] | [p [q Hq]]].
      * exists [], q. exact Hq.
      * exists (c :: p), q. rewrite Hq. reflexivity.
    + intros [[|c' p] [q Hq]].
      * left. eauto.
      * right. injection Hq as _ Hq. exists p, q. exact Hq.
Qed.

Lemma not_contains_occurs x s : contains x s = false <-> ~ occurs x s.
Proof.
  rewrite <- contains_occurs. destruct (contains x s); split; congruence.
Qed.

Lemma occurs_nil s : occurs [] s.
Proof. exists [], s. reflexivity. Qed.

Lemma occurs_refl x : occurs x x.
Proof. exists [], []. simpl. rewrite app_nil_r. reflexivity. Qed.

Lemma occurs_app_l x s p : occurs x s -> occurs x (p ++ s).
Proof.
  intros [a [b ->]]. exists (p ++ a), b. rewrite <- app_assoc. reflexivity.
Qed.

Lemma occurs_app_r x s q : occurs x s -> occurs x (s ++ q).
Proof.
  intros [a [b ->]]. exists a, (b ++ q). rewrite <- !app_assoc. reflexivity.
Qed.

Lemma occurs_trans x y s : occurs x y -> occurs y s -> occurs x s.
Proof.
  intros Hxy [a [b ->]]. apply occurs_app_l, occurs_app_r, Hxy.
Qed.

Lemma occurs_length x s : occurs x s -> length x <= length s.
Proof. intros [p [q ->]]. rewrite !length_app. lia. Qed.

(** Two decompositions of one text, the first cut being the earlier. *)
Lemma app_eq_split (a b c d : text) :
  a ++ b = c ++ d -> length a <= length c ->
  exists e, c = a ++ e /\ b = e ++ d.
Proof.
  revert c; induction a as [|x a IH]; intros c H Hlen.
  - exists c. auto.
  - destruct c as [|y c]; [simpl in Hlen; lia|].
    simpl in H. injection H as -> H. simpl in Hlen.
    destruct (IH c H) as [e [-> ->]]; [lia|]. exists e. auto.
Qed.

Lemma app_eq_same_length (a b c d : text) :
  a ++ b = c ++ d -> length a = length c -> a = c /\ b = d.
Proof.
  intros H Hlen. destruct (app_eq_split a b c d H) as [e [He ->]]; [lia|].
  assert (e = []) as ->.
  { apply (f_equal (@length _)) in He. rewrite length_app in He.
    destruct e; [reflexivity | simpl in He; lia]. }
  rewrite app_nil_r in He. auto.
Qed.

(** ** The equations of [str.replace] *)

Lemma replace_from_skip old new k s :
  replace_from old new k s = replace_from old new 0 (drop k s).
Proof.
  revert k; induction s as [|c s IH]; intros k.
  - destruct k; reflexivity.
  - destruct k as [|k]; [reflexivity|]. simpl. apply IH.
Qed.

Lemma str_replace_nil old new : old <> [] -> str_replace [] old new = [].
Proof. destruct old; [congruence | reflexivity]. Qed.

Lemma str_replace_hit old new v :
  old <> [] -> str_replace (old ++ v) old new = new ++ str_replace v old new.
Proof.
  destruct old as [|o old]; [congruence|]. intros _.
  unfold str_replace. simpl app.
  change (replace_from (o :: old) new 0 (o :: old ++ v))
    with (if startswith (o :: old) (o :: old ++ v)
          then new ++ replace_from (o :: old) new (length (o :: old) - 1) (old ++ v)
          else o :: replace_from (o :: old) new 0 (old ++ v)).
  pose proof (startswith_app (o :: old) v) as Hs. simpl app in Hs.
  rewrite Hs. f_equal.
  rewrite replace_from_skip. simpl length.
  replace (S (length old) - 1) with (length old) by lia.
  rewrite drop_app_length. reflexivity.
Qed.

Lemma str_replace_miss old new c s :
  old <> [] -> startswith old (c :: s) = false ->
  str_replace (c :: s) old new = c :: str_replace s old new.
Proof.
  destruct old as [|o old]; [congruence|]. intros _ H.
  unfold str_replace.
  change (replace_from (o :: old) new 0 (c :: s))
    with (if startswith (o :: old) (c :: s)
          then new ++ replace_from (o :: old) new (length (o :: old) - 1) s
          else c :: replace_from (o :: old) new 0 s).
  rewrite H. reflexivity.
Qed.

Lemma startswith_occurs old s : startswith old s = true -> occurs old s.
Proof.
  intros H. apply startswith_prefix in H as [q ->]. exists [], q. reflexivity.
Qed.

Lemma not_occurs_cons old c s :
  startswith old (c :: s) = false -> ~ occurs old s -> ~ occurs old (c :: s).
Proof.
  intros Hs Hn [[|c' p] [q H]].
  - simpl in H. rewrite H, startswith_app in Hs. discriminate.
  - injection H as _ H. apply Hn. exists p, q. exact H.
Qed.

Lemma str_replace_absent old new s :
  ~ occurs old s -> str_replace s old new = s.
Proof.
  intros Hn. assert (old <> []) as Hold.
  { intros ->. apply Hn, occurs_nil. }
  induction s as [|c s IH].
  - apply str_replace_nil, Hold.
  - rewrite str_replace_miss; [|exact Hold|].
    + f_equal. apply IH. intros H. apply Hn.
      apply (occurs_app_l _ _ [c]) in H. exact H.
    + destruct (startswith old (c :: s)) eqn:E; [|reflexivity].
      exfalso. apply Hn, startswith_occurs, E.
Qed.

(** [str.replace] performs the scan. *)
Lemma scan_cons old new c s r :
  startswith old (c :: s) = false ->
  scan old new s r -> scan old new (c :: s) (c :: r).
Proof.
  intros Hs H. destruct H as [g Hg | g v v' Hfirst Hv].
  - apply scan_rest. apply not_occurs_cons; assumption.
  - apply (scan_hit old new (c :: g) v v'); [|exact Hv].
    intros [|c' a] b Hab.
    + simpl in Hab. exfalso. rewrite Hab, startswith_app in Hs. discriminate.
    + simpl in Hab. injection Hab as _ Hab. simpl.
      apply Hfirst in Hab. lia.
Qed.

Lemma str_replace_scan old new s :
  old <> [] -> scan old new s (str_replace s old new).
Proof.
  intros Hold.
  assert (forall n s, length s <= n -> scan old new s (str_replace s old new))
    as H; [|apply (H (length s)); lia].
  clear s. induction n as [|n IH]; intros s Hlen.
  - destruct s; [|simpl in Hlen; lia].
    rewrite str_replace_nil by exact Hold. apply scan_rest.
    intros H. apply occurs_length in H. destruct old; [congruence|simpl in H; lia].
  - destruct s as [|c s].
    + rewrite str_replace_nil by exact Hold. apply scan_rest.
      intros H. apply occurs_length in H.
      destruct old; [congruence|simpl in H; lia].
    + destruct (startswith old (c :: s)) eqn:E.
      * apply startswith_prefix in E as [v E]. rewrite E.
        rewrite str_replace_hit by exact Hold.
        apply (scan_hit old new [] v); [simpl; lia|].
        apply IH. apply (f_equal (@length _)) in E.
        rewrite length_app in E. simpl in E, Hlen.
        destruct old; [congruence|simpl in E; lia].
      * rewrite str_replace_miss by assumption.
        apply scan_cons; [exact E|]. apply IH. simpl in Hlen. lia.
Qed.

(** ** Occurrences and overlaps *)

Ltac solve_len :=
  repeat (rewrite length_app in * ); cbn [length] in *; lia.

Ltac list_eq :=
  repeat rewrite <- app_assoc; cbn [app]; try reflexivity; try assumption.

Lemma occurs_intro x s a b : s = a ++ x ++ b -> occurs x s.
Proof. intros ->. exists a, b. reflexivity. Qed.

(** An occurrence that ends within the first part of a text. *)
Lemma occurs_in_left (x a b l r : text) :
  l ++ r = a ++ x ++ b -> length a + length x <= length l -> occurs x l.
Proof.
  intros E Hlen.
  destruct (app_eq_split (a ++ x) b l r) as [e [He _]].
  - rewrite E. list_eq.
  - solve_len.
  - exists a, e. rewrite He. list_eq.
Qed.

(** An occurrence that starts within the second part of a text. *)
Lemma occurs_in_right (x a b l r : text) :
  l ++ r = a ++ x ++ b -> length l <= length a ->
  exists e, a = l ++ e /\ r = e ++ x ++ b.
Proof.
  intros E Hlen. apply (app_eq_split l r a (x ++ b)); assumption.
Qed.

Lemma compatible_app (p q p' q' : text) :
  p ++ q = p' ++ q' -> compatible p p' = true.
Proof.
  intros E. unfold compatible. apply orb_true_iff.
  destruct (le_lt_dec (length p) (length p')) as [Hle | Hlt].
  - left. destruct (app_eq_split p q p' q' E Hle) as [e [-> _]].
    apply startswith_app.
  - right. symmetry in E.
    destruct (app_eq_split p' q' p q E) as [e [-> _]]; [lia|].
    apply startswith_app.
Qed.

Lemma compatible_sym a b : compatible a b = compatible b a.
Proof. unfold compatible. apply orb_comm. Qed.

(** The test [overlapsb] is sound. *)
Lemma overlapsb_sound x m : overlapsb x m = false -> never_overlaps x m.
Proof.
  intros H u v a b E. unfold overlapsb in H.
  apply orb_false_iff in H as [H1 H2].
  destruct (le_lt_dec (length a + length x) (length u)) as [|Hax]; [left; assumption|].
  destruct (le_lt_dec (length u + length m) (length a)) as [|Hum]; [right; assumption|].
  exfalso.
  destruct (le_lt_dec (length a) (length u)) as [Hle | Hlt].
  - symmetry in E.
    destruct (app_eq_split a (x ++ b) u (m ++ v) E Hle) as [e [Hu He]].
    symmetry in He.
    destruct (app_eq_split e (m ++ v) x b He) as [e' [Hx He']].
    { subst u. rewrite length_app in Hax. lia. }
    assert (existsb (fun j => compatible (drop j x) m) (seq 0 (length x)) = true)
      as Hex; [|congruence].
    apply existsb_exists. exists (length e). split.
    + apply in_seq. subst u. rewrite length_app in Hax. lia.
    + rewrite Hx, drop_app_length. rewrite compatible_sym.
      apply (compatible_app m v e' b He').
  - destruct (app_eq_split u (m ++ v) a (x ++ b) E) as [e [Ha He]]; [lia|].
    destruct (app_eq_split e (x ++ b) m v) as [e' [Hm He']].
    { symmetry. exact He. }
    { subst a. rewrite length_app in Hum, Hlt. lia. }
    assert (existsb (fun j => compatible x (drop j m)) (seq 1 (length m - 1)) = true)
      as Hex; [|congruence].
    apply existsb_exists. exists (length e). split.
    + apply in_seq. subst a. rewrite length_app in Hum, Hlt. lia.
    + rewrite Hm, drop_app_length. apply (compatible_app x b e' v He').
Qed.

(** Texts without a common character never overlap. *)
Lemma never_overlaps_disjoint x m :
  x <> [] -> m <> [] ->
  (forall c, In c m -> ~ In c x) -> never_overlaps x m.
Proof.
  intros Hx Hm Hd u v a b E.
  assert (0 < length x) by (destruct x; [congruence | simpl; lia]).
  assert (0 < length m) by (destruct m; [congruence | simpl; lia]).
  destruct (le_lt_dec (length a + length x) (length u)) as [|Hax]; [left; assumption|].
  destruct (le_lt_dec (length u + length m) (length a)) as [|Hum]; [right; assumption|].
  exfalso.
  set (i := Nat.max (length a) (length u)).
  assert (exists c, m !! (i - length u) = Some c) as [c Hc].
  { apply lookup_lt_is_Some. unfold i. lia. }
  assert (exists d, x !! (i - length a) = Some d) as [d Hd'].
  { apply lookup_lt_is_Some. unfold i. lia. }
  assert ((u ++ m ++ v) !! i = Some c) as H1.
  { rewrite lookup_app_r by (unfold i; lia).
    rewrite lookup_app_l by (unfold i; lia). exact Hc. }
  assert ((a ++ x ++ b) !! i = Some d) as H2.
  { rewrite lookup_app_r by (unfold i; lia).
    rewrite lookup_app_l by (unfold i; lia). exact Hd'. }
  rewrite E, H2 in H1. injection H1 as ->.
  apply (Hd c).
  - apply list_elem_of_In. eapply list_elem_of_lookup_2. exact Hc.
  - apply list_elem_of_In. eapply list_elem_of_lookup_2. exact Hd'.
Qed.

(** ** One substitution *)

(** A substitution whose new text is a start of [old], a middle [m] and
    an end of [old] creates no occurrence of a text that cannot overlap
    [m]. *)
Lemma scan_no_new_occurrence x old h m t s r :
  never_overlaps x m ->
  (exists h', old = h ++ h') -> (exists t', old = t' ++ t) ->
  scan old (h ++ m ++ t) s r ->
  forall pre, occurs x (pre ++ r) -> occurs x (pre ++ s).
Proof.
  intros Hno [h' Hh] [t' Ht] Hscan.
  induction Hscan as [g Hg | g v v' Hfirst Hv IH]; intros pre Hocc;
    [exact Hocc|].
  destruct Hocc as [a [b E]].
  destruct (Hno (pre ++ g ++ h) (t ++ v') a b) as [Hl | Hr].
  { rewrite <- E. list_eq. }
  - assert (occurs x (pre ++ g ++ h)) as Hin.
    { apply (occurs_in_left x a b _ (m ++ t ++ v')); [|exact Hl].
      rewrite <- E. list_eq. }
    rewrite Hh at 1.
    replace (pre ++ g ++ (h ++ h') ++ v) with ((pre ++ g ++ h) ++ h' ++ v)
      by list_eq.
    apply occurs_app_r, Hin.
  - destruct (occurs_in_right x a b ((pre ++ g ++ h) ++ m) (t ++ v'))
      as [e [_ He]].
    { rewrite <- E. list_eq. }
    { solve_len. }
    assert (occurs x (t ++ v)) as Hin.
    { apply IH. exists e, b. exact He. }
    rewrite Ht at 1.
    replace (pre ++ g ++ (t' ++ t) ++ v) with ((pre ++ g ++ t') ++ t ++ v)
      by list_eq.
    apply occurs_app_l, Hin.
Qed.

Lemma length_pos (s : text) : s <> [] -> 0 < length s.
Proof. destruct s; [congruence | simpl; lia]. Qed.

(** A text that starts with an end of its own tail has a border. *)
Lemma border_contra (old t' t a e rest b : text) :
  old = t' ++ t -> t = a ++ e -> e <> [] -> length t < length old ->
  e ++ rest = old ++ b -> border_free (length t) old -> False.
Proof.
  intros Hold Ht He Hlen E Hfree.
  pose proof (length_pos e He) as Hpos.
  assert (length e <= length t) as Hle by (subst t; solve_len).
  destruct (app_eq_split e rest old b E) as [o' [Ho' _]]; [lia|].
  apply (Hfree (length e)); [lia|].
  rewrite Ho' at 1. rewrite take_app_length.
  rewrite Hold, Ht.
  replace (length (t' ++ a ++ e) - length e) with (length (t' ++ a))
    by solve_len.
  replace (t' ++ a ++ e) with ((t' ++ a) ++ e) by list_eq.
  rewrite drop_app_length. reflexivity.
Qed.

(** A substitution whose new text is a start of [old], a middle that
    [old] cannot overlap and an end of [old] leaves no occurrence of
    [old], provided [old] does not start with an end of that tail. *)
Lemma scan_removes_old old h m t s r :
  never_overlaps old m ->
  (exists h', old = h ++ h') -> (exists t', old = t' ++ t) ->
  length h < length old -> length t < length old ->
  border_free (length t) old ->
  scan old (h ++ m ++ t) s r -> ~ occurs old (t ++ r).
Proof.
  intros Hno [h' Hh] [t' Ht] Hhlen Htlen Hfree Hscan.
  induction Hscan as [g Hg | g v v' Hfirst Hv IH]; intros [a [b E]].
  - destruct (le_lt_dec (length t) (length a)) as [Hle | Hlt].
    + destruct (occurs_in_right old a b t g E Hle) as [e [_ He]].
      apply Hg. exists e, b. exact He.
    + symmetry in E.
      destruct (app_eq_split a (old ++ b) t g E) as [e [He1 He2]]; [lia|].
      apply (border_contra old t' t a e g b); try assumption; [|congruence].
      intros ->. rewrite app_nil_r in He1. subst a. lia.
  - destruct (Hno (t ++ g ++ h) (t ++ v') a b) as [Hl | Hr].
    { rewrite <- E. list_eq. }
    + destruct (le_lt_dec (length t) (length a)) as [Hle | Hlt].
      * destruct (occurs_in_right old a b t (g ++ (h ++ m ++ t) ++ v') E Hle)
          as [e [Ha He]].
        assert (length e + length old <= length (g ++ h)) as Hfit.
        { subst a. solve_len. }
        destruct (app_eq_split (e ++ old) b (g ++ h) (m ++ t ++ v'))
          as [e2 [He2 _]].
        { transitivity (e ++ old ++ b); [list_eq | rewrite <- He; list_eq]. }
        { solve_len. }
        assert (length g <= length e) as Hge.
        { apply (Hfirst e (e2 ++ h' ++ v)).
          rewrite Hh at 1.
          replace (g ++ (h ++ h') ++ v) with ((g ++ h) ++ h' ++ v) by list_eq.
          rewrite He2. list_eq. }
        rewrite length_app in Hfit. lia.
      * symmetry in E.
        destruct (app_eq_split a (old ++ b) t (g ++ (h ++ m ++ t) ++ v') E)
          as [e [He1 He2]]; [lia|].
        apply (border_contra old t' t a e (g ++ (h ++ m ++ t) ++ v') b);
          try assumption; [|congruence].
        intros ->. rewrite app_nil_r in He1. subst a. lia.
    + destruct (occurs_in_right old a b (t ++ g ++ h ++ m) (t ++ v'))
        as [e [_ He]].
      { rewrite <- E. list_eq. }
      { solve_len. }
      apply IH. exists e, b. exact He.
Qed.

Lemma border_free_0 s : border_free 0 s.
Proof. intros k Hk. lia. Qed.

(** The substitutions of the planner. *)
Lemma pass_removes_old old new s :
  old <> [] -> never_overlaps old new ->
  ~ occurs old (str_replace s old new).
Proof.
  intros Hold Hno.
  pose proof (str_replace_scan old new s Hold) as Hscan.
  replace new with ([] ++ new ++ []) in Hscan at 1
    by (cbn [app]; apply app_nil_r).
  apply (scan_removes_old old [] new [] s _ Hno) in Hscan; try assumption.
  - exists old. reflexivity.
  - exists old. rewrite app_nil_r. reflexivity.
  - apply length_pos, Hold.
  - apply length_pos, Hold.
  - apply border_free_0.
Qed.

Lemma pass_keeps_absent x old new s :
  old <> [] -> never_overlaps x new ->
  ~ occurs x s -> ~ occurs x (str_replace s old new).
Proof.
  intros Hold Hno Hs Hr. apply Hs.
  pose proof (str_replace_scan old new s Hold) as Hscan.
  replace new with ([] ++ new ++ []) in Hscan at 1
    by (cbn [app]; apply app_nil_r).
  apply (scan_no_new_occurrence x old [] new [] s _ Hno) with (pre := [])
    in Hscan; try assumption.
  - exists old. reflexivity.
  - exists old. rewrite app_nil_r. reflexivity.
Qed.

(** ** Sequences of substitutions *)

Lemma apply_passes_cons p ps s :
  apply_passes (p :: ps) s = apply_passes ps (str_replace s (fst p) (snd p)).
Proof. reflexivity. Qed.

Lemma apply_passes_app ps1 ps2 s :
  apply_passes (ps1 ++ ps2) s = apply_passes ps2 (apply_passes ps1 s).
Proof. apply fold_left_app. Qed.

Lemma passes_keep_absent_gen x ps :
  (forall p, In p ps -> keeps_absent x p) ->
  forall s, ~ occurs x s -> ~ occurs x (apply_passes ps s).
Proof.
  induction ps as [|p ps IH]; intros Hps s Hs; [exact Hs|].
  rewrite apply_passes_cons. apply IH.
  - intros q Hq. apply Hps. right. exact Hq.
  - apply (Hps p); [left; reflexivity | exact Hs].
Qed.

(** When every substitution removes its own text and none brings back
    the text of another, none of the replaced texts is left at the
    end. *)
Lemma passes_remove_gen ps :
  (forall p, In p ps -> removes_own p) ->
  (forall p q, In p ps -> In q ps -> keeps_absent (fst p) q) ->
  forall s p, In p ps -> ~ occurs (fst p) (apply_passes ps s).
Proof.
  induction ps as [|p0 ps IH]; intros Hown Hkeep s p Hp; [destruct Hp|].
  rewrite apply_passes_cons. destruct Hp as [-> | Hp].
  - apply passes_keep_absent_gen.
    + intros q Hq. apply Hkeep; [left; reflexivity | right; exact Hq].
    + apply (Hown p); left; reflexivity.
  - apply IH; [| |exact Hp].
    + intros q Hq. apply Hown. right. exact Hq.
    + intros q1 q2 H1 H2. apply Hkeep; right; assumption.
Qed.

(** After the substitutions of the planner, none of the replaced texts
    is left. *)
Lemma passes_remove ps :
  (forall p, In p ps -> fst p <> []) ->
  (forall p q, In p ps -> In q ps -> never_overlaps (fst p) (snd q)) ->
  forall s p, In p ps -> ~ occurs (fst p) (apply_passes ps s).
Proof.
  intros Hne Hno. apply passes_remove_gen.
  - intros p Hp s. apply pass_removes_old; [apply Hne, Hp|].
    apply Hno; assumption.
  - intros p q Hp Hq s. apply pass_keeps_absent; [apply Hne, Hq|].
    apply Hno; assumption.
Qed.

Lemma passes_fixed ps r :
  (forall p, In p ps -> ~ occurs (fst p) r) -> apply_passes ps r = r.
Proof.
  induction ps as [|p ps IH]; intros H; [reflexivity|].
  rewrite apply_passes_cons, str_replace_absent.
  - apply IH. intros q Hq. apply H. right. exact Hq.
  - apply H. left. reflexivity.
Qed.

Lemma passes_idempotent ps s :
  (forall p, In p ps -> fst p <> []) ->
  (forall p q, In p ps -> In q ps -> never_overlaps (fst p) (snd q)) ->
  apply_passes ps (apply_passes ps s) = apply_passes ps s.
Proof.
  intros Hne Hno. apply passes_fixed. intros p Hp.
  apply passes_remove; assumption.
Qed.

(** ** Substitution around a block *)

(** When no occurrence of [old] lies across the cut between [u] and
    [w], the scan of [u ++ w] is the scan of [u] followed by that of
    [w]. *)
Lemma str_replace_cut old new w :
  old <> [] ->
  forall u,
  (forall a b, u ++ w = a ++ old ++ b ->
     length a + length old <= length u \/ length u <= length a) ->
  str_replace (u ++ w) old new = str_replace u old new ++ str_replace w old new.
Proof.
  intros Hold u.
  pose proof (length_pos old Hold) as Hpos.
  assert (length u <= length u) as Hlen by lia.
  revert Hlen. generalize (length u) at 2. intros n. revert u.
  induction n as [|n IH]; intros u Hlen Hcut.
  - destruct u; [|simpl in Hlen; lia].
    rewrite str_replace_nil by exact Hold. reflexivity.
  - destruct u as [|c u].
    { rewrite str_replace_nil by exact Hold. reflexivity. }
    destruct (startswith old ((c :: u) ++ w)) eqn:E.
    + apply startswith_prefix in E as [q E].
      destruct (Hcut [] q E) as [Hfit | Hbad]; [|simpl in Hbad; lia].
      symmetry in E.
      destruct (app_eq_split old q (c :: u) w E) as [e [He Hq]];
        [simpl in Hfit; simpl; lia|].
      rewrite He. replace ((old ++ e) ++ w) with (old ++ e ++ w) by list_eq.
      rewrite !str_replace_hit by exact Hold.
      rewrite IH; [list_eq| |].
      * apply (f_equal (@length _)) in He. rewrite length_app in He.
        simpl in He, Hlen. lia.
      * intros a b Hab.
        destruct (Hcut (old ++ a) b) as [H1 | H1].
        { rewrite He, <- app_assoc, Hab. list_eq. }
        { left. rewrite He in H1. solve_len. }
        { right. rewrite He in H1. solve_len. }
    + assert (startswith old (c :: u) = false) as E'.
      { destruct (startswith old (c :: u)) eqn:E'; [|reflexivity].
        apply startswith_prefix in E' as [q E'].
        rewrite E', <- app_assoc, startswith_app in E. discriminate. }
      cbn [app] in E |- *.
      rewrite !str_replace_miss by assumption.
      rewrite IH; [reflexivity| |].
      * simpl in Hlen. lia.
      * intros a b Hab.
        destruct (Hcut (c :: a) b) as [H1 | H1].
        { cbn [app]. rewrite Hab. reflexivity. }
        { left. simpl in H1. lia. }
        { right. simpl in H1. lia. }
Qed.

(** A block that no occurrence of [old] touches stays in place. *)
Lemma str_replace_around old new u m v :
  old <> [] ->
  (forall a b, u ++ m ++ v = a ++ old ++ b ->
     length a + length old <= length u \/ length u + length m <= length a) ->
  str_replace (u ++ m ++ v) old new
  = str_replace u old new ++ m ++ str_replace v old new.
Proof.
  intros Hold Hclear.
  pose proof (length_pos old Hold) as Hpos.
  rewrite str_replace_cut; [|exact Hold|].
  - f_equal. rewrite str_replace_cut; [|exact Hold|].
    + f_equal. apply str_replace_absent. intros [a [b E]].
      destruct (Hclear (u ++ a) (b ++ v)) as [H | H].
      * rewrite E. list_eq.
      * solve_len.
      * rewrite E in H. solve_len.
    + intros a b E. right.
      destruct (Hclear (u ++ a) b) as [H | H].
      * rewrite E. list_eq.
      * solve_len.
      * solve_len.
  - intros a b E. destruct (Hclear a b E) as [H | H]; [left | right]; lia.
Qed.

(** A standalone occurrence of [old] is replaced as a whole. *)
Lemma str_replace_block old new u v :
  old <> [] -> standalone old u old v ->
  str_replace (u ++ old ++ v) old new
  = str_replace u old new ++ new ++ str_replace v old new.
Proof.
  intros Hold Hst.
  rewrite str_replace_cut; [|exact Hold|].
  - rewrite str_replace_hit by exact Hold. reflexivity.
  - intros a b E. destruct (Hst a b E) as [H | [H | [-> _]]]; lia.
Qed.

Lemma scan_first_gap old new s r :
  scan old new s r ->
  r = s \/ exists g q rest, r = g ++ new ++ q /\ s = g ++ rest.
Proof.
  intros [g Hg | g v v' _ _]; [left; reflexivity|].
  right. exists g, v', (old ++ v). auto.
Qed.

Lemma scan_last_gap old new s r :
  scan old new s r ->
  r = s \/ exists p g pre, r = p ++ new ++ g /\ s = pre ++ g.
Proof.
  induction 1 as [g Hg | g v v' _ _ IH]; [left; reflexivity|].
  right. destruct IH as [-> | [p [g' [pre [-> ->]]]]].
  - exists g, v, (g ++ old). split; list_eq.
  - exists (g ++ new ++ p), g', (g ++ old ++ pre). split; list_eq.
Qed.

(** A substitution whose new text [x] cannot overlap keeps the
    occurrences of [x] clear of a block it does not touch. *)
Lemma standalone_after_scan x old new u u' m v v' :
  never_overlaps x new ->
  scan old new u u' -> scan old new v v' ->
  standalone x u m v -> standalone x u' m v'.
Proof.
  intros Hno Hsu Hsv Hst a b E.
  destruct (le_lt_dec (length a + length x) (length u')) as [|Hax];
    [left; assumption|].
  destruct (le_lt_dec (length u' + length m) (length a)) as [|Hum];
    [right; left; assumption|].
  right; right.
  assert (exists p' g0 u0 a1,
             u' = p' ++ g0 /\ u = u0 ++ g0 /\ a = p' ++ a1
             /\ g0 ++ m ++ v' = a1 ++ x ++ b)
    as (p' & g0 & u0 & a1 & Hu' & Hu & Ha & E1).
  { destruct (scan_last_gap old new u u' Hsu)
      as [Heq | (p & g & pre & Hr & Hs)].
    - exists [], u, [], a. rewrite Heq in *. auto.
    - destruct (Hno p (g ++ m ++ v') a b) as [H | H].
      { rewrite <- E, Hr. list_eq. }
      + exfalso. rewrite Hr in Hax. solve_len.
      + destruct (occurs_in_right x a b (p ++ new) (g ++ m ++ v'))
          as [a1 [Ha He]].
        { rewrite <- E, Hr. list_eq. }
        { solve_len. }
        exists (p ++ new), g, pre, a1. repeat split; try assumption.
        rewrite Hr. list_eq. }
  assert (length a1 + length x > length g0 /\ length g0 + length m > length a1)
    as [Hax1 Hum1].
  { rewrite Hu' in Hax, Hum. rewrite Ha in Hax, Hum.
    rewrite !length_app in Hax, Hum. lia. }
  assert (exists g1 v0 b1, v = g1 ++ v0 /\ g0 ++ m ++ g1 = a1 ++ x ++ b1)
    as (g1 & v0 & b1 & Hv & E2).
  { destruct (scan_first_gap old new v v' Hsv)
      as [Heq | (g & q & rest & Hr & Hs)].
    - exists v, [], b. rewrite app_nil_r. rewrite Heq in E1. auto.
    - destruct (Hno (g0 ++ m ++ g) q a1 b) as [H | H].
      { rewrite <- E1, Hr. list_eq. }
      + destruct (app_eq_split (a1 ++ x) b (g0 ++ m ++ g) (new ++ q))
          as [e [He _]].
        { transitivity (a1 ++ x ++ b); [list_eq | rewrite <- E1, Hr; list_eq]. }
        { solve_len. }
        exists g, rest, e. split; [exact Hs | rewrite He; list_eq].
      + exfalso. rewrite !length_app in H. lia. }
  destruct (Hst (u0 ++ a1) (b1 ++ v0)) as [H | [H | [H1 H2]]].
  { rewrite Hu, Hv.
    transitivity (u0 ++ (g0 ++ m ++ g1) ++ v0); [list_eq | rewrite E2; list_eq]. }
  - exfalso. rewrite Hu, !length_app in H. lia.
  - exfalso. rewrite Hu, !length_app in H. lia.
  - split; [|exact H2]. rewrite Hu in H1. apply app_inv_head in H1.
    subst a1. rewrite Ha, Hu'. reflexivity.
Qed.

Lemma standalone_after_pass x old new u m v :
  old <> [] -> never_overlaps x new -> standalone x u m v ->
  standalone x (str_replace u old new) m (str_replace v old new).
Proof.
  intros Hold Hno. apply (standalone_after_scan x old new); try assumption;
    apply str_replace_scan, Hold.
Qed.

Lemma standalone_after_passes x m ps :
  (forall p, In p ps -> fst p <> [] /\ never_overlaps x (snd p)) ->
  forall u v, standalone x u m v ->
  standalone x (apply_passes ps u) m (apply_passes ps v).
Proof.
  induction ps as [|p ps IH]; intros Hps u v Hst; [exact Hst|].
  rewrite !apply_passes_cons. apply IH.
  - intros q Hq. apply Hps. right. exact Hq.
  - destruct (Hps p) as [Hne Hno]; [left; reflexivity|].
    apply standalone_after_pass; assumption.
Qed.

(** A standalone text other than the block is clear of it. *)
Lemma standalone_clear x u m v a b :
  standalone x u m v -> x <> m -> u ++ m ++ v = a ++ x ++ b ->
  length a + length x <= length u \/ length u + length m <= length a.
Proof.
  intros Hst Hne E. destruct (Hst a b E) as [H | [H | [_ H]]]; auto.
  congruence.
Qed.

(** Substitutions of texts that keep clear of a block leave it in
    place. *)
Lemma passes_before_block m ps :
  (forall p, In p ps -> fst p <> [] /\ fst p <> m) ->
  (forall p q, In p ps -> In q ps -> never_overlaps (fst p) (snd q)) ->
  forall u v,
  (forall p, In p ps -> standalone (fst p) u m v) ->
  apply_passes ps (u ++ m ++ v) = apply_passes ps u ++ m ++ apply_passes ps v.
Proof.
  induction ps as [|p ps IH]; intros Hne Hno u v Hst; [reflexivity|].
  rewrite !apply_passes_cons.
  destruct (Hne p) as [Hp1 Hp2]; [left; reflexivity|].
  rewrite str_replace_around; [|exact Hp1|].
  - apply IH.
    + intros q Hq. apply Hne. right. exact Hq.
    + intros q1 q2 H1 H2. apply Hno; right; assumption.
    + intros q Hq. apply standalone_after_pass; [exact Hp1| |].
      * apply Hno; [right; exact Hq | left; reflexivity].
      * apply Hst. right. exact Hq.
  - intros a b E. apply (standalone_clear (fst p) u m v a b); try assumption.
    apply Hst. left. reflexivity.
Qed.

(** Substitutions of texts that cannot overlap a block leave it in
    place. *)
Lemma passes_after_block m ps :
  (forall p, In p ps -> fst p <> [] /\ never_overlaps (fst p) m) ->
  forall u v,
  apply_passes ps (u ++ m ++ v) = apply_passes ps u ++ m ++ apply_passes ps v.
Proof.
  induction ps as [|p ps IH]; intros Hps u v; [reflexivity|].
  rewrite !apply_passes_cons.
  destruct (Hps p) as [Hp1 Hp2]; [left; reflexivity|].
  rewrite str_replace_around; [|exact Hp1|].
  - apply IH. intros q Hq. apply Hps. right. exact Hq.
  - intros a b E. apply (Hp2 u v a b E).
Qed.

(** A standalone occurrence of the text of one substitution is replaced
    by the new text of that substitution, and what stands before and
    after it is treated as if it stood alone. *)
Lemma passes_replace_standalone ps1 A nA ps2 u v :
  let ps := ps1 ++ (A, nA) :: ps2 in
  (forall p, In p ps -> fst p <> []) ->
  (forall p q, In p ps -> In q ps -> never_overlaps (fst p) (snd q)) ->
  (forall p, In p ps1 -> fst p <> A /\ standalone (fst p) u A v) ->
  standalone A u A v ->
  apply_passes ps (u ++ A ++ v) = apply_passes ps u ++ nA ++ apply_passes ps v.
Proof.
  intros ps Hne Hno H1 HA. unfold ps.
  assert (forall p, In p ps1 -> In p ps) as Hin1.
  { intros p Hp. unfold ps. apply in_or_app. left. exact Hp. }
  assert (In (A, nA) ps) as HinA.
  { unfold ps. apply in_or_app. right. left. reflexivity. }
  assert (forall p, In p ps2 -> In p ps) as Hin2.
  { intros p Hp. unfold ps. apply in_or_app. right. right. exact Hp. }
  rewrite !apply_passes_app, !apply_passes_cons. cbn [fst snd].
  rewrite (passes_before_block A ps1).
  - rewrite str_replace_block.
    + apply passes_after_block. intros p Hp. split.
      * apply Hne, Hin2, Hp.
      * apply (Hno p (A, nA)); [apply Hin2, Hp | exact HinA].
    + apply (Hne (A, nA)), HinA.
    + apply standalone_after_passes; [|exact HA].
      intros p Hp. split.
      * apply Hne, Hin1, Hp.
      * apply (Hno (A, nA) p); [exact HinA | apply Hin1, Hp].
  - intros p Hp. split; [apply Hne, Hin1, Hp | apply H1, Hp].
  - intros p q Hp Hq. apply Hno; apply Hin1; assumption.
  - intros p Hp. apply H1, Hp.
Qed.

(** ** The order of the substitutions *)

Lemma insert_longest_first_In f g l :
  In f (insert_longest_first g l) <-> f = g \/ In f l.
Proof.
  induction l as [|h l IH]; simpl.
  - intuition auto.
  - destruct (length (secret g) <? length (secret h)); simpl.
    + rewrite IH. intuition auto.
    + intuition auto.
Qed.

Lemma sorted_longest_first_In f l : In f (sorted_longest_first l) <-> In f l.
Proof.
  induction l as [|g l IH]; simpl; [reflexivity|].
  rewrite insert_longest_first_In, IH. intuition auto.
Qed.

Lemma insert_longest_first_perm g l : Permutation (insert_longest_first g l) (g :: l).
Proof.
  induction l as [|h l IH]; simpl; [reflexivity|].
  destruct (length (secret g) <? length (secret h)); [|reflexivity].
  rewrite IH. apply perm_swap.
Qed.

(** The sorted list is a rearrangement of the group. *)
Lemma sorted_longest_first_perm l : Permutation (sorted_longest_first l) l.
Proof.
  induction l as [|g l IH]; simpl; [reflexivity|].
  rewrite insert_longest_first_perm. apply perm_skip, IH.
Qed.

Lemma insert_longest_first_sorted g l :
  StronglySorted not_shorter l ->
  StronglySorted not_shorter (insert_longest_first g l).
Proof.
  induction 1 as [|h l Hl IH Hh]; simpl.
  - constructor; constructor.
  - destruct (length (secret g) <? length (secret h)) eqn:E.
    + apply Nat.ltb_lt in E. constructor; [exact IH|].
      apply List.Forall_forall. intros x Hx.
      apply insert_longest_first_In in Hx as [-> | Hx].
      * unfold not_shorter. lia.
      * rewrite List.Forall_forall in Hh. apply Hh, Hx.
    + apply Nat.ltb_ge in E. constructor.
      * constructor; assumption.
      * constructor; [exact E|]. apply List.Forall_forall. intros x Hx.
        rewrite List.Forall_forall in Hh. specialize (Hh x Hx).
        unfold not_shorter in *. lia.
Qed.

(** Longest first. *)
Lemma sorted_longest_first_sorted l :
  StronglySorted not_shorter (sorted_longest_first l).
Proof.
  induction l as [|g l IH]; simpl; [constructor|].
  apply insert_longest_first_sorted, IH.
Qed.

Lemma strongly_sorted_before (l1 : list Finding) g l2 :
  StronglySorted not_shorter (l1 ++ g :: l2) ->
  forall h, In h l1 -> length (secret g) <= length (secret h).
Proof.
  induction l1 as [|h0 l1 IH]; intros Hs h Hh; [destruct Hh|].
  cbn [app] in Hs. apply StronglySorted_inv in Hs as [Hs Hall].
  destruct Hh as [-> | Hh].
  - rewrite List.Forall_forall in Hall. apply (Hall g).
    apply in_or_app. right. left. reflexivity.
  - apply IH; assumption.
Qed.

(** The sort is stable: findings with secrets of one length keep their
    order. *)
Lemma insert_longest_first_filter n g l :
  List.filter (fun f => length (secret f) =? n) (insert_longest_first g l)
  = List.filter (fun f => length (secret f) =? n) (g :: l).
Proof.
  induction l as [|h l IH]; [reflexivity|].
  cbn [insert_longest_first].
  destruct (length (secret g) <? length (secret h)) eqn:E; [|reflexivity].
  apply Nat.ltb_lt in E. cbn [List.filter] in *. rewrite IH.
  destruct (length (secret g) =? n) eqn:Eg;
    destruct (length (secret h) =? n) eqn:Eh; try reflexivity.
  apply Nat.eqb_eq in Eg, Eh. lia.
Qed.

Lemma sorted_longest_first_stable n l :
  List.filter (fun f => length (secret f) =? n) (sorted_longest_first l)
  = List.filter (fun f => length (secret f) =? n) l.
Proof.
  induction l as [|g l IH]; [reflexivity|].
  cbn [sorted_longest_first foldr].
  rewrite insert_longest_first_filter. cbn [List.filter].
  fold (sorted_longest_first l). rewrite IH. reflexivity.
Qed.

(** A longer secret is handled before a shorter one. *)
Lemma longer_first l fA fB :
  In fA l -> In fB l -> length (secret fA) < length (secret fB) ->
  exists l1 l2 l3, sorted_longest_first l = l1 ++ fB :: l2 ++ fA :: l3.
Proof.
  intros HA HB Hlt.
  apply sorted_longest_first_In in HA, HB.
  pose proof (sorted_longest_first_sorted l) as Hs.
  destruct (in_split _ _ HB) as [l1 [r Hr]]. rewrite Hr in *.
  apply in_app_or in HA as [HA | [-> | HA]].
  - pose proof (strongly_sorted_before l1 fB r Hs fA HA). lia.
  - lia.
  - destruct (in_split _ _ HA) as [l2 [l3 ->]]. exists l1, l2, l3. reflexivity.
Qed.

(** The first finding of a list with a given secret. *)
Lemma first_with_secret (l : list Finding) f :
  In f l ->
  exists l1 g l2, l = l1 ++ g :: l2 /\ secret g = secret f
    /\ forall h, In h l1 -> secret h <> secret f.
Proof.
  induction l as [|h l IH]; intros Hf; [destruct Hf|].
  destruct (text_eqb (secret h) (secret f)) eqn:E.
  - apply text_eqb_eq in E. exists [], h, l. repeat split; [exact E|].
    intros ? [].
  - apply text_eqb_neq in E. destruct Hf as [-> | Hf]; [congruence|].
    destruct (IH Hf) as (l1 & g & l2 & -> & Hg & Hl1).
    exists (h :: l1), g, l2. repeat split; [exact Hg|].
    intros x [-> | Hx]; [exact E | apply Hl1, Hx].
Qed.

(** ** The substitution loop of the planner *)

Lemma redact_passes placeholder file_findings original :
  redact placeholder file_findings original
  = apply_passes (plan_passes placeholder file_findings) original.
Proof.
  unfold redact, apply_passes, plan_passes.
  generalize (sorted_longest_first file_findings) original.
  induction l as [|f l IH]; intros o; [reflexivity|]. apply IH.
Qed.

Lemma plan_passes_In placeholder file_findings p :
  In p (plan_passes placeholder file_findings) <->
  exists f, In f file_findings /\ p = (secret f, replacement_for placeholder f).
Proof.
  unfold plan_passes. rewrite in_map_iff. split.
  - intros [f [<- Hf]]. exists f. split; [|reflexivity].
    apply sorted_longest_first_In, Hf.
  - intros [f [Hf ->]]. exists f. split; [reflexivity|].
    apply sorted_longest_first_In, Hf.
Qed.

Lemma replacement_for_secret placeholder f g :
  secret f = secret g ->
  replacement_for placeholder f = replacement_for placeholder g.
Proof. unfold replacement_for. intros ->. reflexivity. Qed.

Lemma plan_passes_nonempty placeholder file_findings p :
  secrets_nonempty file_findings ->
  In p (plan_passes placeholder file_findings) -> fst p <> [].
Proof.
  intros Hne Hp. apply plan_passes_In in Hp as [f [Hf ->]]. apply Hne, Hf.
Qed.

Lemma plan_passes_clear placeholder file_findings p q :
  replacements_clear placeholder file_findings ->
  In p (plan_passes placeholder file_findings) ->
  In q (plan_passes placeholder file_findings) ->
  never_overlaps (fst p) (snd q).
Proof.
  intros Hc Hp Hq.
  apply plan_passes_In in Hp as [f [Hf ->]].
  apply plan_passes_In in Hq as [g [Hg ->]].
  apply Hc; assumption.
Qed.

(** Under the two conditions, no secret of the group is left. *)
Lemma redact_removes placeholder file_findings original f :
  secrets_nonempty file_findings ->
  replacements_clear placeholder file_findings ->
  In f file_findings ->
  ~ occurs (secret f) (redact placeholder file_findings original).
Proof.
  intros Hne Hc Hf. rewrite redact_passes.
  apply (passes_remove (plan_passes placeholder file_findings))
    with (p := (secret f, replacement_for placeholder f)).
  - intros p. apply plan_passes_nonempty, Hne.
  - intros p q. apply plan_passes_clear, Hc.
  - apply plan_passes_In. exists f. auto.
Qed.

Lemma redact_idempotent placeholder file_findings original :
  secrets_nonempty file_findings ->
  replacements_clear placeholder file_findings ->
  redact placeholder file_findings
    (redact placeholder file_findings original)
  = redact placeholder file_findings original.
Proof.
  intros Hne Hc. rewrite !redact_passes. apply passes_idempotent.
  - intros p. apply plan_passes_nonempty, Hne.
  - intros p q. apply plan_passes_clear, Hc.
Qed.

(** A file in which no secret of the group occurs is left as it is. *)
Lemma redact_absent placeholder file_findings original :
  (forall f, In f file_findings -> ~ occurs (secret f) original) ->
  redact placeholder file_findings original = original.
Proof.
  intros H. rewrite redact_passes. apply passes_fixed.
  intros p Hp. apply plan_passes_In in Hp as [f [Hf ->]]. apply H, Hf.
Qed.

(** A standalone occurrence of a secret gets the replacement text of
    that secret. *)
Lemma redact_standalone placeholder file_findings fA u v :
  secrets_nonempty file_findings ->
  replacements_clear placeholder file_findings ->
  In fA file_findings ->
  (forall f, In f file_findings ->
     length (secret fA) <= length (secret f) ->
     standalone (secret f) u (secret fA) v) ->
  redact placeholder file_findings (u ++ secret fA ++ v)
  = redact placeholder file_findings u
      ++ replacement_for placeholder fA
      ++ redact placeholder file_findings v.
Proof.
  intros Hne Hc HA Hst. rewrite !redact_passes.
  pose proof (plan_passes_nonempty placeholder file_findings) as Hpn.
  pose proof (plan_passes_clear placeholder file_findings) as Hpc.
  unfold plan_passes in *.
  pose proof (sorted_longest_first_sorted file_findings) as Hs.
  assert (In fA (sorted_longest_first file_findings)) as HA'
    by (apply sorted_longest_first_In, HA).
  destruct (first_with_secret _ fA HA') as (l1 & g & l2 & Hl & Hg & Hl1).
  rewrite Hl in *.
  assert (map (fun f => (secret f, replacement_for placeholder f))
            (l1 ++ g :: l2)
          = map (fun f => (secret f, replacement_for placeholder f)) l1
              ++ (secret fA, replacement_for placeholder fA)
              :: map (fun f => (secret f, replacement_for placeholder f)) l2)
    as Hmap.
  { rewrite map_app. cbn [map].
    rewrite Hg, (replacement_for_secret placeholder g fA Hg). reflexivity. }
  rewrite Hmap in *.
  apply passes_replace_standalone.
  - intros p Hp. apply Hpn; assumption.
  - intros p q Hp Hq. apply Hpc; assumption.
  - intros p Hp. apply in_map_iff in Hp as [h [<- Hh]]. cbn [fst]. split.
    + apply Hl1, Hh.
    + apply Hst.
      * apply sorted_longest_first_In. rewrite Hl.
        apply in_or_app. left. exact Hh.
      * rewrite <- Hg. apply (strongly_sorted_before l1 g l2 Hs h Hh).
  - apply Hst; [exact HA | lia].
Qed.

(** ** Dictionaries *)

Lemma dict_get_set_eq {V : Type} (d : list (text * V)) k v :
  dict_get (dict_set d k v) k = Some v.
Proof.
  induction d as [|[k' v'] d IH]; simpl.
  - rewrite text_eqb_refl. reflexivity.
  - destruct (text_eqb k' k) eqn:E; simpl; rewrite E; [reflexivity | exact IH].
Qed.

Lemma dict_get_set_ne {V : Type} (d : list (text * V)) k v k' :
  k <> k' -> dict_get (dict_set d k v) k' = dict_get d k'.
Proof.
  intros Hne. induction d as [|[k0 v0] d IH]; simpl.
  - apply text_eqb_neq in Hne. rewrite Hne. reflexivity.
  - destruct (text_eqb k0 k) eqn:E; simpl.
    + apply text_eqb_eq in E. subst k0.
      apply text_eqb_neq in Hne. rewrite Hne. reflexivity.
    + rewrite IH. reflexivity.
Qed.

Lemma dict_set_keys {V : Type} (d : list (text * V)) k v k' :
  In k' (map fst (dict_set d k v)) <-> k' = k \/ In k' (map fst d).
Proof.
  induction d as [|[k0 v0] d IH]; simpl.
  - intuition auto.
  - destruct (text_eqb k0 k) eqn:E; simpl.
    + apply text_eqb_eq in E. subst k0. intuition auto.
    + rewrite IH. intuition auto.
Qed.

Lemma dict_set_NoDup {V : Type} (d : list (text * V)) k v :
  List.NoDup (map fst d) -> List.NoDup (map fst (dict_set d k v)).
Proof.
  induction d as [|[k0 v0] d IH]; simpl; intros Hnd.
  - constructor; [intros [] | constructor].
  - apply List.NoDup_cons_iff in Hnd as [Hk0 Hnd].
    destruct (text_eqb k0 k) eqn:E; simpl.
    + constructor; assumption.
    + constructor; [|apply IH, Hnd].
      rewrite dict_set_keys. intros [-> | H]; [|contradiction].
      rewrite text_eqb_refl in E. discriminate.
Qed.

Lemma dict_get_None {V : Type} (d : list (text * V)) k :
  ~ In k (map fst d) -> dict_get d k = None.
Proof.
  induction d as [|[k0 v0] d IH]; simpl; intros H; [reflexivity|].
  destruct (text_eqb k0 k) eqn:E.
  - apply text_eqb_eq in E. exfalso. apply H. left. exact E.
  - apply IH. intros Hin. apply H. right. exact Hin.
Qed.

Lemma dict_get_In {V : Type} (d : list (text * V)) k v :
  dict_get d k = Some v -> In (k, v) d.
Proof.
  induction d as [|[k0 v0] d IH]; simpl; intros H; [discriminate|].
  destruct (text_eqb k0 k) eqn:E.
  - apply text_eqb_eq in E. injection H as ->. subst k0. left. reflexivity.
  - right. apply IH, H.
Qed.

Lemma dict_In_get {V : Type} (d : list (text * V)) k v :
  List.NoDup (map fst d) -> In (k, v) d -> dict_get d k = Some v.
Proof.
  induction d as [|[k0 v0] d IH]; simpl; intros Hnd H; [destruct H|].
  apply List.NoDup_cons_iff in Hnd as [Hk0 Hnd].
  destruct H as [[= -> ->] | H].
  - rewrite text_eqb_refl. reflexivity.
  - destruct (text_eqb k0 k) eqn:E.
    + apply text_eqb_eq in E. subst k0. exfalso. apply Hk0.
      apply in_map_iff. exists (k, v). auto.
    + apply IH; assumption.
Qed.

(** ** Grouping by file *)

Lemma group_fold_get findings : forall acc path,
  dict_get (fold_left group_add findings acc) path
  = merge_group (dict_get acc path) (group_of findings path).
Proof.
  induction findings as [|f findings IH]; intros acc path.
  - cbn [fold_left group_of List.filter].
    destruct (dict_get acc path); cbn [merge_group]; rewrite ?app_nil_r;
      reflexivity.
  - cbn [fold_left]. rewrite IH. unfold group_add.
    cbn [group_of List.filter].
    destruct (text_eqb (file_path f) path) eqn:E.
    + apply text_eqb_eq in E. subst path. rewrite dict_get_set_eq.
      destruct (dict_get acc (file_path f)); cbn [default merge_group app].
      * rewrite <- app_assoc. reflexivity.
      * reflexivity.
    + apply text_eqb_neq in E. rewrite dict_get_set_ne by exact E.
      reflexivity.
Qed.

(** The group of a path is the list of the findings that name it, in
    their order; a path that no finding names has no group. *)
Lemma group_by_file_get findings path :
  dict_get (_group_by_file findings) path
  = match group_of findings path with
    | [] => None
    | g => Some g
    end.
Proof.
  unfold _group_by_file. rewrite group_fold_get. simpl.
  destruct (group_of findings path); reflexivity.
Qed.

Lemma group_fold_NoDup findings : forall acc,
  List.NoDup (map fst acc) ->
  List.NoDup (map fst (fold_left group_add findings acc)).
Proof.
  induction findings as [|f findings IH]; intros acc Hnd; [exact Hnd|].
  cbn [fold_left]. apply IH. apply dict_set_NoDup, Hnd.
Qed.

Lemma group_by_file_NoDup findings :
  List.NoDup (map fst (_group_by_file findings)).
Proof. apply group_fold_NoDup. constructor. Qed.

(** ** The planner *)

Lemma plan_group_get fs placeholder acc k g path :
  dict_get (fst (plan_group fs placeholder acc (k, g))) path
  = if text_eqb k path
    then match entry_for fs placeholder k g with
         | Some e => Some e
         | None => dict_get (fst acc) path
         end
    else dict_get (fst acc) path.
Proof.
  destruct acc as [results log].
  unfold plan_group, entry_for, _validate_file, read_text. cbn [fst].
  destruct (text_eqb k path) eqn:E.
  - apply text_eqb_eq in E. subst path.
    destruct (fs k) as [rd|rd|n [original| |]]; try reflexivity;
      destruct (1 <? n); try reflexivity;
      destruct (text_eqb (redact placeholder g original) original);
      cbn [negb fst]; try reflexivity; apply dict_get_set_eq.
  - apply text_eqb_neq in E.
    destruct (fs k) as [rd|rd|n [original| |]]; try reflexivity;
      destruct (1 <? n); try reflexivity;
      destruct (text_eqb (redact placeholder g original) original);
      cbn [negb fst]; try reflexivity; apply dict_get_set_ne, E.
Qed.

Lemma plan_fold_get fs placeholder path groups : forall acc,
  List.NoDup (map fst groups) ->
  (forall k, In k (map fst groups) -> dict_get (fst acc) k = None) ->
  dict_get (fst (fold_left (plan_group fs placeholder) groups acc)) path
  = match dict_get groups path with
    | Some g => entry_for fs placeholder path g
    | None => dict_get (fst acc) path
    end.
Proof.
  induction groups as [|[k g] groups IH]; intros acc Hnd Hacc; [reflexivity|].
  cbn [map fst] in Hnd. apply List.NoDup_cons_iff in Hnd as [Hk Hnd].
  cbn [fold_left]. rewrite IH; [|exact Hnd|].
  - cbn [dict_get]. rewrite plan_group_get.
    destruct (text_eqb k path) eqn:E.
    + apply text_eqb_eq in E. subst path.
      rewrite (dict_get_None groups k Hk).
      rewrite (Hacc k) by (left; reflexivity).
      destruct (entry_for fs placeholder k g); reflexivity.
    + reflexivity.
  - intros k' Hk'. rewrite plan_group_get.
    destruct (text_eqb k k') eqn:E.
    + apply text_eqb_eq in E. subst k'. contradiction.
    + apply Hacc. right. exact Hk'.
Qed.

(** What the mapping holds for a path: the entry of its group, when the
    path is named by a finding, is a readable regular file and its
    content changes. *)
Lemma generate_replacements_get fs findings placeholder path :
  dict_get (generate_replacements fs findings placeholder) path
  = match group_of findings path with
    | [] => None
    | g => entry_for fs placeholder path g
    end.
Proof.
  unfold generate_replacements, generate_replacements_log.
  rewrite plan_fold_get.
  - rewrite group_by_file_get. cbn [fst dict_get].
    destruct (group_of findings path); reflexivity.
  - apply group_by_file_NoDup.
  - reflexivity.
Qed.

Lemma plan_group_NoDup fs placeholder acc group :
  List.NoDup (map fst (fst acc)) ->
  List.NoDup (map fst (fst (plan_group fs placeholder acc group))).
Proof.
  destruct acc as [results log], group as [k g].
  unfold plan_group, _validate_file, read_text. cbn [fst]. intros Hnd.
  destruct (fs k) as [rd|rd|n [original| |]]; try exact Hnd;
    destruct (1 <? n); try exact Hnd;
    destruct (text_eqb (redact placeholder g original) original);
    cbn [negb fst]; try exact Hnd; apply dict_set_NoDup, Hnd.
Qed.

Lemma generate_replacements_NoDup fs findings placeholder :
  List.NoDup (map fst (generate_replacements fs findings placeholder)).
Proof.
  unfold generate_replacements, generate_replacements_log.
  generalize (_group_by_file findings).
  assert (List.NoDup (map fst (fst (([] : list (text * (text * text))),
                                    ([] : list log_record))))) as H
    by constructor.
  revert H.
  generalize (([] : list (text * (text * text))), ([] : list log_record)).
  intros acc H l. revert acc H.
  induction l as [|grp l IH]; intros acc H; [exact H|].
  cbn [fold_left]. apply IH, plan_group_NoDup, H.
Qed.

(** The entries of the mapping. *)
Lemma generate_replacements_In fs findings placeholder path original redacted :
  In (path, (original, redacted))
    (generate_replacements fs findings placeholder)
  <-> group_of findings path <> []
      /\ entry_for fs placeholder path (group_of findings path)
         = Some (original, redacted).
Proof.
  split.
  - intros H. apply dict_In_get in H; [|apply generate_replacements_NoDup].
    rewrite generate_replacements_get in H.
    destruct (group_of findings path); [discriminate|]. split; [congruence|].
    exact H.
  - intros [Hne He]. apply dict_get_In. rewrite generate_replacements_get.
    destruct (group_of findings path); [congruence | exact He].
Qed.

Lemma entry_for_Some fs placeholder path g original redacted :
  entry_for fs placeholder path g = Some (original, redacted) <->
  (exists n, fs path = Regular n (Content original))
  /\ redacted = redact placeholder g original
  /\ redacted <> original.
Proof.
  unfold entry_for. split.
  - destruct (fs path) as [rd|rd|n [c| |]]; try discriminate.
    destruct (text_eqb (redact placeholder g c) c) eqn:E; [discriminate|].
    intros [= <- <-]. apply text_eqb_neq in E. eauto.
  - intros [[n ->] [-> Hne]]. apply text_eqb_neq in Hne. rewrite Hne.
    reflexivity.
Qed.

(** ** The tests of the conditions are sound *)

Lemma secrets_nonemptyb_sound l :
  secrets_nonemptyb l = true -> secrets_nonempty l.
Proof.
  unfold secrets_nonemptyb. rewrite forallb_forall. intros H f Hf.
  specialize (H f Hf). apply negb_true_iff, text_eqb_neq in H. exact H.
Qed.

Lemma replacements_clearb_sound placeholder l :
  replacements_clearb placeholder l = true -> replacements_clear placeholder l.
Proof.
  unfold replacements_clearb. rewrite forallb_forall. intros H f g Hf Hg.
  specialize (H f Hf). rewrite forallb_forall in H. specialize (H g Hg).
  apply negb_true_iff in H. apply overlapsb_sound, H.
Qed.

Lemma standaloneb_sound x u m v :
  standaloneb x u m v = true -> standalone x u m v.
Proof.
  unfold standaloneb. rewrite forallb_forall. intros H a b E.
  specialize (H (length a)).
  assert (startswith x (drop (length a) (u ++ m ++ v)) = true) as Hs.
  { rewrite E, drop_app_length. apply startswith_app. }
  rewrite Hs in H. cbn [negb orb] in H.
  assert (In (length a) (seq 0 (S (length (u ++ m ++ v))))) as Hin.
  { apply in_seq. rewrite E. solve_len. }
  specialize (H Hin).
  apply orb_true_iff in H as [H | H].
  - apply orb_true_iff in H as [H | H].
    + left. apply Nat.leb_le, H.
    + right; left. apply Nat.leb_le, H.
  - right; right. apply andb_true_iff in H as [H1 H2].
    apply Nat.eqb_eq in H1. apply text_eqb_eq in H2. split; [|exact H2].
    apply (app_eq_same_length a (x ++ b) u (m ++ v)); [|exact H1].
    symmetry. exact E.
Qed.

Lemma standalone_in_groupb_sound l fA u v :
  standalone_in_groupb l fA u v = true -> standalone_in_group l fA u v.
Proof.
  unfold standalone_in_groupb. rewrite forallb_forall. intros H f Hf Hlen.
  specialize (H f Hf). apply orb_true_iff in H as [H | H].
  - apply Nat.ltb_lt in H. lia.
  - apply standaloneb_sound, H.
Qed.

Lemma occurs_proper_shorter (a b : text) :
  occurs a b -> a <> b -> length a < length b.
Proof.
  intros [p [q ->]] Hne. rewrite !length_app.
  destruct p as [|c p]; [|simpl; lia].
  destruct q as [|c q]; [|simpl; lia].
  exfalso. apply Hne. simpl. rewrite app_nil_r. reflexivity.
Qed.

(** ** The planner: entries, longest first, idempotence *)

(** A file whose content the substitutions leave unchanged has no
    entry. *)
Lemma plan_unchanged_absent fs findings placeholder path n original :
  fs path = Regular n (Content original) ->
  redact placeholder (group_of findings path) original = original ->
  dict_get (generate_replacements fs findings placeholder) path = None
  /\ forall e, ~ In (path, e) (generate_replacements fs findings placeholder).
Proof.
  intros Hfs Hsame.
  assert (dict_get (generate_replacements fs findings placeholder) path
          = None) as Hget.
  { rewrite generate_replacements_get.
    destruct (group_of findings path) eqn:Eg; [reflexivity|].
    unfold entry_for. rewrite Hfs, Hsame, text_eqb_refl. reflexivity. }
  split; [exact Hget|]. intros e He.
  apply dict_In_get in He; [|apply generate_replacements_NoDup].
  congruence.
Qed.

(** C3.  Every entry of the mapping that [generate_replacements] returns
    has an original that differs from its redacted text; a file whose
    content the substitutions leave unchanged has no entry; and the
    content is left unchanged when no secret of the group occurs in
    it. *)
Theorem plan_entries_differ fs findings placeholder :
  (forall path original redacted,
      In (path, (original, redacted))
        (generate_replacements fs findings placeholder) ->
      original <> redacted)
  /\ (forall path n original,
         fs path = Regular n (Content original) ->
         redact placeholder (group_of findings path) original = original ->
         dict_get (generate_replacements fs findings placeholder) path = None
         /\ forall e,
             ~ In (path, e) (generate_replacements fs findings placeholder))
  /\ (forall path original,
         (forall f, In f (group_of findings path) ->
                    ~ occurs (secret f) original) ->
         redact placeholder (group_of findings path) original = original).
Proof.
  split; [|split].
  - intros path original redacted H.
    apply generate_replacements_In in H as [_ H].
    apply entry_for_Some in H as [_ [_ H]]. congruence.
  - intros path n original. apply plan_unchanged_absent.
  - intros path original H. apply redact_absent, H.
Qed.

(** C1, as amended.  Let no secret of a file's group be empty and let no
    secret of the group be able to overlap a replacement text used for
    the group.  Then, for secrets A inside B of the group: B is handled
    before A when they differ; the redacted content of the entry is the
    result of the substitutions in that order; neither A nor B occurs in
    it; and an occurrence of A in the original that no occurrence of a
    secret at least as long as A overlaps is replaced by the replacement
    text of A, what stands before and after it being redacted on its
    own. *)
Theorem plan_replaces_longest_first fs findings placeholder path
    original redacted fA fB :
  In (path, (original, redacted))
    (generate_replacements fs findings placeholder) ->
  In fA (group_of findings path) -> In fB (group_of findings path) ->
  occurs (secret fA) (secret fB) ->
  secrets_nonempty (group_of findings path) ->
  replacements_clear placeholder (group_of findings path) ->
  (secret fA <> secret fB ->
   exists l1 l2 l3,
     sorted_longest_first (group_of findings path)
     = l1 ++ fB :: l2 ++ fA :: l3)
  /\ redacted = redact placeholder (group_of findings path) original
  /\ ~ occurs (secret fA) redacted
  /\ ~ occurs (secret fB) redacted
  /\ forall u v,
      original = u ++ secret fA ++ v ->
      standalone_in_group (group_of findings path) fA u v ->
      redacted
      = redact placeholder (group_of findings path) u
          ++ replacement_for placeholder fA
          ++ redact placeholder (group_of findings path) v.
Proof.
  intros Hin HA HB Hsub Hne Hclear.
  apply generate_replacements_In in Hin as [_ Hin].
  apply entry_for_Some in Hin as [_ [Hred _]].
  split; [|split; [exact Hred|split; [|split]]].
  - intros Hdiff. apply longer_first; try assumption.
    apply occurs_proper_shorter; assumption.
  - rewrite Hred. apply redact_removes; assumption.
  - rewrite Hred. apply redact_removes; assumption.
  - intros u v -> Hst. rewrite Hred. apply redact_standalone; assumption.
Qed.

(** C4, as amended.  Let no secret of a file's group be empty and let no
    secret of the group be able to overlap a replacement text used for
    the group.  Then the substitutions change the redacted content of an
    entry no further, and a second run of the planner on a file system in
    which the file holds the redacted content has no entry for the
    file. *)
Theorem plan_idempotent fs fs' findings placeholder path original redacted n :
  In (path, (original, redacted))
    (generate_replacements fs findings placeholder) ->
  secrets_nonempty (group_of findings path) ->
  replacements_clear placeholder (group_of findings path) ->
  fs' path = Regular n (Content redacted) ->
  redact placeholder (group_of findings path) redacted = redacted
  /\ dict_get (generate_replacements fs' findings placeholder) path = None
  /\ forall e, ~ In (path, e) (generate_replacements fs' findings placeholder).
Proof.
  intros Hin Hne Hclear Hfs'.
  apply generate_replacements_In in Hin as [_ Hin].
  apply entry_for_Some in Hin as [_ [Hred _]].
  assert (redact placeholder (group_of findings path) redacted = redacted)
    as Hfix.
  { rewrite Hred. apply redact_idempotent; assumption. }
  split; [exact Hfix|].
  apply (plan_unchanged_absent fs' findings placeholder path n redacted);
    assumption.
Qed.

Lemma plan_entries_differ_witness :
  nested_content <> py "a=[R] b=[R]"
  /\ dict_get
       (generate_replacements (one_file "app.env" (py "nothing here"))
          nested_findings (py "[R]"))
       (py "app.env") = None.
Proof.
  destruct (plan_entries_differ (one_file "app.env" nested_content)
              nested_findings (py "[R]")) as (H1 & _ & _).
  destruct (plan_entries_differ (one_file "app.env" (py "nothing here"))
              nested_findings (py "[R]")) as (_ & H2 & _).
  split.
  - apply (H1 (py "app.env")). vm_compute. left. reflexivity.
  - apply (H2 (py "app.env") 1 (py "nothing here")); vm_compute; reflexivity.
Defined.

(** C1 as stated fails: with the placeholder [<API_KEY>] the short
    secret [KEY] is put back by its own replacement text. *)
Lemma plan_placeholder_restores_secret :
  generate_replacements (one_file "app.env" key_content) key_findings
    key_placeholder
  = [(py "app.env", (key_content, key_redacted))]
  /\ contains (py "KEY") (py "APIKEY123") = true
  /\ contains (py "KEY") key_content = true
  /\ contains (py "APIKEY123") key_content = true
  /\ contains (py "KEY") key_redacted = true.
Proof. vm_compute. repeat split. Qed.

Lemma plan_replaces_longest_first_witness :
  ~ occurs (py "SECRET") (py "a=[R] b=[R]")
  /\ ~ occurs (py "SUPERSECRETLONG") (py "a=[R] b=[R]")
  /\ py "a=[R] b=[R]"
     = redact (py "[R]") nested_findings (py "a=SUPERSECRETLONG b=")
         ++ py "[R]" ++ redact (py "[R]") nested_findings [].
Proof.
  destruct (plan_replaces_longest_first
              (one_file "app.env" nested_content) nested_findings (py "[R]")
              (py "app.env") nested_content (py "a=[R] b=[R]")
              (finding "app.env" "SECRET" "Generic")
              (finding "app.env" "SUPERSECRETLONG" "Generic"))
    as (_ & _ & HA & HB & Hst).
  - vm_compute. left. reflexivity.
  - vm_compute. left. reflexivity.
  - vm_compute. right. left. reflexivity.
  - apply contains_occurs. vm_compute. reflexivity.
  - apply secrets_nonemptyb_sound. vm_compute. reflexivity.
  - apply replacements_clearb_sound. vm_compute. reflexivity.
  - split; [exact HA|]. split; [exact HB|].
    apply (Hst (py "a=SUPERSECRETLONG b=") []).
    + vm_compute. reflexivity.
    + apply standalone_in_groupb_sound. vm_compute. reflexivity.
Defined.

(** C4 as stated fails: with the placeholder [<API_KEY>] a second run on
    the redacted content changes it again. *)
Lemma plan_second_run_changes_more :
  generate_replacements (one_file "app.env" key_content) key_findings
    key_placeholder
  = [(py "app.env", (key_content, key_redacted))]
  /\ generate_replacements (one_file "app.env" key_redacted) key_findings
       key_placeholder
     = [(py "app.env",
         (key_redacted,
          py "token=<API_<API_<API_KEY>>> short=<API_<API_KEY>>"))].
Proof. vm_compute. split; reflexivity. Qed.

Lemma plan_idempotent_witness :
  redact (py "[R]") nested_findings (py "a=[R] b=[R]") = py "a=[R] b=[R]"
  /\ dict_get
       (generate_replacements (one_file "app.env" (py "a=[R] b=[R]"))
          nested_findings (py "[R]"))
       (py "app.env") = None.
Proof.
  destruct (plan_idempotent
              (one_file "app.env" nested_content)
              (one_file "app.env" (py "a=[R] b=[R]"))
              nested_findings (py "[R]")
              (py "app.env") nested_content (py "a=[R] b=[R]") 1)
    as (H1 & H2 & _).
  - vm_compute. left. reflexivity.
  - apply secrets_nonemptyb_sound. vm_compute. reflexivity.
  - apply replacements_clearb_sound. vm_compute. reflexivity.
  - vm_compute. reflexivity.
  - split; [exact H1 | exact H2].
Defined.

(** ** Masking *)

Lemma mask_secret_all_stars s visible :
  (len s <= visible * 2)%Z ->
  mask_secret s visible = replicate (length s) star.
Proof.
  intros H. unfold mask_secret.
  destruct (Z.leb_spec (len s) (visible * 2)) as [_ | Hgt]; [|lia].
  unfold str_mul, len. rewrite Nat2Z.id. reflexivity.
Qed.

Lemma mask_secret_ends s visible :
  (0 < visible)%Z -> (visible * 2 < len s)%Z ->
  mask_secret s visible
  = take (Z.to_nat visible) s
      ++ replicate (length s - 2 * Z.to_nat visible) star
      ++ drop (length s - Z.to_nat visible) s.
Proof.
  intros Hpos H. unfold mask_secret.
  destruct (Z.leb_spec (len s) (visible * 2)) as [Hle | _]; [lia|].
  unfold slice_to, slice_from, slice_bound, str_mul, len in *.
  destruct (Z.ltb_spec visible 0) as [Hneg | _]; [lia|].
  destruct (Z.ltb_spec (- visible) 0) as [_ | Hneg]; [|lia].
  f_equal. f_equal; f_equal; lia.
Qed.

Lemma mask_secret_short s :
  length s <= 8 ->
  mask_secret s mask_secret_default_visible = replicate (length s) star.
Proof.
  intros H. apply mask_secret_all_stars.
  unfold mask_secret_default_visible, len. lia.
Qed.

Lemma mask_secret_long s :
  8 < length s ->
  mask_secret s mask_secret_default_visible
  = take 4 s ++ replicate (length s - 8) star ++ drop (length s - 4) s.
Proof.
  intros H. unfold mask_secret_default_visible.
  rewrite mask_secret_ends by (unfold len; lia). reflexivity.
Qed.

Lemma star_run_never_overlaps x n :
  x <> [] -> 0 < n -> ~ In star x -> never_overlaps x (replicate n star).
Proof.
  intros Hx Hn Hstar. apply never_overlaps_disjoint; [exact Hx| |].
  - destruct n; [lia|]. discriminate.
  - intros c Hc. apply list_elem_of_In, elem_of_replicate_inv in Hc.
    subst c. exact Hstar.
Qed.

(** The shape of a mask: a start of the secret, a run of asterisks and
    an end of the secret, the two ends being empty for a short secret and
    four characters long otherwise. *)
Lemma mask_secret_shape s :
  s <> [] ->
  exists h n t,
    mask_secret s mask_secret_default_visible = h ++ replicate n star ++ t
    /\ 0 < n
    /\ (exists h', s = h ++ h') /\ (exists t', s = t' ++ t)
    /\ length h < length s /\ length t < length s
    /\ (length s <= 8 -> t = [])
    /\ (8 < length s -> length t = 4).
Proof.
  intros Hs. pose proof (length_pos s Hs) as Hpos.
  destruct (le_lt_dec (length s) 8) as [Hle | Hgt].
  - exists [], (length s), []. rewrite mask_secret_short by exact Hle.
    rewrite app_nil_r. repeat split; try (simpl; lia).
    + exists s. reflexivity.
    + exists s. rewrite app_nil_r. reflexivity.
  - exists (take 4 s), (length s - 8), (drop (length s - 4) s).
    rewrite mask_secret_long by exact Hgt.
    repeat split; try lia.
    + exists (drop 4 s). rewrite take_drop. reflexivity.
    + exists (take (length s - 4) s). rewrite take_drop. reflexivity.
    + rewrite length_take. lia.
    + rewrite length_drop. lia.
    + rewrite length_drop. lia.
Qed.

Lemma mask_removes_own s :
  maskable s -> removes_own (s, mask_secret s mask_secret_default_visible).
Proof.
  intros (Hs & Hstar & Hborder) txt. cbn [fst snd].
  destruct (mask_secret_shape s Hs)
    as (h & n & t & Hmask & Hn & Hh & Ht & Hhlen & Htlen & Hshort & Hlong).
  pose proof (str_replace_scan s (mask_secret s mask_secret_default_visible)
                txt Hs) as Hscan.
  rewrite Hmask in *.
  intros Hocc.
  apply (scan_removes_old s h (replicate n star) t txt _) in Hscan;
    try assumption.
  - apply Hscan. apply occurs_app_l, Hocc.
  - apply star_run_never_overlaps; assumption.
  - destruct (le_lt_dec (length s) 8) as [Hle | Hgt].
    + rewrite (Hshort Hle). apply border_free_0.
    + rewrite (Hlong Hgt). apply Hborder, Hgt.
Qed.

Lemma mask_keeps_absent x s :
  x <> [] -> ~ In star x -> s <> [] ->
  keeps_absent x (s, mask_secret s mask_secret_default_visible).
Proof.
  intros Hx Hstar Hs txt Habs Hocc. cbn [fst snd] in Hocc. apply Habs.
  destruct (mask_secret_shape s Hs)
    as (h & n & t & Hmask & Hn & Hh & Ht & _).
  pose proof (str_replace_scan s (mask_secret s mask_secret_default_visible)
                txt Hs) as Hscan.
  rewrite Hmask in *.
  apply (scan_no_new_occurrence x s h (replicate n star) t txt _)
    with (pre := []) in Hscan; try assumption.
  apply star_run_never_overlaps; assumption.
Qed.

Lemma border_freeb_sound n s : border_freeb n s = true -> border_free n s.
Proof.
  unfold border_freeb. rewrite forallb_forall. intros H k Hk.
  specialize (H k). rewrite in_seq in H.
  assert (text_eqb (take k s) (drop (length s - k) s) = false) as Hne.
  { apply negb_true_iff, H. lia. }
  apply text_eqb_neq, Hne.
Qed.

Lemma maskableb_sound s : maskableb s = true -> maskable s.
Proof.
  unfold maskableb, maskable. rewrite !andb_true_iff, orb_true_iff.
  intros [[H1 H2] H3]. split; [|split].
  - apply text_eqb_neq, negb_true_iff, H1.
  - intros Hin. apply negb_true_iff in H2.
    assert (existsb (N.eqb star) s = true) as Hex; [|congruence].
    apply existsb_exists. exists star. split; [exact Hin | apply N.eqb_refl].
  - intros Hlong. destruct H3 as [H3 | H3].
    + apply Nat.leb_le in H3. lia.
    + apply border_freeb_sound, H3.
Qed.

(** The pass of an empty secret changes nothing: its mask is empty. *)
Lemma mask_pass_empty txt :
  str_replace txt [] (mask_secret [] mask_secret_default_visible) = txt.
Proof.
  change (mask_secret [] mask_secret_default_visible) with (@nil char).
  unfold str_replace. cbn [app].
  induction txt as [|c txt IH]; [reflexivity|].
  cbn [flat_map app]. f_equal. exact IH.
Qed.

(** No pass of the masking loop brings back a secret that is not empty
    and holds no asterisk. *)
Lemma mask_pass_keeps_absent x g :
  x <> [] -> ~ In star x ->
  keeps_absent x (secret g, mask_secret (secret g) mask_secret_default_visible).
Proof.
  intros Hx Hstar. destruct (secret g) as [|c s] eqn:E.
  - intros txt Habs. cbn [fst snd]. rewrite mask_pass_empty. exact Habs.
  - apply mask_keeps_absent; [exact Hx | exact Hstar | discriminate].
Qed.

(** After the masking loop, the secret of a finding of the loop is not
    left when it is maskable, whatever the other secrets are. *)
Lemma mask_passes_remove l txt f :
  maskable (secret f) ->
  In f l -> ~ occurs (secret f) (apply_passes (mask_passes l) txt).
Proof.
  intros Hm Hf. destruct (in_split _ _ Hf) as (l1 & l2 & ->).
  unfold mask_passes. rewrite map_app, apply_passes_app. cbn [map].
  rewrite apply_passes_cons. cbn [fst snd].
  apply passes_keep_absent_gen.
  - intros p Hp. apply in_map_iff in Hp as [g [<- _]].
    destruct Hm as (H1 & H2 & _). apply mask_pass_keeps_absent; assumption.
  - apply (mask_removes_own (secret f) Hm).
Qed.

Lemma mask_fold l : forall o r,
  fold_left mask_step l (o, r)
  = (apply_passes (mask_passes l) o, apply_passes (mask_passes l) r).
Proof.
  induction l as [|f l IH]; intros o r; [reflexivity|].
  cbn [fold_left]. unfold mask_step at 2. cbn [fst snd]. rewrite IH.
  reflexivity.
Qed.

Lemma findings_of_file_In findings path f :
  In f (findings_of_file findings path) <->
  In f findings /\ file_path f = path.
Proof.
  unfold findings_of_file.
  rewrite sorted_longest_first_In, filter_In, text_eqb_eq. reflexivity.
Qed.

(** The order of the masking loop for a file: a stable sort, longest
    first, of the findings that name the file. *)
Lemma findings_of_file_order findings path :
  Permutation (findings_of_file findings path) (group_of findings path)
  /\ StronglySorted not_shorter (findings_of_file findings path)
  /\ forall n,
      List.filter (fun f => length (secret f) =? n)
        (findings_of_file findings path)
      = List.filter (fun f => length (secret f) =? n)
          (group_of findings path).
Proof.
  unfold findings_of_file, group_of.
  split; [apply sorted_longest_first_perm|].
  split; [apply sorted_longest_first_sorted|].
  intros n. apply sorted_longest_first_stable.
Qed.

(** The two displayed texts are the texts after the substitutions of
    the masking loop, one for each finding of the file, in that order. *)
Lemma displayed_masks findings path original redacted :
  findings <> [] ->
  displayed (Some findings) path original redacted
  = (fold_left
       (fun t f =>
          str_replace t (secret f)
            (mask_secret (secret f) mask_secret_default_visible))
       (findings_of_file findings path) original,
     fold_left
       (fun t f =>
          str_replace t (secret f)
            (mask_secret (secret f) mask_secret_default_visible))
       (findings_of_file findings path) redacted).
Proof.
  intros Hne. destruct findings as [|f0 fs]; [congruence|].
  unfold displayed.
  generalize (findings_of_file (f0 :: fs) path). intros l.
  revert original redacted.
  induction l as [|f l IH]; intros o r; [reflexivity|].
  cbn [fold_left]. unfold mask_step at 2. cbn [fst snd]. apply IH.
Qed.

(** The displayed texts of an entry hold no maskable secret of a finding
    of its file. *)
Lemma displayed_hides findings path original redacted f :
  findings <> [] ->
  In f findings -> file_path f = path -> maskable (secret f) ->
  ~ occurs (secret f) (fst (displayed (Some findings) path original redacted))
  /\ ~ occurs (secret f)
         (snd (displayed (Some findings) path original redacted)).
Proof.
  intros Hne Hf Hpath Hm.
  destruct findings as [|f0 fs]; [congruence|].
  unfold displayed. rewrite mask_fold. cbn [fst snd].
  split; apply mask_passes_remove;
    try exact Hm; apply findings_of_file_In; auto.
Qed.

(** ** The diff renderer *)

Lemma text_compare_eq a b : text_compare a b = Eq <-> a = b.
Proof.
  revert b; induction a as [|x a IH]; intros [|y b]; simpl; try easy.
  destruct (N.compare_spec x y) as [-> | H | H].
  - rewrite IH. split; [intros ->; reflexivity | intros [= ->]; reflexivity].
  - split; [discriminate | intros [= -> _]; lia].
  - split; [discriminate | intros [= -> _]; lia].
Qed.

(** Items with different keys are ordered by their keys. *)
Lemma item_ltb_keys (x y x' y' : text * (text * text)) :
  fst x = fst x' -> fst y = fst y' -> fst x <> fst y ->
  item_ltb x y = item_ltb x' y'.
Proof.
  intros Hx Hy Hne. unfold item_ltb, item_compare. rewrite <- Hx, <- Hy.
  destruct (text_compare (fst x) (fst y)) eqn:E; try reflexivity.
  apply text_compare_eq in E. contradiction.
Qed.

Lemma insert_item_In x y l : In y (insert_item x l) <-> y = x \/ In y l.
Proof.
  induction l as [|z l IH]; simpl.
  - intuition auto.
  - destruct (item_ltb z x); simpl; [rewrite IH|]; intuition auto.
Qed.

Lemma sorted_items_In y l : In y (sorted_items l) <-> In y l.
Proof.
  induction l as [|x l IH]; simpl; [reflexivity|].
  rewrite insert_item_In, IH. intuition auto.
Qed.

Lemma insert_item_map (g : text * (text * text) -> text * (text * text)) x l :
  (forall z, fst (g z) = fst z) ->
  (forall y, In y l -> fst y <> fst x) ->
  insert_item (g x) (map g l) = map g (insert_item x l).
Proof.
  intros Hg. induction l as [|y l IH]; intros Hne; [reflexivity|].
  cbn [map insert_item].
  rewrite (item_ltb_keys (g y) (g x) y x); try apply Hg.
  - destruct (item_ltb y x); [|reflexivity]. cbn [map]. f_equal.
    apply IH. intros z Hz. apply Hne. right. exact Hz.
  - rewrite !Hg. apply Hne. left. reflexivity.
Qed.

(** Sorting the items commutes with a change of their texts, the keys
    of a mapping being distinct. *)
Lemma sorted_items_map (g : text * (text * text) -> text * (text * text)) l :
  (forall z, fst (g z) = fst z) ->
  List.NoDup (map fst l) ->
  sorted_items (map g l) = map g (sorted_items l).
Proof.
  intros Hg. induction l as [|x l IH]; intros Hnd; [reflexivity|].
  cbn [map] in Hnd. apply List.NoDup_cons_iff in Hnd as [Hx Hnd].
  change (sorted_items (map g (x :: l)))
    with (insert_item (g x) (sorted_items (map g l))).
  change (sorted_items (x :: l)) with (insert_item x (sorted_items l)).
  rewrite IH by exact Hnd.
  apply insert_item_map; [exact Hg|].
  intros y Hy Heq. apply Hx. apply (proj1 (sorted_items_In y l)) in Hy.
  apply in_map_iff. exists y. auto.
Qed.

Lemma diff_part_masked unified_diff splitlines findings item :
  diff_part unified_diff splitlines (Some findings) item
  = diff_part unified_diff splitlines None (mask_item findings item).
Proof.
  destruct item as [path [original redacted]].
  unfold diff_part, mask_item. cbn [fst snd].
  destruct (displayed (Some findings) path original redacted) as [d_o d_r].
  reflexivity.
Qed.

(** C2, as amended.  For a non-empty findings list and a mapping, whose
    keys are distinct, the diff text is the one rendered without findings
    from the mapping in which each entry holds its two displayed texts.
    The displayed texts of an entry are its two texts after one
    substitution for each finding that names the entry's own file, the
    secret being replaced by its masked form; the substitutions are made
    longest secret first, findings with secrets of one length in the order
    of the list.  A displayed text holds no secret of a finding of its own
    file, when that secret is not empty, holds no asterisk and, if longer
    than eight characters, does not start with an end of its last four
    characters. *)
Theorem generate_diffs_masks_file_secrets
    (unified_diff : list text -> list text -> text -> text -> list text)
    (splitlines : text -> list text)
    (replacements : list (text * (text * text)))
    (findings : list Finding) :
  findings <> [] ->
  List.NoDup (map fst replacements) ->
  generate_diffs unified_diff splitlines replacements (Some findings)
  = generate_diffs unified_diff splitlines
      (masked_items findings replacements) None
  /\ (forall path, exists file_findings,
         Permutation file_findings (group_of findings path)
         /\ StronglySorted not_shorter file_findings
         /\ (forall n,
               List.filter (fun f => length (secret f) =? n) file_findings
               = List.filter (fun f => length (secret f) =? n)
                   (group_of findings path))
         /\ forall original redacted,
             mask_item findings (path, (original, redacted))
             = (path,
                (fold_left
                   (fun t f =>
                      str_replace t (secret f)
                        (mask_secret (secret f) mask_secret_default_visible))
                   file_findings original,
                 fold_left
                   (fun t f =>
                      str_replace t (secret f)
                        (mask_secret (secret f) mask_secret_default_visible))
                   file_findings redacted)))
  /\ forall path display_original display_redacted f,
      In (path, (display_original, display_redacted))
        (masked_items findings replacements) ->
      In f findings -> file_path f = path ->
      maskable (secret f) ->
      ~ occurs (secret f) display_original
      /\ ~ occurs (secret f) display_redacted.
Proof.
  intros Hne Hnd. split; [|split].
  - unfold generate_diffs, masked_items. rewrite sorted_items_map.
    + rewrite map_map. f_equal. apply map_ext. intros item.
      apply diff_part_masked.
    + intros z. reflexivity.
    + exact Hnd.
  - intros path. exists (findings_of_file findings path).
    destruct (findings_of_file_order findings path) as (H1 & H2 & H3).
    split; [exact H1|]. split; [exact H2|]. split; [exact H3|].
    intros original redacted. unfold mask_item. cbn [fst snd].
    rewrite displayed_masks by exact Hne. reflexivity.
  - intros path d_o d_r f Hin Hf Hpath Hm.
    apply in_map_iff in Hin as [[p [o r]] [Heq _]].
    assert (p = path
            /\ displayed (Some findings) p o r = (d_o, d_r)) as [-> Hd].
    { unfold mask_item in Heq. injection Heq. auto. }
    pose proof (displayed_hides findings path o r f Hne Hf Hpath Hm) as H.
    rewrite Hd in H. exact H.
Qed.

(** C2 as stated fails: the secret of a finding of another file stays
    in the displayed texts, from which the diff is made. *)
Lemma diff_shows_secret_of_other_file :
  generate_replacements cross_fs cross_findings [] = cross_replacements
  /\ displayed (Some cross_findings) (py "b.txt")
       (py "key=API-KEY-0123456789 pw=hunter2hunter2" ++ newline)
       (py "key=****************** pw=hunter2hunter2" ++ newline)
     = (py "key=API-**********6789 pw=hunter2hunter2" ++ newline,
        py "key=****************** pw=hunter2hunter2" ++ newline)
  /\ contains (py "hunter2hunter2")
       (py "key=API-**********6789 pw=hunter2hunter2" ++ newline) = true
  /\ contains (py "hunter2hunter2")
       (py "key=****************** pw=hunter2hunter2" ++ newline) = true
  /\ forall unified_diff splitlines,
      generate_diffs unified_diff splitlines cross_replacements
        (Some cross_findings)
      = concat (unified_diff
                  (splitlines (py "pw=hunt******ter2" ++ newline))
                  (splitlines (py "pw=**************" ++ newline))
                  (py "a.txt") (py "a.txt"))
          ++ newline
          ++ concat (unified_diff
                       (splitlines
                          (py "key=API-**********6789 pw=hunter2hunter2"
                             ++ newline))
                       (splitlines
                          (py "key=****************** pw=hunter2hunter2"
                             ++ newline))
                       (py "b.txt") (py "b.txt")).
Proof.
  split; [vm_compute; reflexivity|].
  split; [vm_compute; reflexivity|].
  split; [vm_compute; reflexivity|].
  split; [vm_compute; reflexivity|].
  intros unified_diff splitlines. reflexivity.
Qed.

(** The nested secrets of one file: the longer one is masked first, so
    that its mask shows its own first and last four characters. *)
Lemma generate_diffs_masks_file_secrets_witness :
  masked_items nested_findings nested_replacements
  = [(py "app.env",
      (py "a=SUPE*******LONG b=******", py "a=*************** b=******"))]
  /\ (~ occurs (py "SUPERSECRETLONG") (py "a=SUPE*******LONG b=******")
      /\ ~ occurs (py "SUPERSECRETLONG") (py "a=*************** b=******"))
  /\ (~ occurs (py "SECRET") (py "a=SUPE*******LONG b=******")
      /\ ~ occurs (py "SECRET") (py "a=*************** b=******"))
  /\ exists file_findings,
      file_findings
      = [finding "app.env" "SUPERSECRETLONG" "Generic";
         finding "app.env" "SECRET" "Generic"]
      /\ mask_item nested_findings
           (py "app.env", (nested_content, py "a=*************** b=******"))
         = (py "app.env",
            (fold_left
               (fun t f =>
                  str_replace t (secret f)
                    (mask_secret (secret f) mask_secret_default_visible))
               file_findings nested_content,
             fold_left
               (fun t f =>
                  str_replace t (secret f)
                    (mask_secret (secret f) mask_secret_default_visible))
               file_findings (py "a=*************** b=******"))).
Proof.
  destruct (generate_diffs_masks_file_secrets
              (fun a b _ _ => a ++ b) (fun t => [t])
              nested_replacements nested_findings)
    as (_ & Horder & Hhide).
  - discriminate.
  - vm_compute. constructor; [intros [] | constructor].
  - split; [vm_compute; reflexivity|].
    split; [|split].
    + apply (Hhide (py "app.env") _ _
               (finding "app.env" "SUPERSECRETLONG" "Generic")).
      * vm_compute. left. reflexivity.
      * right. left. reflexivity.
      * reflexivity.
      * apply maskableb_sound. vm_compute. reflexivity.
    + apply (Hhide (py "app.env") _ _ (finding "app.env" "SECRET" "Generic")).
      * vm_compute. left. reflexivity.
      * left. reflexivity.
      * reflexivity.
      * apply maskableb_sound. vm_compute. reflexivity.
    + destruct (Horder (py "app.env")) as (ff & Hperm & Hsorted & _ & Heq).
      exists ff. split; [|apply Heq].
      change (group_of nested_findings (py "app.env")) with nested_findings
        in Hperm.
      symmetry in Hperm. apply Permutation_length_2_inv in Hperm as [-> | ->];
        [|reflexivity].
      exfalso. apply StronglySorted_inv in Hsorted as [_ Hall].
      apply List.Forall_inv in Hall. vm_compute in Hall. lia.
Defined.

(** ** The committer *)

Lemma count_events_app p a b :
  count_events p (a ++ b) = (count_events p a + count_events p b)%Z.
Proof.
  unfold count_events, len. rewrite List.filter_app, length_app. lia.
Qed.

Lemma attempts_app a b : attempts (a ++ b) = attempts a ++ attempts b.
Proof. unfold attempts. apply flat_map_app. Qed.

(** The steps between the making of the temporary file and its rename
    are no renames, no warnings and no attempts. *)
Lemma steps_counts evs :
  forallb is_step evs = true ->
  renames evs = 0%Z /\ warnings evs = 0%Z /\ attempts evs = [].
Proof.
  induction evs as [|ev evs IH]; [repeat split|].
  cbn [forallb]. rewrite andb_true_iff. intros [Hev Hevs].
  destruct (IH Hevs) as (H1 & H2 & H3).
  unfold renames, warnings, count_events, len, attempts in *.
  destruct ev; try discriminate; cbn [List.filter is_renamed is_warning flat_map app];
    auto.
Qed.

Lemma os_errors_onlyb_sound os : os_errors_onlyb os = true -> os_errors_only os.
Proof.
  unfold os_errors_onlyb, os_errors_only, fails_with_OSError.
  rewrite !andb_true_iff. intros [[[[[[[H1 H2] H3] H4] H5] H6] H7] H8].
  repeat split; intros e He; rewrite He in *; assumption.
Qed.

(** The inner block either ends with the rename or fails with an
    [OSError] before it. *)
Lemma write_and_rename_cases os tmp target redacted :
  utf8_encodable redacted = true -> os_errors_only os ->
  (exists evs,
      write_and_rename os tmp target redacted
      = (Return tt, evs ++ [Renamed tmp target])
      /\ forallb is_step evs = true)
  \/ (exists e evs,
         write_and_rename os tmp target redacted = (Raise e, evs)
         /\ is_OSError e = true /\ forallb is_step evs = true).
Proof.
  intros Henc (_ & Hfd & Hwr & Hst & Hcm & Hco & Hrp & _).
  unfold write_and_rename, mbind, commit_bind, bind, call. rewrite Henc.
  destruct (os_fdopen os) as [e|] eqn:E0.
  { right. exists e, []. repeat split. apply Hfd; reflexivity. }
  destruct (os_write os) as [e|] eqn:E1.
  { right. exists e, []. repeat split. apply Hwr; reflexivity. }
  destruct (os_stat os) as [e|] eqn:E2.
  { right. exists e, [Written tmp redacted]. repeat split.
    apply Hst; reflexivity. }
  destruct (os_chmod os) as [e|] eqn:E3.
  { right. exists e, [Written tmp redacted]. repeat split.
    apply Hcm; reflexivity. }
  destruct (os_chown os) as [e|] eqn:E4.
  - destruct (is_PermissionError e) eqn:Ep.
    + destruct (os_replace os) as [e'|] eqn:E5.
      * right. exists e', [Written tmp redacted; ModeCopied tmp].
        repeat split. apply Hrp; reflexivity.
      * left. exists [Written tmp redacted; ModeCopied tmp]. repeat split.
    + right. exists e, [Written tmp redacted; ModeCopied tmp].
      repeat split. apply Hco; reflexivity.
  - destruct (os_replace os) as [e'|] eqn:E5.
    + right. exists e', [Written tmp redacted; ModeCopied tmp; OwnerCopied tmp].
      repeat split. apply Hrp; reflexivity.
    + left. exists [Written tmp redacted; ModeCopied tmp; OwnerCopied tmp].
      repeat split.
Qed.

Lemma commit_entry_report os target redacted :
  utf8_encodable redacted = true -> os_errors_only os ->
  entry_report os target (commit_entry os target redacted).
Proof.
  intros Henc Hos. unfold commit_entry.
  destruct (os_mkstemp os) as [tmp | e] eqn:Emk.
  - destruct (write_and_rename_cases os tmp target redacted Henc Hos)
      as [(evs & -> & Hr) | (e & evs & -> & He & Hr)].
    + apply entry_committed; assumption.
    + unfold cleanup. destruct (os_unlink os) as [e'|] eqn:Eul.
      * destruct Hos as (_ & _ & _ & _ & _ & _ & _ & Hul).
        rewrite (Hul e' Eul).
        apply (entry_cleaned_up os target e tmp evs (UnlinkFailed tmp));
          try assumption.
        right. split; [reflexivity | congruence].
      * apply (entry_cleaned_up os target e tmp evs (Unlinked tmp));
          try assumption.
        left. split; [reflexivity | exact Eul].
  - apply entry_no_temp; [|exact Emk].
    destruct Hos as (Hmk & _). apply Hmk, Emk.
Qed.

(** What an entry adds to the trace, from the report on it. *)
Lemma entry_events_of_report os path original redacted :
  entry_report (os path) path (commit_entry (os path) path redacted) ->
  let item := (path, (original, redacted)) in
  commits os item
  = match fst (commit_entry (os path) path redacted) with
    | Return _ => true
    | Raise _ => false
    end
  /\ (forall e, fst (commit_entry (os path) path redacted) = Raise e ->
      is_OSError e = true)
  /\ renames (entry_events os item) = (if commits os item then 1 else 0)%Z
  /\ warnings (entry_events os item) = (if commits os item then 0 else 1)%Z
  /\ attempts (entry_events os item) = [path].
Proof.
  intros Hrep item.
  assert (commits os item
          = match fst (commit_entry (os path) path redacted) with
            | Return _ => true
            | Raise _ => false
            end) as Hc.
  { unfold commits, item. cbn [fst snd].
    destruct (commit_entry (os path) path redacted) as [[|] ?]; reflexivity. }
  split; [exact Hc|].
  unfold entry_events. rewrite Hc. unfold item. cbn [fst snd].
  unfold renames, warnings.
  destruct Hrep as [tmp evs Hmk Hs | e He Hmk | e tmp evs gone He Hmk Hs Hg];
    cbn [fst snd].
  - destruct (steps_counts evs Hs) as (H1 & H2 & H3).
    unfold renames, warnings in H1, H2. split; [discriminate|].
    change (Mkstemp path :: Created tmp :: evs ++ [Renamed tmp path])
      with ([Mkstemp path; Created tmp] ++ evs ++ [Renamed tmp path]).
    rewrite !count_events_app, !attempts_app, H1, H2, H3. repeat split.
  - split; [intros ? [= <-]; exact He|]. repeat split.
  - destruct (steps_counts evs Hs) as (H1 & H2 & H3).
    unfold renames, warnings in H1, H2. split; [intros ? [= <-]; exact He|].
    change (Mkstemp path :: Created tmp :: evs ++ [gone])
      with ([Mkstemp path; Created tmp] ++ evs ++ [gone]).
    rewrite !count_events_app, !attempts_app, H1, H2, H3.
    destruct Hg as [[-> _] | [-> _]]; repeat split.
Qed.

(** The loop visits every entry and counts the committed ones. *)
Lemma apply_from_all os items : forall count,
  (forall path original redacted,
      In (path, (original, redacted)) items ->
      utf8_encodable redacted = true /\ os_errors_only (os path)) ->
  apply_from os count items
  = (Return (count + len (List.filter (commits os) items))%Z,
     flat_map (entry_events os) items).
Proof.
  induction items as [|[path [original redacted]] items IH]; intros count H.
  - cbn. rewrite Z.add_0_r. reflexivity.
  - destruct (H path original redacted) as [Henc Hos]; [left; reflexivity|].
    assert (forall p o r, In (p, (o, r)) items ->
              utf8_encodable r = true /\ os_errors_only (os p)) as H'.
    { intros p o r Hin. apply (H p o r). right. exact Hin. }
    pose proof (commit_entry_report (os path) path redacted Henc Hos) as Hrep.
    destruct (entry_events_of_report os path original redacted Hrep)
      as (Hc & Hos_err & _).
    cbn [apply_from flat_map List.filter]. unfold entry_events at 1.
    rewrite Hc. cbn [fst snd].
    destruct (commit_entry (os path) path redacted) as [[[]|e] evs];
      cbn [fst snd] in *.
    + rewrite (IH (count + 1)%Z H'). rewrite app_nil_r.
      f_equal. f_equal. unfold len. cbn [length]. lia.
    + rewrite (Hos_err e eq_refl). rewrite (IH count H').
      rewrite <- app_assoc. reflexivity.
Qed.

Lemma flat_map_counts os items :
  (forall path original redacted,
      In (path, (original, redacted)) items ->
      utf8_encodable redacted = true /\ os_errors_only (os path)) ->
  renames (flat_map (entry_events os) items)
  = len (List.filter (commits os) items)
  /\ warnings (flat_map (entry_events os) items)
     = (len items - len (List.filter (commits os) items))%Z
  /\ attempts (flat_map (entry_events os) items) = map fst items.
Proof.
  induction items as [|[path [original redacted]] items IH]; intros H.
  - repeat split.
  - destruct (H path original redacted) as [Henc Hos]; [left; reflexivity|].
    destruct IH as (IH1 & IH2 & IH3).
    { intros p o r Hin. apply (H p o r). right. exact Hin. }
    pose proof (commit_entry_report (os path) path redacted Henc Hos) as Hrep.
    destruct (entry_events_of_report os path original redacted Hrep)
      as (_ & _ & H1 & H2 & H3).
    cbn [flat_map List.filter map fst].
    unfold renames, warnings in *.
    rewrite !count_events_app, attempts_app, H1, H2, H3, IH1, IH2, IH3.
    destruct (commits os (path, (original, redacted)));
      unfold len; cbn [length]; repeat split; lia.
Qed.

(** C5, as amended.  When every redacted text can be encoded as UTF-8
    and every failure of a call of the operating system is an [OSError],
    [apply_redactions] returns the number of the entries whose rename was
    done; its events are those of the entries one after the other, each
    entry attempted once in the order of the mapping, a failed entry
    followed by one warning; and the work on an entry ends with its rename,
    or without a temporary file, or with the attempt to unlink the
    temporary file, which deletes it unless the unlink fails too. *)
Theorem apply_redactions_isolates_os_failures os replacements :
  (forall path original redacted,
      In (path, (original, redacted)) replacements ->
      utf8_encodable redacted = true /\ os_errors_only (os path)) ->
  apply_redactions os replacements
  = (Return (len (List.filter (commits os) replacements)),
     flat_map (entry_events os) replacements)
  /\ renames (flat_map (entry_events os) replacements)
     = len (List.filter (commits os) replacements)
  /\ warnings (flat_map (entry_events os) replacements)
     = (len replacements - len (List.filter (commits os) replacements))%Z
  /\ attempts (flat_map (entry_events os) replacements)
     = map fst replacements
  /\ forall path original redacted,
      In (path, (original, redacted)) replacements ->
      entry_report (os path) path (commit_entry (os path) path redacted).
Proof.
  intros H. split; [|split; [|split; [|split]]].
  - unfold apply_redactions. rewrite apply_from_all by exact H. reflexivity.
  - apply flat_map_counts, H.
  - apply flat_map_counts, H.
  - apply flat_map_counts, H.
  - intros path original redacted Hin.
    destruct (H path original redacted Hin) as [Henc Hos].
    apply commit_entry_report; assumption.
Qed.

(** C5 as stated fails: a redacted text that cannot be encoded raises
    [UnicodeEncodeError]; the temporary file is unlinked, but no warning
    is logged, the second entry is not attempted and no count is
    returned. *)
Lemma apply_redactions_stops_at_encoding_error :
  apply_redactions os_success surrogate_replacements
  = (Raise UnicodeEncodeError,
     [Mkstemp (py "a.txt"); Created (py "a.txt.tmp");
      Unlinked (py "a.txt.tmp")]).
Proof. vm_compute. reflexivity. Qed.

Lemma apply_redactions_isolates_os_failures_witness :
  apply_redactions os_second_write_fails three_replacements
  = (Return 2%Z,
     [Mkstemp (py "a.txt"); Created (py "a.txt.tmp");
      Written (py "a.txt.tmp") (py "[R1]"); ModeCopied (py "a.txt.tmp");
      Renamed (py "a.txt.tmp") (py "a.txt");
      Mkstemp (py "b.txt"); Created (py "b.txt.tmp");
      Unlinked (py "b.txt.tmp"); Warning (CannotWrite (py "b.txt"));
      Mkstemp (py "c.txt"); Created (py "c.txt.tmp");
      Written (py "c.txt.tmp") (py "[R3]"); ModeCopied (py "c.txt.tmp");
      Renamed (py "c.txt.tmp") (py "c.txt")]).
Proof.
  destruct (apply_redactions_isolates_os_failures
              os_second_write_fails three_replacements) as [H _].
  - intros path original redacted Hin. split.
    + destruct Hin as [[= <- <- <-] | [[= <- <- <-] | [[= <- <- <-] | []]]];
        vm_compute; reflexivity.
    + apply os_errors_onlyb_sound.
      destruct Hin as [[= <- <- <-] | [[= <- <- <-] | [[= <- <- <-] | []]]];
        vm_compute; reflexivity.
  - exact H.
Defined.

(** ** The masking function *)

(** C6.  For a positive [visible], [mask_secret] gives as many
    asterisks as the secret has characters when the secret is at most
    [visible * 2] long, and otherwise the first [visible] characters, then
    [len(secret) - visible * 2] asterisks, then the last [visible]
    characters.  With [visible = 4], a secret of 16 characters keeps its
    first four and last four characters around eight asterisks, one of
    eight characters gives eight asterisks and one of one character a
    single asterisk. *)
Theorem mask_secret_spec (secret : text) (visible : Z) :
  (0 < visible)%Z ->
  ((len secret <= visible * 2)%Z ->
   mask_secret secret visible = replicate (length secret) star)
  /\ ((visible * 2 < len secret)%Z ->
      mask_secret secret visible
      = take (Z.to_nat visible) secret
          ++ replicate (length secret - 2 * Z.to_nat visible) star
          ++ drop (length secret - Z.to_nat visible) secret)
  /\ (visible = 4%Z -> length secret = 16 ->
      mask_secret secret visible
      = take 4 secret ++ replicate 8 star ++ drop 12 secret)
  /\ (visible = 4%Z -> length secret = 8 ->
      mask_secret secret visible = replicate 8 star)
  /\ (visible = 4%Z -> length secret = 1 ->
      mask_secret secret visible = [star]).
Proof.
  intros Hpos. split; [|split; [|split; [|split]]].
  - apply mask_secret_all_stars.
  - apply mask_secret_ends, Hpos.
  - intros -> Hlen. rewrite mask_secret_ends by (unfold len; lia).
    rewrite Hlen. reflexivity.
  - intros -> Hlen. rewrite mask_secret_all_stars by (unfold len; lia).
    rewrite Hlen. reflexivity.
  - intros -> Hlen. rewrite mask_secret_all_stars by (unfold len; lia).
    rewrite Hlen. reflexivity.
Qed.

Lemma mask_secret_spec_witness :
  mask_secret (py "ABCDEFGHIJKLMNOP") 4 = py "ABCD********MNOP"
  /\ mask_secret (py "ABCDEFGH") 4 = py "********"
  /\ mask_secret (py "A") 4 = py "*".
Proof.
  split; [|split].
  - destruct (mask_secret_spec (py "ABCDEFGHIJKLMNOP") 4) as (_ & _ & H & _);
      [lia|]. apply H; reflexivity.
  - destruct (mask_secret_spec (py "ABCDEFGH") 4) as (_ & _ & _ & H & _);
      [lia|]. apply H; reflexivity.
  - destruct (mask_secret_spec (py "A") 4) as (_ & _ & _ & _ & H);
      [lia|]. apply H; reflexivity.
Defined.

(** ** The key handler *)

Lemma all_selected_replicate (selected : list bool) :
  Forall (fun b => b = true) selected ->
  selected = replicate (length selected) true
  /\ forallb (fun b : bool => b) selected = true.
Proof.
  induction 1 as [|b l Hb Hl [IH1 IH2]]; [split; reflexivity|].
  subst b. cbn [length replicate forallb andb]. rewrite <- IH1. auto.
Qed.

Lemma none_selected_replicate n :
  0 < n -> forallb (fun b : bool => b) (replicate n false) = false.
Proof. destruct n; [lia | reflexivity]. Qed.

(** C7.  For a non-empty findings list and a selection in which every
    entry is selected, the key [a] deselects every entry, and the key [a]
    on the resulting selection selects every entry again; the cursor and
    the reveal flag are returned as they were, and the loop goes on. *)
Theorem toggle_all_round_trip findings selected cursor reveal :
  findings <> [] ->
  length selected = length findings ->
  Forall (fun b => b = true) selected ->
  _handle_key ord_a findings selected cursor reveal
  = Return {| kr_cursor := cursor; kr_reveal := reveal; kr_result := None;
              kr_selected := replicate (length findings) false |}
  /\ _handle_key ord_a findings (replicate (length findings) false)
       cursor reveal
     = Return {| kr_cursor := cursor; kr_reveal := reveal; kr_result := None;
                 kr_selected := selected |}.
Proof.
  intros Hne Hlen Hall.
  destruct (all_selected_replicate selected Hall) as [Hrep Hb].
  unfold _handle_key. cbn [ord_a KEY_UP KEY_DOWN ord_k ord_j ord_space
                            Z.eqb Pos.eqb orb].
  split.
  - rewrite Hb. reflexivity.
  - rewrite none_selected_replicate.
    + rewrite Hrep, Hlen. reflexivity.
    + destruct findings; [congruence | simpl; lia].
Qed.

Lemma toggle_all_round_trip_witness :
  _handle_key ord_a nested_findings [true; true] 0 false
  = Return {| kr_cursor := 0; kr_reveal := false; kr_result := None;
              kr_selected := [false; false] |}
  /\ _handle_key ord_a nested_findings [false; false] 0 false
     = Return {| kr_cursor := 0; kr_reveal := false; kr_result := None;
                 kr_selected := [true; true] |}.
Proof.
  apply (toggle_all_round_trip nested_findings [true; true] 0 false).
  - discriminate.
  - reflexivity.
  - repeat constructor.
Defined.

(** ** The path column *)

Lemma len_ellipsis : len _ELLIPSIS = 3%Z.
Proof. reflexivity. Qed.

(** With a width of at least [_MIN_PATH_WIDTH], a longer path is cut in
    the middle. *)
Lemma truncate_path_middle path max_width :
  (_MIN_PATH_WIDTH <= max_width)%Z -> (max_width < len path)%Z ->
  let side := Z.to_nat ((max_width - 3) / 2) in
  let rest := Z.to_nat (max_width - 3 - (max_width - 3) / 2) in
  1 <= side /\ 1 <= rest
  /\ _truncate_path path max_width
     = take side path ++ _ELLIPSIS ++ drop (length path - rest) path
  /\ length (take side path) = side
  /\ length (drop (length path - rest) path) = rest
  /\ len (_truncate_path path max_width) = max_width.
Proof.
  intros Hmin Hlong side rest. unfold _MIN_PATH_WIDTH in Hmin.
  assert (1 <= (max_width - 3) / 2)%Z as Hside.
  { apply Z.div_le_lower_bound; lia. }
  assert ((max_width - 3) / 2 <= max_width - 4)%Z as Hside'.
  { apply Z.div_le_upper_bound; lia. }
  assert (_truncate_path path max_width
          = take side path ++ _ELLIPSIS ++ drop (length path - rest) path)
    as Heq.
  { unfold _truncate_path. rewrite len_ellipsis.
    destruct (Z.leb_spec (len path) max_width) as [Hle | _]; [lia|].
    destruct (Z.leb_spec max_width 3) as [Hle | _]; [lia|].
    unfold slice_to, slice_from, slice_bound.
    destruct (Z.ltb_spec ((max_width - 3) / 2) 0) as [Hneg | _]; [lia|].
    destruct (Z.ltb_spec (- (max_width - 3 - (max_width - 3) / 2)) 0)
      as [_ | Hneg]; [|lia].
    unfold side, rest, len in *. f_equal. f_equal. f_equal. lia. }
  unfold len in Hlong.
  assert (length (take side path) = side) as Htake.
  { rewrite length_take. unfold side. lia. }
  assert (length (drop (length path - rest) path) = rest) as Hdrop.
  { rewrite length_drop. unfold rest. lia. }
  repeat split; try assumption.
  - unfold side. lia.
  - unfold rest. lia.
  - rewrite Heq. unfold len. rewrite !length_app, Htake, Hdrop.
    change (length _ELLIPSIS) with 3. unfold side, rest. lia.
Qed.

(** C8.  In a row of the list, a path longer than the width of the path
    column, which is at least [_MIN_PATH_WIDTH], is shown as a start of
    the path, the ellipsis and an end of the path, the start and the end
    each holding at least one character, and the whole being as long as
    the column is wide. *)
Theorem truncate_path_keeps_both_ends max_x finding is_selected reveal :
  let c := finding_row_columns max_x finding is_selected reveal in
  (row_path_max c < len (file_path finding))%Z ->
  (_MIN_PATH_WIDTH <= row_path_max c)%Z
  /\ row_path c = _truncate_path (file_path finding) (row_path_max c)
  /\ exists side rest,
      1 <= side /\ 1 <= rest
      /\ row_path c
         = take side (file_path finding) ++ _ELLIPSIS
             ++ drop (length (file_path finding) - rest) (file_path finding)
      /\ length (take side (file_path finding)) = side
      /\ length (drop (length (file_path finding) - rest) (file_path finding))
         = rest
      /\ len (row_path c) = row_path_max c.
Proof.
  intros c Hlong.
  assert (_MIN_PATH_WIDTH <= row_path_max c)%Z as Hmin.
  { unfold c, finding_row_columns. cbn [row_path_max]. apply Z.le_max_l. }
  split; [exact Hmin|]. split; [reflexivity|].
  destruct (truncate_path_middle (file_path finding) (row_path_max c)
              Hmin Hlong) as (H1 & H2 & H3 & H4 & H5 & H6).
  exists (Z.to_nat ((row_path_max c - 3) / 2)),
    (Z.to_nat (row_path_max c - 3 - (row_path_max c - 3) / 2)).
  split; [exact H1|]. split; [exact H2|]. split; [exact H3|].
  split; [exact H4|]. split; [exact H5 | exact H6].
Qed.

Lemma truncate_path_keeps_both_ends_witness :
  row_path
    (finding_row_columns 48
       (finding "/home/user/very/long/path.txt" "ABCDEFGHIJKLMNOP" "AWS")
       true false)
  = py "/home/...th.txt".
Proof.
  destruct (truncate_path_keeps_both_ends 48
              (finding "/home/user/very/long/path.txt" "ABCDEFGHIJKLMNOP" "AWS")
              true false) as (_ & H & _).
  - vm_compute. reflexivity.
  - rewrite H. vm_compute. reflexivity.
Defined.

(** ** The console *)

(** C9.  For a non-empty findings list, when [/dev/tty] cannot be
    opened, or no file object can be made for it, [run_tui] writes the
    error to the standard error stream and returns the empty selection:
    whatever the terminal would give as input, it draws no frame, reads no
    key and raises nothing. *)
Theorem run_tui_without_tty findings input :
  findings <> [] ->
  run_tui TtyOpenFails findings input
  = (Returned [],
     [OsOpenTty;
      Stderr no_tty_message])
  /\ run_tui TtyFdopenFails findings input
     = (Returned [],
        [OsOpenTty; OsCloseFd;
         Stderr "Error: Could not open TTY file descriptor."]).
Proof.
  intros Hne. destruct findings as [|f fs]; [congruence|].
  split; reflexivity.
Qed.

Lemma run_tui_without_tty_witness :
  run_tui TtyOpenFails nested_findings
    [(turn 24 80 ord_newline)]
  = (Returned [],
     [OsOpenTty;
      Stderr no_tty_message]).
Proof.
  apply (run_tui_without_tty nested_findings
           [(turn 24 80 ord_newline)]).
  discriminate.
Defined.

(** C10.  With an empty findings list [run_tui] returns the empty list
    at once: whatever the state of the terminal, no attempt is made to
    open it, and nothing is drawn or read. *)
Theorem run_tui_no_findings tty input :
  run_tui tty [] input = (Returned [], []).
Proof. reflexivity. Qed.

(** ** What the conditions leave out *)

(** A secret that starts with an end of its own visible tail survives
    its masking where two occurrences overlap. *)
Lemma mask_misses_overlapping_occurrence :
  displayed (Some [finding "f" "abcd-1234-abcd" "G"]) (py "f")
    (py "abcd-1234-abcd-1234-abcd") (py "[R]-1234-abcd")
  = (py "abcd******abcd-1234-abcd", py "[R]-1234-abcd")
  /\ contains (py "abcd-1234-abcd") (py "abcd******abcd-1234-abcd") = true
  /\ maskableb (py "abcd-1234-abcd") = false.
Proof. vm_compute. repeat split. Qed.

(** A secret as long as A that is handled before A and overlaps an
    occurrence of A cuts it: what is left of A is not replaced. *)
Lemma plan_overlapping_secret_cuts_occurrence :
  redact (py "[R]")
    [finding "f" "TOPSEC" "G"; finding "f" "SECRET" "G";
     finding "f" "SUPERSECRETLONG" "G"]
    (py "x=TOPSECRET")
  = py "x=[R]RET".
Proof. vm_compute. reflexivity. Qed.

(** Below the floor of the path column the ellipsis can stand at the
    edge: with a width of four no character of the start is shown. *)
Lemma truncate_path_below_floor :
  _truncate_path (py "/home/user/very/long/path.txt") 4 = py "...t".
Proof. vm_compute. reflexivity. Qed.

(** With [visible = 0] the slice [secret[-0:]] is the whole secret. *)
Lemma mask_secret_zero_visible :
  mask_secret (py "ABCDEFGH") 0 = py "********ABCDEFGH".
Proof. vm_compute. reflexivity. Qed.

(** An exception that is not an [OSError] ends the loop, also when it
    comes from the operating system in the middle of a call. *)
Lemma apply_redactions_interrupted :
  apply_redactions
    (fun target =>
       {| os_mkstemp := Return (target ++ py ".tmp");
          os_fdopen := None; os_write := None;
          os_stat := Some KeyboardInterrupt;
          os_chmod := None; os_chown := None; os_replace := None;
          os_unlink := None |})
    three_replacements
  = (Raise KeyboardInterrupt,
     [Mkstemp (py "a.txt"); Created (py "a.txt.tmp");
      Written (py "a.txt.tmp") (py "[R1]"); Unlinked (py "a.txt.tmp")]).
Proof. vm_compute. reflexivity. Qed.

(** ** Further properties of the engine and the console *)

(** X1.  For a positive number of visible rows, [_adjust_scroll] gives
    an offset that has the cursor in the window; it gives the cursor when
    the cursor is above the window, [cursor - visible + 1] when it is
    below, and leaves the offset as it is otherwise. *)
Theorem adjust_scroll_keeps_cursor_in_window (cursor top visible : Z) :
  (0 < visible)%Z ->
  (_adjust_scroll cursor top visible <= cursor
   < _adjust_scroll cursor top visible + visible)%Z
  /\ ((cursor < top)%Z -> _adjust_scroll cursor top visible = cursor)
  /\ ((top + visible <= cursor)%Z ->
      _adjust_scroll cursor top visible = (cursor - visible + 1)%Z)
  /\ ((top <= cursor < top + visible)%Z ->
      _adjust_scroll cursor top visible = top).
Proof.
  intros Hpos. unfold _adjust_scroll.
  destruct (Z.ltb_spec cursor top) as [H1 | H1].
  - repeat split; intros; lia.
  - destruct (Z.geb_spec cursor (top + visible)) as [H2 | H2].
    + repeat split; intros; lia.
    + repeat split; intros; lia.
Qed.

Lemma adjust_scroll_keeps_cursor_in_window_witness :
  _adjust_scroll 15 0 10 = 6%Z
  /\ _adjust_scroll 2 5 10 = 2%Z
  /\ _adjust_scroll 5 0 10 = 0%Z.
Proof.
  split; [|split].
  - destruct (adjust_scroll_keeps_cursor_in_window 15 0 10) as (_ & _ & H & _);
      [lia|]. apply H. lia.
  - destruct (adjust_scroll_keeps_cursor_in_window 2 5 10) as (_ & H & _);
      [lia|]. apply H. lia.
  - destruct (adjust_scroll_keeps_cursor_in_window 5 0 10) as (_ & _ & _ & H);
      [lia|]. apply H. lia.
Defined.

(** X2.  The order in which the planner handles the findings of a file
    is a stable sort by the length of the secret, longest first: a
    rearrangement of the group, no secret standing before a longer one,
    and findings with secrets of one length in their original order. *)
Theorem sorted_longest_first_stable_sort (l : list Finding) :
  Permutation (sorted_longest_first l) l
  /\ StronglySorted not_shorter (sorted_longest_first l)
  /\ forall n,
      List.filter (fun f => length (secret f) =? n) (sorted_longest_first l)
      = List.filter (fun f => length (secret f) =? n) l.
Proof.
  split; [apply sorted_longest_first_perm|].
  split; [apply sorted_longest_first_sorted|].
  intros n. apply sorted_longest_first_stable.
Qed.

(** X3.  [_group_by_file] routes every finding to the one group of its
    file path: the keys are distinct, the group of a path is the list of
    the findings that name it, in their order, and a path that no finding
    names has no group. *)
Theorem group_by_file_complete (findings : list Finding) :
  List.NoDup (map fst (_group_by_file findings))
  /\ (forall path,
         dict_get (_group_by_file findings) path
         = match group_of findings path with
           | [] => None
           | g => Some g
           end)
  /\ forall f, In f findings ->
      dict_get (_group_by_file findings) (file_path f)
      = Some (group_of findings (file_path f))
      /\ In f (group_of findings (file_path f)).
Proof.
  split; [apply group_by_file_NoDup|].
  split; [apply group_by_file_get|].
  intros f Hf.
  assert (In f (group_of findings (file_path f))) as Hin.
  { unfold group_of. apply filter_In. split; [exact Hf|].
    apply text_eqb_refl. }
  split; [|exact Hin].
  rewrite group_by_file_get.
  destruct (group_of findings (file_path f)); [destruct Hin | reflexivity].
Qed.

Lemma selected_findings_sublist findings : forall selected,
  sublist (selected_findings findings selected) findings.
Proof.
  induction findings as [|f fs IH]; intros [|s ss]; cbn [selected_findings];
    try apply sublist_nil_l.
  destruct s; [apply sublist_skip | apply sublist_cons]; apply IH.
Qed.

(** The findings the confirm key returns: those whose flag is set. *)
Lemma selected_findings_In findings : forall (selected : list bool) f,
  In f (selected_findings findings selected) <->
  exists i, findings !! i = Some f /\ selected !! i = Some true.
Proof.
  induction findings as [|g fs IH]; intros [|s ss] f;
    cbn [selected_findings].
  - split; [intros [] | intros (i & H & _); discriminate].
  - split; [intros [] | intros (i & H & _); discriminate].
  - split; [intros [] | intros (i & _ & H); discriminate].
  - assert (In f (selected_findings fs ss) <->
            exists i, (g :: fs) !! S i = Some f /\ (s :: ss) !! S i = Some true)
      as IH' by apply IH.
    destruct s.
    + cbn [In]. rewrite IH'. split.
      * intros [<- | (i & H)]; [exists 0; split; reflexivity | eauto].
      * intros ([|i] & H1 & H2); [left; cbn in H1; congruence | right; eauto].
    + rewrite IH'. split.
      * intros (i & H). eauto.
      * intros ([|i] & H1 & H2); [discriminate | eauto].
Qed.

(** X4.  The confirm key ends the loop with the findings whose flag is
    set, in the order of the findings list: a finding is returned exactly
    when it stands at a place whose flag is set, and all are returned when
    all flags are set.  The quit key ends the loop with the empty list.
    Neither key changes the cursor, the reveal flag or the selection. *)
Theorem confirm_and_quit findings selected cursor reveal :
  _handle_key ord_newline findings selected cursor reveal
  = Return {| kr_cursor := cursor; kr_reveal := reveal;
              kr_result := Some (selected_findings findings selected);
              kr_selected := selected |}
  /\ sublist (selected_findings findings selected) findings
  /\ (forall f, In f (selected_findings findings selected) <->
        exists i, findings !! i = Some f /\ selected !! i = Some true)
  /\ selected_findings findings (replicate (length findings) true) = findings
  /\ _handle_key ord_q findings selected cursor reveal
     = Return {| kr_cursor := cursor; kr_reveal := reveal;
                 kr_result := Some []; kr_selected := selected |}.
Proof.
  split; [reflexivity|]. split; [apply selected_findings_sublist|].
  split; [apply selected_findings_In|].
  split; [|reflexivity].
  induction findings as [|f fs IH]; [reflexivity|].
  cbn [length replicate selected_findings]. f_equal. exact IH.
Qed.

(** X5.  A path that is a symbolic link, whatever the link points to
    and whatever reading through it gives, a path that is not a regular
    file, and a regular file that cannot be read as UTF-8 text have no
    entry in the mapping of the planner. *)
Theorem plan_skips_unsafe_files fs findings placeholder path :
  (forall n c, fs path <> Regular n (Content c)) ->
  dict_get (generate_replacements fs findings placeholder) path = None
  /\ forall e, ~ In (path, e) (generate_replacements fs findings placeholder).
Proof.
  intros Hfs.
  assert (dict_get (generate_replacements fs findings placeholder) path
          = None) as Hget.
  { rewrite generate_replacements_get.
    destruct (group_of findings path); [reflexivity|].
    unfold entry_for. destruct (fs path) as [rd|rd|n [c| |]]; try reflexivity.
    exfalso. apply (Hfs n c). reflexivity. }
  split; [exact Hget|]. intros e He.
  apply dict_In_get in He; [|apply generate_replacements_NoDup].
  congruence.
Qed.

(** A link to a file that holds the secrets and can be read: the
    planner makes no entry for it, and logs that it skips the link. *)
Lemma plan_skips_unsafe_files_witness :
  read_text linked_file (py "app.env") = Content nested_content
  /\ dict_get (generate_replacements linked_file nested_findings (py "[R]"))
       (py "app.env") = None
  /\ generate_replacements_log linked_file nested_findings (py "[R]")
     = ([], [SkippingSymlink (py "app.env")]).
Proof.
  split; [reflexivity|].
  destruct (plan_skips_unsafe_files linked_file nested_findings
              (py "[R]") (py "app.env")) as [H _].
  - intros n c. discriminate.
  - split; [exact H | vm_compute; reflexivity].
Defined.

(** With a cursor on an entry of a non-empty findings list, the keys
    that move the cursor leave it on an entry, one step up or down unless
    it is on the first or last entry, and change nothing else. *)
Lemma move_keeps_cursor_on_entry findings selected cursor reveal :
  findings <> [] ->
  (0 <= cursor < len findings)%Z ->
  (forall key, key = KEY_UP \/ key = ord_k ->
     _handle_key key findings selected cursor reveal
     = Return {| kr_cursor := Z.max 0 (cursor - 1); kr_reveal := reveal;
                 kr_result := None; kr_selected := selected |})
  /\ (forall key, key = KEY_DOWN \/ key = ord_j ->
        _handle_key key findings selected cursor reveal
        = Return {| kr_cursor := Z.min (len findings - 1) (cursor + 1);
                    kr_reveal := reveal; kr_result := None;
                    kr_selected := selected |})
  /\ (0 <= Z.max 0 (cursor - 1) < len findings)%Z
  /\ (0 <= Z.min (len findings - 1) (cursor + 1) < len findings)%Z.
Proof.
  intros Hne Hcur. split; [|split; [|split]].
  - intros key [-> | ->]; reflexivity.
  - intros key [-> | ->]; reflexivity.
  - lia.
  - lia.
Qed.

Lemma move_keeps_cursor_on_entry_witness :
  _handle_key KEY_UP nested_findings [true; true] 0 false
  = Return {| kr_cursor := 0; kr_reveal := false; kr_result := None;
              kr_selected := [true; true] |}
  /\ _handle_key KEY_DOWN nested_findings [true; true] 1 false
     = Return {| kr_cursor := 1; kr_reveal := false; kr_result := None;
                 kr_selected := [true; true] |}.
Proof.
  split.
  - destruct (move_keeps_cursor_on_entry nested_findings [true; true] 0 false)
      as (H & _); [discriminate | vm_compute; split; congruence |].
    apply (H KEY_UP). left. reflexivity.
  - destruct (move_keeps_cursor_on_entry nested_findings [true; true] 1 false)
      as (_ & H & _); [discriminate | vm_compute; split; congruence |].
    apply (H KEY_DOWN). left. reflexivity.
Defined.

(** X7.  The mapping of the planner has an entry for a path exactly
    when a finding names the path, the path is a regular file whose
    content can be read, and the substitutions of its group change the
    content; the entry holds the content and its image. *)
Theorem plan_entry_iff fs findings placeholder path original redacted :
  In (path, (original, redacted))
    (generate_replacements fs findings placeholder)
  <-> group_of findings path <> []
      /\ (exists n, fs path = Regular n (Content original))
      /\ redacted = redact placeholder (group_of findings path) original
      /\ redacted <> original.
Proof.
  rewrite generate_replacements_In, entry_for_Some. reflexivity.
Qed.

(** ** The masking and truncation helpers: lengths *)

(** X8.  For a positive [visible], the mask is as long as the secret,
    each of its characters is an asterisk or the character the secret has
    at that place, and every place that is at least [visible] away from
    both ends holds an asterisk; a secret of at most [visible * 2]
    characters has an asterisk at every place. *)
Theorem mask_secret_keeps_length (secret : text) (visible : Z) :
  (0 < visible)%Z ->
  length (mask_secret secret visible) = length secret
  /\ (forall i c, mask_secret secret visible !! i = Some c ->
        c = star \/ secret !! i = Some c)
  /\ (forall i, Z.to_nat visible <= i -> i + Z.to_nat visible < length secret ->
        mask_secret secret visible !! i = Some star)
  /\ ((len secret <= visible * 2)%Z ->
      forall i, i < length secret -> mask_secret secret visible !! i = Some star).
Proof.
  intros Hpos.
  destruct (Z.le_gt_cases (len secret) (visible * 2)) as [Hshort | Hlong].
  - rewrite mask_secret_all_stars by exact Hshort.
    split; [apply length_replicate|]. split; [|split].
    + intros i c Hc. left. apply lookup_replicate_1 in Hc as [-> _].
      reflexivity.
    + intros i H1 H2. unfold len in Hshort. lia.
    + intros _ i Hi. apply lookup_replicate_2, Hi.
  - rewrite mask_secret_ends by assumption.
    unfold len in Hlong. unfold text, char in *.
    set (v := Z.to_nat visible) in *.
    assert (2 * v < length secret) as Hv by (unfold v; lia).
    assert (length (take v secret) = v) as Htake
      by (rewrite length_take; lia).
    split; [|split; [|split]].
    + rewrite !length_app, Htake, length_replicate, length_drop. lia.
    + intros i c Hc.
      destruct (Nat.lt_ge_cases i v) as [Hi | Hi].
      * right. rewrite lookup_app_l in Hc by lia.
        rewrite lookup_take_lt in Hc by exact Hi. exact Hc.
      * rewrite lookup_app_r in Hc by lia. rewrite Htake in Hc.
        destruct (Nat.lt_ge_cases (i - v) (length secret - 2 * v)) as [Hm | Hm].
        -- left. rewrite lookup_app_l in Hc by (rewrite length_replicate; lia).
           apply lookup_replicate_1 in Hc as [-> _]. reflexivity.
        -- right.
           rewrite lookup_app_r in Hc by (rewrite length_replicate; lia).
           rewrite length_replicate, lookup_drop in Hc.
           replace (length secret - v + (i - v - (length secret - 2 * v)))
             with i in Hc by lia.
           exact Hc.
    + intros i H1 H2. rewrite lookup_app_r by lia. rewrite Htake.
      rewrite lookup_app_l by (rewrite length_replicate; lia).
      apply lookup_replicate_2. lia.
    + intros Hshort. unfold len in Hshort. lia.
Qed.

Lemma mask_secret_keeps_length_witness :
  length (mask_secret (py "ABCDEFGHIJ") 4) = 10
  /\ mask_secret (py "ABCDEFGHIJ") 4 !! 4 = Some star
  /\ mask_secret (py "ABCDEFGHIJ") 4 !! 5 = Some star.
Proof.
  destruct (mask_secret_keeps_length (py "ABCDEFGHIJ") 4) as (H1 & _ & H3 & _);
    [lia|].
  split; [exact H1|].
  split; apply H3; vm_compute; lia.
Defined.

Lemma len_app {A : Type} (a b : list A) : len (a ++ b) = (len a + len b)%Z.
Proof. unfold len. rewrite length_app. lia. Qed.

Lemma len_nonneg {A : Type} (a : list A) : (0 <= len a)%Z.
Proof. unfold len. lia. Qed.

Lemma len_slice_to {A : Type} (s : list A) (n : Z) :
  (0 <= n)%Z -> len (slice_to s n) = Z.min n (len s).
Proof.
  intros Hn. unfold slice_to, slice_bound, len.
  destruct (Z.ltb_spec n 0) as [Hneg | _]; [lia|].
  rewrite length_take. lia.
Qed.

Lemma slice_to_take {A : Type} (s : list A) (n : Z) :
  (0 <= n)%Z -> slice_to s n = take (Z.to_nat n) s.
Proof.
  intros Hn. unfold slice_to, slice_bound.
  destruct (Z.ltb_spec n 0) as [Hneg | _]; [lia | reflexivity].
Qed.

(** [s[-n:]] for a positive [n] not above the length: the last [n]
    elements. *)
Lemma slice_from_last {A : Type} (s : list A) (n : Z) :
  (0 < n <= len s)%Z ->
  slice_from s (- n) = drop (length s - Z.to_nat n) s
  /\ len (slice_from s (- n)) = n.
Proof.
  intros Hn. unfold slice_from, slice_bound, len in *.
  destruct (Z.ltb_spec (- n) 0) as [_ | Hneg]; [|lia].
  replace (Z.to_nat (Z.max 0 (Z.of_nat (length s) + - n)))
    with (length s - Z.to_nat n) by lia.
  split; [reflexivity|]. rewrite length_drop. lia.
Qed.

(** The secret column is never wider than asked for. *)
Lemma truncate_secret_len (t : text) (max_width : Z) :
  (0 <= max_width)%Z ->
  len (_truncate_secret t max_width) = Z.min (len t) max_width.
Proof.
  intros Hw. unfold _truncate_secret. rewrite len_ellipsis.
  destruct (Z.leb_spec (len t) max_width) as [Hfit | Hlong]; [lia|].
  destruct (Z.leb_spec max_width 3) as [Hsmall | Hwide].
  - rewrite len_slice_to by exact Hw. lia.
  - rewrite len_app, len_slice_to, len_ellipsis by lia. lia.
Qed.

(** X9.  For a width that is not negative, [_truncate_secret] gives a
    text as long as the shorter of the text and the width: the text itself
    when it fits, its first [max_width - 3] characters and the ellipsis
    when the width is above three, and its first [max_width] characters
    otherwise. *)
Theorem truncate_secret_fits (t : text) (max_width : Z) :
  (0 <= max_width)%Z ->
  len (_truncate_secret t max_width) = Z.min (len t) max_width
  /\ ((len t <= max_width)%Z -> _truncate_secret t max_width = t)
  /\ ((max_width < len t)%Z -> (max_width <= 3)%Z ->
      _truncate_secret t max_width = take (Z.to_nat max_width) t)
  /\ ((max_width < len t)%Z -> (3 < max_width)%Z ->
      _truncate_secret t max_width
      = take (Z.to_nat (max_width - 3)) t ++ _ELLIPSIS).
Proof.
  intros Hw. split; [apply truncate_secret_len, Hw|].
  unfold _truncate_secret. rewrite len_ellipsis.
  destruct (Z.leb_spec (len t) max_width) as [Hfit | Hlong].
  - repeat split; intros; lia.
  - destruct (Z.leb_spec max_width 3) as [Hsmall | Hwide].
    + repeat split; intros; try lia. apply slice_to_take, Hw.
    + repeat split; intros; try lia.
      rewrite slice_to_take by lia. reflexivity.
Qed.

Lemma truncate_secret_fits_witness :
  _truncate_secret (py "ABCD********MNOP") 10 = py "ABCD***..."
  /\ _truncate_secret (py "ABCDEFGH") 3 = py "ABC".
Proof.
  split.
  - destruct (truncate_secret_fits (py "ABCD********MNOP") 10)
      as (_ & _ & _ & H); [lia|].
    rewrite H by (vm_compute; reflexivity). reflexivity.
  - destruct (truncate_secret_fits (py "ABCDEFGH") 3) as (_ & _ & H & _);
      [lia|].
    rewrite H by (vm_compute; congruence || reflexivity). reflexivity.
Defined.

(** The path column is never wider than asked for. *)
Lemma truncate_path_fits (path : text) (max_width : Z) :
  (0 <= max_width)%Z ->
  len (_truncate_path path max_width) = Z.min (len path) max_width.
Proof.
  intros Hw. unfold _truncate_path. rewrite len_ellipsis.
  destruct (Z.leb_spec (len path) max_width) as [Hfit | Hlong]; [lia|].
  destruct (Z.leb_spec max_width 3) as [Hsmall | Hwide].
  - rewrite len_slice_to by exact Hw. lia.
  - assert (0 <= (max_width - 3) / 2)%Z as Hside
      by (apply Z.div_pos; lia).
    assert ((max_width - 3) / 2 < max_width - 3)%Z as Hside'
      by (apply Z.div_lt_upper_bound; lia).
    rewrite !len_app, len_ellipsis, len_slice_to by exact Hside.
    destruct (slice_from_last path (max_width - 3 - (max_width - 3) / 2))
      as [_ ->]; lia.
Qed.

Lemma len_ljust (s : text) (w : Z) : len (ljust s w) = Z.max (len s) w.
Proof.
  unfold ljust, str_mul. rewrite len_app. unfold len at 2.
  rewrite length_replicate. pose proof (len_nonneg s). lia.
Qed.

(** X10.  In a terminal at least 38 columns wide, the row of a finding
    whose detector name has at most [_DETECTOR_COL_WIDTH] characters fits
    the [max_x - 1] columns it is written to, by one call of
    [stdscr.addnstr]: the prefix takes 21 columns, the secret at most
    [max(10, max_x - 43)], and the path what is left after the secret and
    one space. *)
Theorem row_fits_screen scr row max_x finding is_selected is_cursor reveal :
  (len (detector_name finding) <= _DETECTOR_COL_WIDTH)%Z ->
  (38 <= max_x)%Z ->
  let c := finding_row_columns max_x finding is_selected reveal in
  let line := row_prefix c ++ row_secret c ++ py " " ++ row_path c in
  _draw_finding_row scr row max_x finding is_selected is_cursor reveal
  = addnstr scr (DrawRow row line (max_x - 1) is_cursor)
  /\ len (row_prefix c) = 21%Z
  /\ (len (row_secret c) <= Z.max 10 (max_x - 43))%Z
  /\ row_path_max c = (max_x - 23 - len (row_secret c))%Z
  /\ (len (row_path c) <= row_path_max c)%Z
  /\ (len line <= max_x - 1)%Z.
Proof.
  intros Hdet Hx c line.
  assert (len (row_prefix c) = 21%Z) as Hprefix.
  { unfold c, finding_row_columns. cbn [row_prefix].
    rewrite !len_app, len_ljust.
    destruct is_selected; unfold _DETECTOR_COL_WIDTH in *;
      change (len (py "[")) with 1%Z; change (len (py "x")) with 1%Z;
      change (len (py " ")) with 1%Z; change (len (py "] ")) with 2%Z; lia. }
  assert (exists masked,
            row_secret c
            = _truncate_secret masked
                (Z.max _MIN_SECRET_WIDTH
                   (max_x - 1 - len (row_prefix c) - 1 - _PATH_BUDGET)))
    as [masked Hsec] by (eexists; reflexivity).
  assert (row_path_max c
          = Z.max _MIN_PATH_WIDTH
              (max_x - 1 - len (row_prefix c) - len (row_secret c) - 1))
    as Hpm by reflexivity.
  assert (row_path c = _truncate_path (file_path finding) (row_path_max c))
    as Hrp by reflexivity.
  rewrite Hprefix in Hsec, Hpm.
  unfold _MIN_SECRET_WIDTH, _PATH_BUDGET in Hsec. unfold _MIN_PATH_WIDTH in Hpm.
  assert (len (row_secret c) <= Z.max 10 (max_x - 43))%Z as Hsecret.
  { rewrite Hsec, truncate_secret_len by lia. lia. }
  assert (row_path_max c = (max_x - 23 - len (row_secret c))%Z) as Hmax
    by lia.
  assert (len (row_path c) <= row_path_max c)%Z as Hpath.
  { rewrite Hrp, truncate_path_fits by lia. lia. }
  split; [reflexivity|]. split; [exact Hprefix|]. split; [exact Hsecret|].
  split; [exact Hmax|]. split; [exact Hpath|].
  unfold line. rewrite !len_app. change (len (py " ")) with 1%Z. lia.
Qed.

Lemma row_fits_screen_witness :
  _draw_finding_row (window_screen 24) 3 48
    (finding "/home/user/very/long/path.txt" "ABCDEFGHIJKLMNOP" "AWS")
    true true false
  = Return
      [DrawRow 3 (py "[x] AWS              ABCD***... /home/...th.txt") 47 true]
  /\ len (py "[x] AWS              ABCD***... /home/...th.txt") = 47%Z.
Proof.
  destruct (row_fits_screen (window_screen 24) 3 48
              (finding "/home/user/very/long/path.txt" "ABCDEFGHIJKLMNOP" "AWS")
              true true false) as (H & _).
  - vm_compute. congruence.
  - vm_compute. congruence.
  - split; [rewrite H|]; vm_compute; reflexivity.
Defined.

(** ** The key handler: indexing *)

Lemma py_index_in_range {A : Type} (l : list A) (i : Z) :
  (0 <= i < len l)%Z -> py_index l i = Some (Z.to_nat i).
Proof.
  intros Hi. unfold py_index.
  destruct (Z.ltb_spec i 0) as [Hneg | _]; [lia|].
  destruct (Z.leb_spec 0 i) as [_ | Hneg]; [|lia].
  destruct (Z.ltb_spec i (len l)) as [_ | Hge]; [|lia].
  reflexivity.
Qed.

Lemma getitem_in_range {A : Type} (l : list A) (i : Z) :
  (0 <= i < len l)%Z ->
  exists x, l !! Z.to_nat i = Some x /\ getitem l i = Return x.
Proof.
  intros Hi. unfold getitem. rewrite py_index_in_range by exact Hi.
  destruct (lookup_lt_is_Some_2 l (Z.to_nat i)) as [x Hx].
  { unfold len in Hi. lia. }
  exists x. rewrite Hx. split; reflexivity.
Qed.

Lemma getitem_lookup {A : Type} (l : list A) (i : Z) (x : A) :
  (0 <= i)%Z -> l !! Z.to_nat i = Some x -> getitem l i = Return x.
Proof.
  intros Hi Hx. pose proof (lookup_lt_Some _ _ _ Hx) as Hlt.
  destruct (getitem_in_range l i) as (y & Hy & ->).
  { unfold len. lia. }
  congruence.
Qed.

Lemma setitem_in_range {A : Type} (l : list A) (i : Z) (x : A) :
  (0 <= i < len l)%Z -> setitem l i x = Return (<[Z.to_nat i := x]> l).
Proof.
  intros Hi. unfold setitem. rewrite py_index_in_range by exact Hi.
  reflexivity.
Qed.

(** An index past the end raises. *)
Lemma getitem_past_end {A : Type} (l : list A) (i : Z) :
  (len l <= i)%Z -> getitem l i = Raise IndexError.
Proof.
  intros Hi. unfold getitem, py_index. pose proof (len_nonneg l).
  destruct (Z.ltb_spec i 0) as [Hneg | _]; [lia|].
  destruct (Z.leb_spec 0 i) as [_ | Hneg]; [|lia].
  destruct (Z.ltb_spec i (len l)) as [Hlt | _]; [lia|].
  reflexivity.
Qed.

(** X11.  With the cursor on an entry, the space key flips the flag of
    that entry and no other, leaves the cursor and the reveal flag as they
    are and goes on with the loop; pressed again, it gives the selection
    back as it was. *)
Theorem space_toggles_entry findings (selected : list bool) cursor reveal :
  (0 <= cursor < len selected)%Z ->
  exists selected',
    _handle_key ord_space findings selected cursor reveal
    = Return {| kr_cursor := cursor; kr_reveal := reveal; kr_result := None;
                kr_selected := selected' |}
    /\ length selected' = length selected
    /\ selected' !! Z.to_nat cursor = negb <$> selected !! Z.to_nat cursor
    /\ (forall i, i <> Z.to_nat cursor -> selected' !! i = selected !! i)
    /\ _handle_key ord_space findings selected' cursor reveal
       = Return {| kr_cursor := cursor; kr_reveal := reveal;
                   kr_result := None; kr_selected := selected |}.
Proof.
  intros Hcur.
  assert (forall sel : list bool,
            _handle_key ord_space findings sel cursor reveal
            = match getitem sel cursor with
              | Raise e => Raise e
              | Return b =>
                  match setitem sel cursor (negb b) with
                  | Raise e => Raise e
                  | Return sel' =>
                      Return {| kr_cursor := cursor; kr_reveal := reveal;
                                kr_result := None; kr_selected := sel' |}
                  end
              end) as Hkey by reflexivity.
  destruct (getitem_in_range selected cursor Hcur) as (b & Hb & Hget).
  assert (Z.to_nat cursor < length selected) as Hlt
    by (unfold len in Hcur; lia).
  exists (<[Z.to_nat cursor := negb b]> selected).
  split; [|split; [|split; [|split]]].
  - rewrite Hkey, Hget, setitem_in_range by exact Hcur. reflexivity.
  - apply length_insert.
  - rewrite list_lookup_insert_eq by exact Hlt. rewrite Hb. reflexivity.
  - intros i Hi. apply list_lookup_insert_ne. congruence.
  - rewrite Hkey.
    assert (0 <= cursor < len (<[Z.to_nat cursor := negb b]> selected))%Z
      as Hcur' by (unfold len in *; rewrite length_insert; exact Hcur).
    rewrite (getitem_lookup _ cursor (negb b)).
    + rewrite setitem_in_range by exact Hcur'.
      rewrite list_insert_insert_eq, negb_involutive.
      rewrite list_insert_id by exact Hb. reflexivity.
    + lia.
    + apply list_lookup_insert_eq, Hlt.
Qed.

Lemma space_toggles_entry_witness :
  _handle_key ord_space nested_findings [true; true] 1 false
  = Return {| kr_cursor := 1; kr_reveal := false; kr_result := None;
              kr_selected := [true; false] |}.
Proof.
  destruct (space_toggles_entry nested_findings [true; true] 1 false)
    as (sel & H & _).
  - vm_compute. split; congruence.
  - pose proof H as E. vm_compute in E. injection E as E. subst sel. exact H.
Defined.

(** The indices of a category: the places of the findings with that
    detector name, counted from [k]. *)
Lemma category_indices_spec cat findings : forall k j,
  In j (category_indices cat k findings) <->
  exists i g, j = (k + Z.of_nat i)%Z /\ findings !! i = Some g
              /\ detector_name g = cat.
Proof.
  induction findings as [|f fs IH]; intros k j; cbn [category_indices].
  - split; [intros [] | intros (i & g & _ & H & _); discriminate].
  - assert (In j (category_indices cat (k + 1) fs) <->
            exists i g, j = (k + Z.of_nat (S i))%Z /\ fs !! i = Some g
                        /\ detector_name g = cat) as IH'.
    { rewrite IH. split; intros (i & g & -> & H1 & H2); exists i, g;
        (split; [lia | split; assumption]). }
    destruct (text_eqb (detector_name f) cat) eqn:E.
    + apply text_eqb_eq in E. cbn [In]. rewrite IH'. split.
      * intros [<- | (i & g & -> & H1 & H2)].
        -- exists 0, f. split; [lia | split; [reflexivity | exact E]].
        -- exists (S i), g. split; [reflexivity | split; assumption].
      * intros ([|i] & g & -> & H1 & H2).
        -- left. lia.
        -- right. exists i, g. split; [reflexivity | split; assumption].
    + apply text_eqb_neq in E. rewrite IH'. split.
      * intros (i & g & -> & H1 & H2). exists (S i), g.
        split; [reflexivity | split; assumption].
      * intros ([|i] & g & -> & H1 & H2).
        -- cbn in H1. injection H1 as <-. contradiction.
        -- exists i, g. split; [reflexivity | split; assumption].
Qed.

Lemma all_selected_at_spec (selected : list bool) indices :
  Forall (fun j => (0 <= j < len selected)%Z) indices ->
  exists b, all_selected_at selected indices = Return b
    /\ (b = true <->
        forall j, In j indices -> selected !! Z.to_nat j = Some true).
Proof.
  induction 1 as [|j rest Hj Hrest IH]; cbn [all_selected_at].
  - exists true. split; [reflexivity|]. split; [intros _ j []|reflexivity].
  - destruct (getitem_in_range selected j Hj) as (b & Hb & ->).
    destruct b.
    + destruct IH as (b & -> & Hall). exists b. split; [reflexivity|].
      rewrite Hall. split.
      * intros H i [<- | Hi]; [exact Hb | apply H, Hi].
      * intros H i Hi. apply H. right. exact Hi.
    + exists false. split; [reflexivity|]. split; [discriminate|].
      intros H. specialize (H j (or_introl eq_refl)). congruence.
Qed.

Lemma set_selected_at_spec indices (v : bool) : forall selected,
  Forall (fun j => (0 <= j < len selected)%Z) indices ->
  exists selected',
    set_selected_at selected indices v = Return selected'
    /\ length selected' = length selected
    /\ (forall n, In (Z.of_nat n) indices -> n < length selected ->
          selected' !! n = Some v)
    /\ (forall n, ~ In (Z.of_nat n) indices -> selected' !! n = selected !! n).
Proof.
  induction indices as [|j rest IH]; intros selected Hall;
    cbn [set_selected_at].
  - exists selected. split; [reflexivity|]. split; [reflexivity|].
    split; [intros n [] | reflexivity].
  - inversion Hall as [|? ? Hj Hrest]; subst.
    rewrite setitem_in_range by exact Hj.
    destruct (IH (<[Z.to_nat j := v]> selected)) as (sel' & -> & Hlen & Hin & Hout).
    { eapply Forall_impl; [exact Hrest|]. intros i Hi. cbn beta in *.
      unfold len in *. rewrite length_insert. exact Hi. }
    rewrite length_insert in Hlen, Hin.
    exists sel'. split; [reflexivity|]. split; [exact Hlen|]. split.
    + intros n Hn Hlt.
      destruct (in_dec Z.eq_dec (Z.of_nat n) rest) as [Hr | Hr].
      * apply Hin; assumption.
      * destruct Hn as [Hn | Hn]; [|contradiction].
        rewrite Hout by exact Hr. subst j. rewrite Nat2Z.id.
        apply list_lookup_insert_eq, Hlt.
    + intros n Hn. rewrite Hout by (intros H; apply Hn; right; exact H).
      apply list_lookup_insert_ne. intros <-. apply Hn. left. lia.
Qed.

(** X12.  With the cursor on a finding, the key [t] gives every finding
    with the detector name of that finding the same flag: not selected
    when all of them were selected, selected when one of them was not; the
    flags of the findings with another detector name, the cursor and the
    reveal flag stay as they are, and the loop goes on. *)
Theorem category_toggle findings (selected : list bool) cursor reveal f :
  length selected = length findings ->
  (0 <= cursor)%Z -> findings !! Z.to_nat cursor = Some f ->
  exists selected',
    _handle_key ord_t findings selected cursor reveal
    = Return {| kr_cursor := cursor; kr_reveal := reveal; kr_result := None;
                kr_selected := selected' |}
    /\ length selected' = length findings
    /\ (forall i g, findings !! i = Some g ->
          detector_name g <> detector_name f -> selected' !! i = selected !! i)
    /\ ((forall i g, findings !! i = Some g ->
           detector_name g = detector_name f -> selected !! i = Some true) ->
        forall i g, findings !! i = Some g ->
          detector_name g = detector_name f -> selected' !! i = Some false)
    /\ ((exists i g, findings !! i = Some g
           /\ detector_name g = detector_name f /\ selected !! i = Some false) ->
        forall i g, findings !! i = Some g ->
          detector_name g = detector_name f -> selected' !! i = Some true).
Proof.
  intros Hlen Hcur Hf.
  set (indices := category_indices (detector_name f) 0 findings).
  assert (_handle_key ord_t findings selected cursor reveal
          = match getitem findings cursor with
            | Raise e => Raise e
            | Return f =>
                let indices := category_indices (detector_name f) 0 findings in
                match all_selected_at selected indices with
                | Raise e => Raise e
                | Return all_on =>
                    match set_selected_at selected indices (negb all_on) with
                    | Raise e => Raise e
                    | Return selected' =>
                        Return {| kr_cursor := cursor; kr_reveal := reveal;
                                  kr_result := None;
                                  kr_selected := selected' |}
                    end
                end
            end) as Hkey by reflexivity.
  rewrite (getitem_lookup findings cursor f Hcur Hf) in Hkey.
  cbn zeta in Hkey. fold indices in Hkey.
  assert (forall j, In j indices <->
            exists i g, j = Z.of_nat i /\ findings !! i = Some g
                        /\ detector_name g = detector_name f) as Hind.
  { intros j. unfold indices. rewrite category_indices_spec.
    split; intros (i & g & -> & H1 & H2); exists i, g;
      (split; [lia | split; assumption]). }
  assert (Forall (fun j => (0 <= j < len selected)%Z) indices) as Hrange.
  { apply List.Forall_forall. intros j Hj.
    apply Hind in Hj as (i & g & -> & Hg & _).
    apply lookup_lt_Some in Hg. unfold len. lia. }
  destruct (all_selected_at_spec selected indices Hrange) as (b & Hb & Hall).
  destruct (set_selected_at_spec indices (negb b) selected Hrange)
    as (sel' & Hset & Hlen' & Hin & Hout).
  rewrite Hb, Hset in Hkey.
  exists sel'. split; [exact Hkey|]. split; [congruence|].
  assert (forall i g, findings !! i = Some g ->
            detector_name g = detector_name f -> sel' !! i = Some (negb b))
    as Hcat.
  { intros i g Hg Hd. apply Hin.
    - apply Hind. exists i, g. split; [reflexivity | split; assumption].
    - apply lookup_lt_Some in Hg. lia. }
  split; [|split].
  - intros i g Hg Hd. apply Hout. intros Hi.
    apply Hind in Hi as (i' & g' & Hi' & Hg' & Hd').
    apply Nat2Z.inj in Hi'. subst i'. congruence.
  - intros Hon i g Hg Hd. rewrite (Hcat i g Hg Hd).
    replace b with true; [reflexivity|]. symmetry. apply Hall.
    intros j Hj. apply Hind in Hj as (i' & g' & -> & Hg' & Hd').
    rewrite Nat2Z.id. apply (Hon i' g'); assumption.
  - intros (i0 & g0 & Hg0 & Hd0 & Hoff) i g Hg Hd. rewrite (Hcat i g Hg Hd).
    destruct b; [|reflexivity]. exfalso.
    assert (selected !! Z.to_nat (Z.of_nat i0) = Some true) as Hon.
    { apply (proj1 Hall eq_refl). apply Hind. exists i0, g0.
      split; [reflexivity | split; assumption]. }
    rewrite Nat2Z.id in Hon. congruence.
Qed.

Lemma category_toggle_witness :
  _handle_key ord_t category_findings [true; true; true] 0 false
  = Return {| kr_cursor := 0; kr_reveal := false; kr_result := None;
              kr_selected := [false; false; true] |}
  /\ _handle_key ord_t category_findings [false; false; true] 0 false
     = Return {| kr_cursor := 0; kr_reveal := false; kr_result := None;
                 kr_selected := [true; true; true] |}.
Proof.
  split.
  - destruct (category_toggle category_findings [true; true; true] 0 false
                (finding "/tmp/f.txt" "s1" "AWS")) as (sel & H & _);
      [reflexivity | lia | reflexivity |].
    pose proof H as E. vm_compute in E. injection E as E. subst sel. exact H.
  - destruct (category_toggle category_findings [false; false; true] 0 false
                (finding "/tmp/f.txt" "s1" "AWS")) as (sel & H & _);
      [reflexivity | lia | reflexivity |].
    pose proof H as E. vm_compute in E. injection E as E. subst sel. exact H.
Defined.

(** ** The key handler and the event loop: the state stays in range *)


(** A key the handler does not know changes nothing. *)
Lemma handle_key_unknown key findings selected cursor reveal :
  ~ In key [KEY_UP; ord_k; KEY_DOWN; ord_j; ord_space; ord_a; ord_t; ord_r;
            ord_newline; ord_q] ->
  _handle_key key findings selected cursor reveal
  = Return {| kr_cursor := cursor; kr_reveal := reveal; kr_result := None;
              kr_selected := selected |}.
Proof.
  intros Hkey. unfold _handle_key. cbv zeta.
  repeat match goal with
         | |- context [(key =? ?k)%Z] =>
             destruct (Z.eqb_spec key k) as [-> | _];
             [exfalso; apply Hkey; cbn [In]; tauto|]
         end.
  reflexivity.
Qed.

(** With a selection as long as the findings list and the cursor on an
    entry, the handler raises nothing and leaves such a state. *)
Lemma handle_key_total key findings (selected : list bool) cursor reveal :
  length selected = length findings ->
  (0 <= cursor < len findings)%Z ->
  exists r,
    _handle_key key findings selected cursor reveal = Return r
    /\ length (kr_selected r) = length findings
    /\ (0 <= kr_cursor r < len findings)%Z
    /\ (forall result, kr_result r = Some result -> sublist result findings).
Proof.
  intros Hlen Hcur.
  assert (0 <= cursor < len selected)%Z as Hcur'
    by (unfold len in *; rewrite Hlen; exact Hcur).
  unfold _handle_key. cbv zeta.
  destruct ((key =? KEY_UP) || (key =? ord_k))%Z.
  { eexists. split; [reflexivity|]. cbn. repeat split; try lia. discriminate. }
  destruct ((key =? KEY_DOWN) || (key =? ord_j))%Z.
  { eexists. split; [reflexivity|]. cbn. repeat split; try lia. discriminate. }
  destruct (key =? ord_space)%Z.
  { destruct (getitem_in_range selected cursor Hcur') as (b & _ & ->).
    rewrite setitem_in_range by exact Hcur'.
    eexists. split; [reflexivity|]. cbn. rewrite length_insert.
    repeat split; try lia. discriminate. }
  destruct (key =? ord_a)%Z.
  { destruct (forallb (fun b : bool => b) selected);
      (eexists; split; [reflexivity|]; cbn; rewrite length_replicate;
       repeat split; try lia; discriminate). }
  destruct (key =? ord_t)%Z.
  { destruct (getitem_in_range findings cursor Hcur) as (f & _ & ->).
    assert (Forall (fun j => (0 <= j < len selected)%Z)
              (category_indices (detector_name f) 0 findings)) as Hrange.
    { apply List.Forall_forall. intros j Hj.
      apply category_indices_spec in Hj as (i & g & -> & Hg & _).
      apply lookup_lt_Some in Hg. unfold len. lia. }
    destruct (all_selected_at_spec selected _ Hrange) as (b & -> & _).
    destruct (set_selected_at_spec _ (negb b) selected Hrange)
      as (sel' & -> & Hlen' & _).
    eexists. split; [reflexivity|]. cbn.
    repeat split; try lia. discriminate. }
  destruct (key =? ord_r)%Z.
  { eexists. split; [reflexivity|]. cbn. repeat split; try lia. discriminate. }
  destruct (key =? ord_newline)%Z.
  { eexists. split; [reflexivity|]. cbn. repeat split; try lia.
    intros result [= <-]. apply selected_findings_sublist. }
  destruct (key =? ord_q)%Z.
  { eexists. split; [reflexivity|]. cbn. repeat split; try lia.
    intros result [= <-]. apply sublist_nil_l. }
  eexists. split; [reflexivity|]. cbn. repeat split; try lia. discriminate.
Qed.

(** X13.  With a selection as long as the findings list and the cursor
    on an entry, [_handle_key] raises nothing for any key: it returns a
    selection of the same length and a cursor on an entry, a result it
    gives holds findings of the list in their order, and a key that is
    none of the ten it knows changes nothing. *)
Theorem handle_key_keeps_state key findings (selected : list bool)
    cursor reveal :
  length selected = length findings ->
  (0 <= cursor < len findings)%Z ->
  (exists r,
      _handle_key key findings selected cursor reveal = Return r
      /\ length (kr_selected r) = length findings
      /\ (0 <= kr_cursor r < len findings)%Z
      /\ (forall result, kr_result r = Some result -> sublist result findings))
  /\ (~ In key [KEY_UP; ord_k; KEY_DOWN; ord_j; ord_space; ord_a; ord_t;
                ord_r; ord_newline; ord_q] ->
      _handle_key key findings selected cursor reveal
      = Return {| kr_cursor := cursor; kr_reveal := reveal; kr_result := None;
                  kr_selected := selected |}).
Proof.
  intros Hlen Hcur. split.
  - apply handle_key_total; assumption.
  - apply handle_key_unknown.
Qed.

Lemma handle_key_keeps_state_witness :
  _handle_key 122 category_findings [true; false; true] 2 true
  = Return {| kr_cursor := 2; kr_reveal := true; kr_result := None;
              kr_selected := [true; false; true] |}.
Proof.
  destruct (handle_key_keeps_state 122 category_findings [true; false; true]
              2 true) as [_ H].
  - reflexivity.
  - vm_compute. split; congruence.
  - apply H. vm_compute. intuition discriminate.
Defined.

Lemma py_range_length a b : length (py_range a b) = Z.to_nat (b - a).
Proof. unfold py_range. rewrite length_map, length_seq. reflexivity. Qed.

Lemma py_range_lookup a b k :
  k < Z.to_nat (b - a) -> py_range a b !! k = Some (a + Z.of_nat k)%Z.
Proof.
  intros Hk. unfold py_range.
  change (map ?f ?l) with (f <$> l).
  rewrite list_lookup_fmap, lookup_seq_lt by exact Hk. reflexivity.
Qed.

Lemma py_range_In a b idx : In idx (py_range a b) -> (a <= idx < b)%Z.
Proof.
  unfold py_range. rewrite in_map_iff. intros (k & <- & Hk).
  apply in_seq in Hk. lia.
Qed.

(** Calls made one after the other. *)
Lemma perform_app scr a b :
  perform scr (a ++ b)
  = match perform scr a with
    | Raise e => Raise e
    | Return done =>
        match perform scr b with
        | Raise e => Raise e
        | Return done' => Return (done ++ done')
        end
    end.
Proof.
  induction a as [|op a IH]; cbn [app perform].
  - destruct (perform scr b); reflexivity.
  - destruct (scr (Addnstr op)); [reflexivity|]. rewrite IH.
    destruct (perform scr a); [|reflexivity].
    destruct (perform scr b); reflexivity.
Qed.

Lemma perform_one scr op : perform scr [op] = addnstr scr op.
Proof.
  unfold addnstr. cbn [perform]. destruct (scr (Addnstr op)); reflexivity.
Qed.

(** The calls return when the terminal makes none of them raise, and
    only then; what is raised is what the terminal raises for one of
    them. *)
Lemma perform_returns scr ops done :
  perform scr ops = Return done ->
  done = ops /\ forall op, In op ops -> scr (Addnstr op) = None.
Proof.
  revert done. induction ops as [|op ops IH]; intros done; cbn [perform].
  - intros [= <-]. split; [reflexivity | intros op []].
  - destruct (scr (Addnstr op)) eqn:E; [discriminate|].
    destruct (perform scr ops) as [done'|e]; [|discriminate].
    intros [= <-]. destruct (IH done' eq_refl) as [-> H].
    split; [reflexivity|]. intros op' [<- | Hin]; [exact E | apply H, Hin].
Qed.

Lemma perform_raises scr ops e :
  perform scr ops = Raise e ->
  exists op, In op ops /\ scr (Addnstr op) = Some e.
Proof.
  induction ops as [|op ops IH]; cbn [perform]; [discriminate|].
  destruct (scr (Addnstr op)) as [e'|] eqn:E.
  - intros [= <-]. exists op. split; [left; reflexivity | exact E].
  - destruct (perform scr ops) as [done'|e']; [discriminate|].
    intros [= <-]. destruct (IH eq_refl) as (op' & Hin & H).
    exists op'. split; [right; exact Hin | exact H].
Qed.

Lemma perform_calm scr ops :
  (forall op, In op ops -> scr (Addnstr op) = None) ->
  perform scr ops = Return ops.
Proof.
  induction ops as [|op ops IH]; intros H; cbn [perform]; [reflexivity|].
  rewrite (H op) by (left; reflexivity).
  rewrite IH; [reflexivity|]. intros op' Hin. apply H. right. exact Hin.
Qed.

(** The header is made of three calls. *)
Lemma draw_header_calls scr max_x :
  _draw_header scr max_x = perform scr (header_lines max_x).
Proof.
  unfold _draw_header, header_lines, addnstr. cbn [perform].
  destruct (scr (Addnstr (DrawTitle (max_x - 1)))); [reflexivity|].
  destruct (scr (Addnstr (DrawControls (max_x - 1)))); [reflexivity|].
  destruct (scr (Addnstr (DrawSeparator (max_x - 1)))); reflexivity.
Qed.

(** The rows of a list of indices that are all in range: one call for
    each index, and no index out of range. *)
Lemma draw_rows_in_range scr findings (selected : list bool) cursor top reveal
    max_x indices :
  length selected = length findings ->
  Forall (fun idx => (0 <= idx < len findings)%Z) indices ->
  exists ops,
    draw_rows scr findings selected cursor top reveal max_x indices
    = perform scr ops
    /\ length ops = length indices
    /\ forall k idx, indices !! k = Some idx ->
         exists f s,
           findings !! Z.to_nat idx = Some f
           /\ selected !! Z.to_nat idx = Some s
           /\ ops !! k
              = Some (finding_row (_HEADER_ROWS + idx - top) max_x f s
                        (idx =? cursor)%Z reveal).
Proof.
  intros Hlen. induction 1 as [|idx rest Hidx Hrest IH]; cbn [draw_rows].
  - exists []. split; [reflexivity|]. split; [reflexivity|].
    intros k idx H. discriminate.
  - destruct (getitem_in_range findings idx Hidx) as (f & Hf & ->).
    destruct (getitem_in_range selected idx) as (s & Hs & ->).
    { unfold len in *. rewrite Hlen. exact Hidx. }
    destruct IH as (ops & -> & Hops & Hrows).
    exists (finding_row (_HEADER_ROWS + idx - top) max_x f s
              (idx =? cursor)%Z reveal :: ops).
    split; [|split; [cbn [length]; congruence|]].
    + unfold _draw_finding_row, addnstr. cbn [perform].
      destruct (scr (Addnstr _)); [reflexivity|].
      destruct (perform scr ops); reflexivity.
    + intros [|k] idx' Hk.
      * injection Hk as <-. exists f, s. repeat split; assumption.
      * apply Hrows. exact Hk.
Qed.

(** The calls of [_draw_list]: the rows of the window and the status
    bar. *)
Lemma draw_list_total scr findings (selected : list bool) cursor top reveal
    max_y max_x :
  length selected = length findings -> (0 <= top)%Z ->
  exists rows,
    _draw_list scr findings selected cursor top reveal max_y max_x
    = perform scr
        (rows ++
         [DrawStatus (max_y - 1)
            (len (filter (fun b : bool => b = true) selected))
            (len findings) (max_x - 1)])
    /\ len rows = Z.max 0 (Z.min (max_y - 4) (len findings - top))
    /\ forall k op, rows !! k = Some op ->
         exists f s,
           findings !! (Z.to_nat top + k) = Some f
           /\ selected !! (Z.to_nat top + k) = Some s
           /\ op = finding_row (3 + Z.of_nat k) max_x f s
                     (top + Z.of_nat k =? cursor)%Z reveal.
Proof.
  intros Hlen Htop. unfold _draw_list. cbv zeta.
  unfold _HEADER_ROWS, _BOTTOM_RESERVE.
  set (stop := Z.min (top + (max_y - 3 - 1)) (len findings)).
  destruct (draw_rows_in_range scr findings selected cursor top reveal max_x
              (py_range top stop) Hlen) as (ops & -> & Hops & Hrows).
  { apply List.Forall_forall. intros idx Hidx. apply py_range_In in Hidx.
    unfold stop in Hidx. lia. }
  rewrite py_range_length in Hops.
  exists ops. split.
  { rewrite perform_app, perform_one. reflexivity. }
  split.
  { unfold len at 1. rewrite Hops. unfold stop. lia. }
  intros k op Hk.
  assert (k < Z.to_nat (stop - top)) as Hlt
    by (rewrite <- Hops; eapply lookup_lt_Some, Hk).
  destruct (Hrows k (top + Z.of_nat k)%Z (py_range_lookup top stop k Hlt))
    as (f & s & Hf & Hs & Hop).
  exists f, s.
  replace (Z.to_nat (top + Z.of_nat k)) with (Z.to_nat top + k) in Hf, Hs
    by lia.
  split; [exact Hf|]. split; [exact Hs|].
  rewrite Hk in Hop. injection Hop as ->. unfold _HEADER_ROWS.
  f_equal. lia.
Qed.

Lemma adjust_scroll_nonneg cursor top visible :
  (0 <= cursor)%Z -> (0 <= top)%Z -> (0 <= _adjust_scroll cursor top visible)%Z.
Proof.
  intros Hc Ht. unfold _adjust_scroll.
  destruct (Z.ltb_spec cursor top); [lia|].
  destruct (Z.geb_spec cursor (top + visible)); lia.
Qed.

(** What one turn writes: the header, the rows of the window and the
    status bar, when no call raises; and nothing is raised but what the
    terminal raises for a call. *)
Lemma draw_frame_total scr findings (selected : list bool) cursor top reveal
    max_y max_x :
  length selected = length findings -> (0 <= top)%Z ->
  exists rows,
    len rows = Z.max 0 (Z.min (max_y - 4) (len findings - top))
    /\ (forall k op, rows !! k = Some op ->
          exists f s,
            findings !! (Z.to_nat top + k) = Some f
            /\ selected !! (Z.to_nat top + k) = Some s
            /\ op = finding_row (3 + Z.of_nat k) max_x f s
                      (top + Z.of_nat k =? cursor)%Z reveal)
    /\ match draw_frame scr findings selected cursor top reveal max_y max_x with
       | Return frame =>
           frame
           = header_lines max_x ++ rows ++
             [DrawStatus (max_y - 1)
                (len (filter (fun b : bool => b = true) selected))
                (len findings) (max_x - 1)]
       | Raise e => exists call, scr call = Some e
       end
    /\ (scr Clear = None -> scr Refresh = None ->
        (forall op,
           In op (header_lines max_x ++ rows ++
                  [DrawStatus (max_y - 1)
                     (len (filter (fun b : bool => b = true) selected))
                     (len findings) (max_x - 1)]) ->
           scr (Addnstr op) = None) ->
        draw_frame scr findings selected cursor top reveal max_y max_x
        = Return (header_lines max_x ++ rows ++
                  [DrawStatus (max_y - 1)
                     (len (filter (fun b : bool => b = true) selected))
                     (len findings) (max_x - 1)])).
Proof.
  intros Hlen Htop.
  destruct (draw_list_total scr findings selected cursor top reveal max_y max_x
              Hlen Htop) as (rows & Hlist & Hrows & Hrow).
  exists rows. split; [exact Hrows|]. split; [exact Hrow|].
  unfold draw_frame. rewrite draw_header_calls, Hlist. split.
  - destruct (scr Clear) as [e|] eqn:Eclear; [eauto|].
    destruct (perform scr (header_lines max_x)) as [header|e] eqn:Eh.
    2: { apply perform_raises in Eh as (op & _ & H). eauto. }
    apply perform_returns in Eh as [-> _].
    destruct (perform scr (rows ++ _)) as [ops|e] eqn:El.
    2: { apply perform_raises in El as (op & _ & H). eauto. }
    apply perform_returns in El as [-> _].
    destruct (scr Refresh) as [e|] eqn:Er; [eauto | reflexivity].
  - intros Hclear Hrefresh Hcalm. rewrite Hclear, Hrefresh.
    rewrite !perform_calm; [reflexivity | |];
      intros op Hop; apply Hcalm, in_or_app; [right | left]; exact Hop.
Qed.

(** The event loop keeps the state in range, whatever the terminal
    gives: it raises nothing but what the terminal raises for a call. *)
Lemma draw_ends findings input : forall (selected : list bool) cursor top reveal,
  length selected = length findings ->
  (0 <= cursor < len findings)%Z -> (0 <= top)%Z ->
  match fst (draw findings selected cursor top reveal input) with
  | Returned result => sublist result findings
  | Raised e => exists i call, In i input /\ term_raises i call = Some e
  | WaitingForKey => True
  end.
Proof.
  induction input as [|i rest IH]; intros selected cursor top reveal
    Hlen Hcur Htop; cbn [draw]; [exact I|].
  cbv zeta.
  set (top' := _adjust_scroll cursor top
                 (term_max_y i - _HEADER_ROWS - _BOTTOM_RESERVE)).
  assert (0 <= top')%Z as Htop' by (apply adjust_scroll_nonneg; lia).
  destruct (draw_frame_total (term_raises i) findings selected cursor top'
              reveal (term_max_y i) (term_max_x i) Hlen Htop')
    as (rows & _ & _ & Hframe & _).
  destruct (draw_frame (term_raises i) findings selected cursor top' reveal
              (term_max_y i) (term_max_x i)) as [frame|e].
  2: { cbn [fst]. destruct Hframe as [call Hcall].
       exists i, call. split; [left; reflexivity | exact Hcall]. }
  destruct (term_raises i Getch) as [e|] eqn:Egetch.
  { cbn [fst]. exists i, Getch. split; [left; reflexivity | exact Egetch]. }
  destruct (handle_key_total (term_key i) findings selected cursor reveal
              Hlen Hcur) as (r & -> & Hlen' & Hcur' & Hres).
  destruct (kr_result r) as [result|] eqn:Er.
  - cbn [fst]. apply Hres. reflexivity.
  - specialize (IH (kr_selected r) (kr_cursor r) top' (kr_reveal r)
                  Hlen' Hcur' Htop').
    destruct (draw findings (kr_selected r) (kr_cursor r) top' (kr_reveal r)
                rest) as [e evs].
    cbn [fst] in *. destruct e as [result|e|]; [exact IH | | exact I].
    destruct IH as (i' & call & Hin & Hcall).
    exists i', call. split; [right; exact Hin | exact Hcall].
Qed.

(** How a run of the console can end. *)
Lemma run_tui_ends tty findings input :
  match fst (run_tui tty findings input) with
  | Returned result => sublist result findings
  | Raised e =>
      findings <> []
      /\ (tty = TtyRedirectFails /\ e = OSError
          \/ tty = TtyCursesFails e
          \/ tty = TtyReady
             /\ exists i call, In i input /\ term_raises i call = Some e)
  | WaitingForKey => tty = TtyReady /\ findings <> []
  end.
Proof.
  unfold run_tui. destruct findings as [|f fs] eqn:Ef.
  - apply sublist_nil_l.
  - rewrite <- Ef.
    assert (findings <> []) as Hne by (subst findings; discriminate).
    destruct tty; cbn [_open_tty fst]; try apply sublist_nil_l.
    { split; [exact Hne|]. left. split; reflexivity. }
    { split; [exact Hne|]. right. left. reflexivity. }
    pose proof (draw_ends findings input
                  (replicate (length findings) true) 0%Z 0%Z false) as H.
    destruct (draw findings (replicate (length findings) true) 0 0 false input)
      as [e evs].
    cbn [fst] in H.
    assert (match e with
            | Returned result => sublist result findings
            | Raised e =>
                exists i call, In i input /\ term_raises i call = Some e
            | WaitingForKey => True
            end) as He.
    { apply H; [apply length_replicate | | lia].
      subst findings. unfold len. cbn [length]. lia. }
    destruct e; cbn [fst];
      [exact He
      | split; [exact Hne | right; right; split; [reflexivity | exact He]]
      | split; [reflexivity | exact Hne]].
Qed.







(** ** The planner: the default placeholder and the log *)






(** ** The committer: one entry *)

(** How the inner block ends, whatever the operating system answers:
    with the rename, after the whole text was written and the mode copied,
    or with an exception before any rename. *)
Lemma write_and_rename_ends os tmp target redacted :
  (exists owner,
      write_and_rename os tmp target redacted
      = (Return tt,
         [Written tmp redacted; ModeCopied tmp] ++ owner
           ++ [Renamed tmp target])
      /\ utf8_encodable redacted = true
      /\ (owner = [OwnerCopied tmp] /\ os_chown os = None
          \/ owner = [] /\ os_chown os = Some PermissionError))
  \/ (exists e evs,
         write_and_rename os tmp target redacted = (Raise e, evs)
         /\ forallb is_step evs = true).
Proof.
  unfold write_and_rename, mbind, commit_bind, bind, call.
  destruct (os_fdopen os) as [e|].
  { right. exists e, []. split; reflexivity. }
  destruct (utf8_encodable redacted).
  2: { right. exists UnicodeEncodeError, []. split; reflexivity. }
  destruct (os_write os) as [e|].
  { right. exists e, []. split; reflexivity. }
  destruct (os_stat os) as [e|].
  { right. exists e, [Written tmp redacted]. split; reflexivity. }
  destruct (os_chmod os) as [e|].
  { right. exists e, [Written tmp redacted]. split; reflexivity. }
  destruct (os_chown os) as [e|].
  - destruct e; cbn [is_PermissionError];
      try (right; eexists _, [Written tmp redacted; ModeCopied tmp];
           split; reflexivity).
    destruct (os_replace os) as [e'|].
    + right. exists e', [Written tmp redacted; ModeCopied tmp].
      split; reflexivity.
    + left. exists []. split; [reflexivity|]. split; [reflexivity|].
      right. split; reflexivity.
  - destruct (os_replace os) as [e'|].
    + right. exists e', [Written tmp redacted; ModeCopied tmp; OwnerCopied tmp].
      split; reflexivity.
    + left. exists [OwnerCopied tmp]. split; [reflexivity|].
      split; [reflexivity|]. left. split; reflexivity.
Qed.

(** X18.  Whatever the operating system answers, the work on one entry
    renames the temporary file onto the target only as its last step,
    after the whole redacted text was written to the temporary file and
    the mode of the target copied; the owner is copied too unless that
    raises [PermissionError].  When the work raises, nothing was renamed,
    and if the temporary file was made, its unlink was attempted: it is
    gone, or the unlink failed with an [OSError], or the unlink raised the
    exception that leaves. *)
Theorem commit_entry_atomic os target redacted :
  (fst (commit_entry os target redacted) = Return tt ->
   exists tmp owner,
     os_mkstemp os = Return tmp
     /\ utf8_encodable redacted = true
     /\ snd (commit_entry os target redacted)
        = [Mkstemp target; Created tmp; Written tmp redacted; ModeCopied tmp]
            ++ owner ++ [Renamed tmp target]
     /\ (owner = [OwnerCopied tmp] /\ os_chown os = None
         \/ owner = [] /\ os_chown os = Some PermissionError))
  /\ (forall e,
        fst (commit_entry os target redacted) = Raise e ->
        renames (snd (commit_entry os target redacted)) = 0%Z
        /\ forall tmp, os_mkstemp os = Return tmp ->
             In (Unlinked tmp) (snd (commit_entry os target redacted))
             \/ In (UnlinkFailed tmp) (snd (commit_entry os target redacted))
             \/ (os_unlink os = Some e /\ is_OSError e = false)).
Proof.
  unfold commit_entry.
  destruct (os_mkstemp os) as [tmp | e0].
  2: { split; [discriminate|]. intros e _. split; [reflexivity|]. discriminate. }
  destruct (write_and_rename_ends os tmp target redacted)
    as [(owner & -> & Henc & Hown) | (e1 & evs & -> & Hsteps)].
  - split.
    + intros _. exists tmp, owner. repeat split; assumption.
    + discriminate.
  - destruct (steps_counts evs Hsteps) as (Hren & _).
    unfold cleanup. destruct (os_unlink os) as [e'|].
    + destruct (is_OSError e') eqn:Eos; cbn [fst snd].
      * split; [discriminate|]. intros e _. split.
        -- change (Mkstemp target :: Created tmp :: evs ++ [UnlinkFailed tmp])
             with ([Mkstemp target; Created tmp] ++ evs ++ [UnlinkFailed tmp]).
           unfold renames in *. rewrite !count_events_app, Hren. reflexivity.
        -- intros tmp' [= <-]. right. left. cbn [snd].
           right. right. apply in_or_app. right. left. reflexivity.
      * split; [discriminate|]. intros e [= <-]. split.
        -- rewrite app_nil_r.
           change (Mkstemp target :: Created tmp :: evs)
             with ([Mkstemp target; Created tmp] ++ evs).
           unfold renames in *. rewrite !count_events_app, Hren. reflexivity.
        -- intros tmp' _. right. right. split; [reflexivity | exact Eos].
    + cbn [fst snd]. split; [discriminate|]. intros e _. split.
      * change (Mkstemp target :: Created tmp :: evs ++ [Unlinked tmp])
          with ([Mkstemp target; Created tmp] ++ evs ++ [Unlinked tmp]).
        unfold renames in *. rewrite !count_events_app, Hren. reflexivity.
      * intros tmp' [= <-]. left. cbn [snd].
        right. right. apply in_or_app. right. left. reflexivity.
Qed.

(** ** The planner: the log *)

Lemma plan_group_log fs placeholder acc group :
  snd (plan_group fs placeholder acc group)
  = snd acc ++ group_log fs (fst group).
Proof.
  destruct acc as [results log], group as [path g].
  unfold plan_group, group_log. cbn [fst snd].
  destruct (_validate_file fs path) as [[|] w]; cbn [fst snd].
  - destruct (read_text fs path) as [c| |]; cbn [snd];
      rewrite ?app_nil_r; try reflexivity.
    destruct (negb _); reflexivity.
  - rewrite app_nil_r. reflexivity.
Qed.

Lemma plan_fold_log fs placeholder groups : forall acc,
  snd (fold_left (plan_group fs placeholder) groups acc)
  = snd acc ++ flat_map (fun g => group_log fs (fst g)) groups.
Proof.
  induction groups as [|g groups IH]; intros acc; cbn [fold_left flat_map].
  - rewrite app_nil_r. reflexivity.
  - rewrite IH, plan_group_log, <- app_assoc. reflexivity.
Qed.

Lemma dict_get_keys {V : Type} (d : list (text * V)) k :
  In k (map fst d) <-> exists v, dict_get d k = Some v.
Proof.
  induction d as [|[k' v'] d IH]; cbn [map fst In dict_get].
  - split; [intros [] | intros [v H]; discriminate].
  - destruct (text_eqb k' k) eqn:E.
    + apply text_eqb_eq in E. split; [intros _; eauto | intros _; left; exact E].
    + apply text_eqb_neq in E. rewrite <- IH. tauto.
Qed.

Lemma group_by_file_keys findings path :
  In path (map fst (_group_by_file findings)) <-> group_of findings path <> [].
Proof.
  rewrite dict_get_keys, group_by_file_get.
  destruct (group_of findings path).
  - split; [intros [v H]; discriminate | congruence].
  - split; [discriminate | eauto].
Qed.

Lemma generate_replacements_log_records fs findings placeholder r :
  In r (snd (generate_replacements_log fs findings placeholder)) <->
  exists path, group_of findings path <> [] /\ In r (group_log fs path).
Proof.
  unfold generate_replacements_log. rewrite plan_fold_log. cbn [snd app].
  rewrite in_flat_map. split.
  - intros ([path g] & Hin & Hr). exists path. split; [|exact Hr].
    apply group_by_file_keys, in_map_iff. exists (path, g). split; auto.
  - intros (path & Hg & Hr).
    apply group_by_file_keys, in_map_iff in Hg as ([p g] & <- & Hin).
    exists (p, g). split; assumption.
Qed.

Lemma group_log_path fs path r : In r (group_log fs path) -> record_path r = path.
Proof.
  unfold group_log, _validate_file, read_text.
  destruct (fs path) as [rd|rd|n [c| |]]; try destruct (1 <? n);
    cbn [fst snd app In]; intuition (subst; reflexivity).
Qed.

(** X19.  The planner logs, for every path a finding names: that it
    skips the path when the path is a symbolic link or not a file, the
    number of links when a regular file has more than one, and that it
    cannot read or decode the file when reading fails.  Every record of
    the log is such a record for a path that a finding names, so that a
    regular file with one link that can be read leaves no record. *)
Theorem plan_logs_every_skip fs findings placeholder :
  (forall path, group_of findings path <> [] ->
     match fs path with
     | Symlink _ =>
         In (SkippingSymlink path)
           (snd (generate_replacements_log fs findings placeholder))
     | NotAFile _ =>
         In (SkippingMissingFile path)
           (snd (generate_replacements_log fs findings placeholder))
     | Regular n rd =>
         (1 < n ->
          In (HardLinks path n)
            (snd (generate_replacements_log fs findings placeholder)))
         /\ (rd = ReadOSError ->
             In (CannotRead path)
               (snd (generate_replacements_log fs findings placeholder)))
         /\ (rd = ReadUnicodeDecodeError ->
             In (CannotDecode path)
               (snd (generate_replacements_log fs findings placeholder)))
     end)
  /\ (forall r,
        In r (snd (generate_replacements_log fs findings placeholder)) ->
        group_of findings (record_path r) <> []
        /\ In r (group_log fs (record_path r)))
  /\ (forall path c,
        fs path = Regular 1 (Content c) ->
        forall r,
          In r (snd (generate_replacements_log fs findings placeholder)) ->
          record_path r <> path).
Proof.
  assert (forall r,
            In r (snd (generate_replacements_log fs findings placeholder)) ->
            group_of findings (record_path r) <> []
            /\ In r (group_log fs (record_path r))) as Hrec.
  { intros r Hr.
    apply generate_replacements_log_records in Hr as (path & Hg & Hr).
    rewrite (group_log_path fs path r Hr). split; assumption. }
  split; [|split; [exact Hrec|]].
  - intros path Hg.
    assert (forall r, In r (group_log fs path) ->
              In r (snd (generate_replacements_log fs findings placeholder)))
      as Hin.
    { intros r Hr. apply generate_replacements_log_records. eauto. }
    unfold group_log, _validate_file, read_text in Hin.
    destruct (fs path) as [rd0|rd0|n rd]; cbn [fst snd] in Hin.
    + apply Hin. left. reflexivity.
    + apply Hin. left. reflexivity.
    + split; [|split].
      * intros Hn. apply Hin. destruct (Nat.ltb_spec 1 n); [|lia].
        left. reflexivity.
      * intros ->. apply Hin. destruct (1 <? n); cbn; auto.
      * intros ->. apply Hin. destruct (1 <? n); cbn; auto.
  - intros path c Hfs r Hr Hp. destruct (Hrec r Hr) as [_ Hin].
    rewrite Hp in Hin. unfold group_log, _validate_file, read_text in Hin.
    rewrite Hfs in Hin. exact Hin.
Qed.

(** ** The parser *)

Lemma contains_char c s : contains [c] s = true <-> In c s.
Proof.
  rewrite contains_occurs. unfold occurs. split.
  - intros (p & q & ->). apply in_or_app. right. left. reflexivity.
  - intros H. apply in_split in H as (p & q & ->). exists p, q. reflexivity.
Qed.

Lemma valid_finding_iff raw file_path :
  _valid_finding raw file_path = true <->
  exists r p, raw = JString r /\ file_path = JString p
              /\ r <> [] /\ p <> [] /\ ~ In 0%N p.
Proof.
  unfold _valid_finding. split.
  - destruct raw as [| | |r| |]; try discriminate.
    destruct file_path as [| | |p| |]; try discriminate.
    rewrite !andb_true_iff, !negb_true_iff, !text_eqb_neq.
    intros [[Hr Hp] H0]. exists r, p. repeat split; try assumption.
    intros Hin. apply contains_char in Hin.
    exact (eq_true_false_abs _ Hin H0).
  - intros (r & p & -> & -> & Hr & Hp & H0).
    rewrite !andb_true_iff, !negb_true_iff, !text_eqb_neq.
    repeat split; try assumption.
    destruct (contains [0%N] p) eqn:E; [|reflexivity].
    apply contains_char in E. contradiction.
Qed.

Lemma keep_first_sublist l : forall seen, sublist (keep_first seen l) l.
Proof.
  induction l as [|f l IH]; intros seen; cbn [keep_first].
  - apply sublist_nil_l.
  - case_bool_decide; [apply sublist_cons | apply sublist_skip]; apply IH.
Qed.

Lemma keep_first_keys l : forall seen f,
  In f (keep_first seen l) -> In f l /\ finding_key f ∉ seen.
Proof.
  induction l as [|g l IH]; intros seen f; cbn [keep_first]; [intros []|].
  case_bool_decide as Hg.
  - intros H. destruct (IH _ _ H). split; [right|]; assumption.
  - intros [<- | H]; [split; [left; reflexivity | exact Hg]|].
    destruct (IH _ _ H) as [Hin Hk]. split; [right; exact Hin|].
    intros Hs. apply Hk, elem_of_union_r, Hs.
Qed.

Lemma keep_first_NoDup l : forall seen,
  List.NoDup (map finding_key (keep_first seen l)).
Proof.
  induction l as [|g l IH]; intros seen; cbn [keep_first map].
  - constructor.
  - case_bool_decide as Hg; [apply IH|]. cbn [map]. constructor; [|apply IH].
    intros Hin. apply in_map_iff in Hin as (f & Hk & Hf).
    apply keep_first_keys in Hf as [_ Hf]. apply Hf.
    apply elem_of_union_l, elem_of_singleton. exact Hk.
Qed.

Lemma keep_first_complete l : forall seen f,
  In f l ->
  finding_key f ∈ seen
  \/ exists g, In g (keep_first seen l) /\ finding_key g = finding_key f.
Proof.
  induction l as [|g l IH]; intros seen f; [intros []|].
  cbn [keep_first]. intros [<- | Hf].
  - case_bool_decide as Hg; [left; exact Hg|].
    right. exists g. split; [left|]; reflexivity.
  - case_bool_decide as Hg.
    + destruct (IH seen f Hf) as [H | (h & Hh & Hk)]; [left; exact H|].
      right. exists h. split; assumption.
    + destruct (IH ({[finding_key g]} ∪ seen) f Hf) as [H | (h & Hh & Hk)].
      * apply elem_of_union in H as [H | H]; [|left; exact H].
        apply elem_of_singleton in H. right. exists g.
        split; [left; reflexivity | congruence].
      * right. exists h. split; [right|]; assumption.
Qed.

Lemma keep_first_first l : forall seen l1 f l2,
  l = l1 ++ f :: l2 -> finding_key f ∉ seen ->
  (forall g, In g l1 -> finding_key g <> finding_key f) ->
  In f (keep_first seen l).
Proof.
  induction l as [|g l IH]; intros seen l1 f l2 Hl Hf Hl1.
  - destruct l1; discriminate.
  - destruct l1 as [|g1 l1]; cbn [app] in Hl; injection Hl as -> ->;
      cbn [keep_first].
    + rewrite bool_decide_eq_false_2 by exact Hf. left. reflexivity.
    + assert (In f (keep_first seen (l1 ++ f :: l2))) as H1.
      { apply (IH seen l1 f l2); [reflexivity | exact Hf|].
        intros h Hh. apply Hl1. right. exact Hh. }
      assert (In f (keep_first ({[finding_key g1]} ∪ seen) (l1 ++ f :: l2)))
        as H2.
      { apply (IH _ l1 f l2); [reflexivity | |].
        - specialize (Hl1 g1 (or_introl eq_refl)). set_solver.
        - intros h Hh. apply Hl1. right. exact Hh. }
      case_bool_decide; [exact H1 | right; exact H2].
Qed.

(** Findings whose keys were all met add nothing. *)
Lemma keep_first_seen l : forall seen,
  (forall f, In f l -> finding_key f ∈ seen) -> keep_first seen l = [].
Proof.
  induction l as [|g l IH]; intros seen H; cbn [keep_first]; [reflexivity|].
  rewrite bool_decide_eq_true_2 by (apply H; left; reflexivity).
  apply IH. intros f Hf. apply H. right. exact Hf.
Qed.

Lemma keep_first_app l1 : forall seen l2,
  keep_first seen (l1 ++ l2)
  = keep_first seen l1
      ++ keep_first (list_to_set (map finding_key l1) ∪ seen) l2.
Proof.
  induction l1 as [|g l1 IH]; intros seen l2; cbn [app keep_first map].
  - f_equal. set_solver.
  - case_bool_decide as Hg.
    + rewrite IH. f_equal. f_equal. set_solver.
    + cbn [app]. rewrite IH. f_equal. f_equal. f_equal. set_solver.
Qed.

Section ParserProperties.

Variable json_loads : text -> loads_result.

(** One turn of the loop, from what the line holds. *)
Lemma parse_line_spec seen findings line :
  parse_line json_loads (seen, findings) line
  = if not_an_object json_loads line then AttributeError
    else match loads_raises json_loads line with
         | Some e => Propagated e
         | None =>
             match line_finding json_loads line with
             | Some f =>
                 if bool_decide (finding_key f ∈ seen)
                 then Parsed (seen, findings)
                 else Parsed ({[ finding_key f ]} ∪ seen, findings ++ [f])
             | None => Parsed (seen, findings)
             end
         end.
Proof.
  unfold parse_line, not_an_object, loads_raises, line_finding.
  destruct (strip line) as [|c l]; [reflexivity|].
  destruct (json_loads (c :: l)) as [[| | | | |obj]| |e]; try reflexivity.
  destruct (line_fields obj) as [[raw detector] file_path].
  destruct raw as [| | |r| |]; try reflexivity;
    destruct file_path as [| | |p| |]; try reflexivity;
    try (destruct (negb _); reflexivity).
  destruct (_valid_finding (JString r) (JString p)); reflexivity.
Qed.

Lemma ends_loop_false line :
  ends_loop json_loads line = false <->
  not_an_object json_loads line = false
  /\ loads_raises json_loads line = None.
Proof.
  unfold ends_loop. rewrite orb_false_iff.
  destruct (loads_raises json_loads line); intuition congruence.
Qed.

(** A line ends the loop in one of two ways. *)
Lemma ends_loop_true line :
  ends_loop json_loads line = true ->
  (not_an_object json_loads line = true
   /\ loads_raises json_loads line = None)
  \/ (not_an_object json_loads line = false
      /\ exists e, loads_raises json_loads line = Some e).
Proof.
  unfold ends_loop, not_an_object, loads_raises.
  destruct (strip line) as [|c l]; [discriminate|].
  destruct (json_loads (c :: l)) as [[| | | | |obj]| |e]; cbn;
    try discriminate; intros _; eauto.
Qed.

Lemma parse_loop_app stream1 : forall state stream2,
  parse_loop json_loads state (stream1 ++ stream2)
  = match parse_loop json_loads state stream1 with
    | Parsed state' => parse_loop json_loads state' stream2
    | AttributeError => AttributeError
    | Propagated e => Propagated e
    end.
Proof.
  induction stream1 as [|line rest IH]; intros state stream2;
    cbn [app parse_loop]; [reflexivity|].
  destruct (parse_line json_loads state line); [apply IH | reflexivity..].
Qed.

(** The loop on lines none of which ends it. *)
Lemma parse_loop_spec stream : forall seen findings,
  (forall line, In line stream -> ends_loop json_loads line = false) ->
  parse_loop json_loads (seen, findings) stream
  = Parsed (list_to_set
              (map finding_key (omap (line_finding json_loads) stream))
              ∪ seen,
            findings ++ keep_first seen (omap (line_finding json_loads) stream)).
Proof.
  induction stream as [|line rest IH]; intros seen findings Hobj.
  - cbn. rewrite app_nil_r. f_equal. f_equal. set_solver.
  - cbn [parse_loop omap list_omap]. rewrite parse_line_spec.
    destruct (proj1 (ends_loop_false line) (Hobj line (or_introl eq_refl)))
      as [-> ->].
    assert (forall l, In l rest -> ends_loop json_loads l = false) as Hrest
      by (intros l Hl; apply Hobj; right; exact Hl).
    destruct (line_finding json_loads line) as [f|]; [|apply IH, Hrest].
    cbn [map keep_first]. case_bool_decide as Hf.
    + rewrite IH by exact Hrest. f_equal. f_equal. set_solver.
    + rewrite IH by exact Hrest. rewrite <- app_assoc. cbn [app].
      f_equal. f_equal. set_solver.
Qed.

(** The loop ends at the first line that ends it: with
    [AttributeError] at a document that is not an object, and with the
    exception of [json.loads] otherwise. *)
Lemma parse_loop_attribute_error before line after state :
  (forall l, In l before -> ends_loop json_loads l = false) ->
  not_an_object json_loads line = true ->
  parse_loop json_loads state (before ++ line :: after) = AttributeError.
Proof.
  intros Hbefore Hline. destruct state as [seen findings].
  rewrite parse_loop_app, parse_loop_spec by exact Hbefore.
  cbn [parse_loop]. rewrite parse_line_spec, Hline. reflexivity.
Qed.

Lemma parse_loop_propagates before line after state e :
  (forall l, In l before -> ends_loop json_loads l = false) ->
  not_an_object json_loads line = false ->
  loads_raises json_loads line = Some e ->
  parse_loop json_loads state (before ++ line :: after) = Propagated e.
Proof.
  intros Hbefore Hobj Hline. destruct state as [seen findings].
  rewrite parse_loop_app, parse_loop_spec by exact Hbefore.
  cbn [parse_loop]. rewrite parse_line_spec, Hobj, Hline. reflexivity.
Qed.

(** A stream has no line that ends the loop, or a first one. *)
Lemma first_ending_line stream :
  (forall l, In l stream -> ends_loop json_loads l = false)
  \/ exists before line after,
       stream = before ++ line :: after
       /\ (forall l, In l before -> ends_loop json_loads l = false)
       /\ ends_loop json_loads line = true.
Proof.
  induction stream as [|l0 rest IH]; [left; intros l []|].
  destruct (ends_loop json_loads l0) eqn:E.
  - right. exists [], l0, rest. split; [reflexivity|].
    split; [intros l [] | exact E].
  - destruct IH as [IH | (before & line & after & -> & Hb & Hl)].
    + left. intros l [<- | Hl]; [exact E | apply IH, Hl].
    + right. exists (l0 :: before), line, after. split; [reflexivity|].
      split; [|exact Hl]. intros l [<- | Hin]; [exact E | apply Hb, Hin].
Qed.

Lemma parse_findings_spec stream :
  (forall line, In line stream -> ends_loop json_loads line = false) ->
  parse_findings json_loads stream
  = Parsed (keep_first ∅ (omap (line_finding json_loads) stream)).
Proof.
  intros Hobj. unfold parse_findings. rewrite parse_loop_spec by exact Hobj.
  reflexivity.
Qed.

Lemma parse_findings_ends before line after :
  (forall l, In l before -> ends_loop json_loads l = false) ->
  ends_loop json_loads line = true ->
  (not_an_object json_loads line = true
   /\ parse_findings json_loads (before ++ line :: after) = AttributeError)
  \/ (not_an_object json_loads line = false
      /\ exists e,
           loads_raises json_loads line = Some e
           /\ parse_findings json_loads (before ++ line :: after)
              = Propagated e).
Proof.
  intros Hb Hl. unfold parse_findings.
  destruct (ends_loop_true line Hl) as [[Hobj _] | [Hobj [e He]]].
  - left. split; [exact Hobj|].
    rewrite (parse_loop_attribute_error before line after _ Hb Hobj).
    reflexivity.
  - right. split; [exact Hobj|]. exists e. split; [exact He|].
    rewrite (parse_loop_propagates before line after _ e Hb Hobj He).
    reflexivity.
Qed.

Lemma parse_findings_parsed stream findings :
  parse_findings json_loads stream = Parsed findings ->
  (forall line, In line stream -> ends_loop json_loads line = false)
  /\ findings = keep_first ∅ (omap (line_finding json_loads) stream).
Proof.
  intros H.
  destruct (first_ending_line stream)
    as [Hobj | (before & line & after & -> & Hb & Hl)].
  - split; [exact Hobj|].
    rewrite parse_findings_spec in H by exact Hobj. congruence.
  - exfalso.
    destruct (parse_findings_ends before line after Hb Hl)
      as [[_ E] | [_ (e & _ & E)]]; congruence.
Qed.

Lemma line_finding_valid line f :
  line_finding json_loads line = Some f ->
  raw_secret f <> [] /\ raw_file_path f <> [] /\ ~ In 0%N (raw_file_path f).
Proof.
  unfold line_finding. destruct (strip line) as [|c l]; [discriminate|].
  destruct (json_loads (c :: l)) as [[| | | | |obj]| |e]; try discriminate.
  destruct (line_fields obj) as [[raw detector] file_path].
  destruct raw as [| | |r| |]; try discriminate.
  destruct file_path as [| | |p| |]; try discriminate.
  destruct (_valid_finding (JString r) (JString p)) eqn:E; [|discriminate].
  intros [= <-]. cbn [raw_secret raw_file_path].
  apply valid_finding_iff in E
    as (r' & p' & [= <-] & [= <-] & Hr & Hp & H0).
  repeat split; assumption.
Qed.

(** X20.  The findings the parser returns have distinct pairs of path
    and secret, and each has a secret that is not empty and a path that is
    not empty and holds no NUL character. *)
Theorem parse_findings_unique_and_valid stream findings :
  parse_findings json_loads stream = Parsed findings ->
  List.NoDup (map finding_key findings)
  /\ forall f, In f findings ->
       raw_secret f <> [] /\ raw_file_path f <> []
       /\ ~ In 0%N (raw_file_path f).
Proof.
  intros H. apply parse_findings_parsed in H as [_ ->].
  split; [apply keep_first_NoDup|].
  intros f Hf. apply keep_first_keys in Hf as [Hf _].
  apply list_elem_of_In, list_elem_of_omap in Hf as (line & _ & Hline).
  eapply line_finding_valid, Hline.
Qed.

(** X21.  The parser returns the valid findings of the lines in the
    order of the lines, leaving out those whose pair of path and secret
    was met on an earlier line: every valid finding of a line has its pair
    in the result, and the first finding with a pair is the one kept, with
    its detector name. *)
Theorem parse_findings_keeps_first stream findings :
  parse_findings json_loads stream = Parsed findings ->
  sublist findings (omap (line_finding json_loads) stream)
  /\ (forall f, In f (omap (line_finding json_loads) stream) ->
        exists g, In g findings /\ finding_key g = finding_key f)
  /\ (forall l1 f l2,
        omap (line_finding json_loads) stream = l1 ++ f :: l2 ->
        (forall g, In g l1 -> finding_key g <> finding_key f) ->
        In f findings).
Proof.
  intros H. apply parse_findings_parsed in H as [_ ->].
  split; [apply keep_first_sublist|]. split.
  - intros f Hf.
    destruct (keep_first_complete _ ∅ f Hf) as [H | H]; [set_solver | exact H].
  - intros l1 f l2 Hl Hl1.
    apply (keep_first_first _ ∅ l1 f l2); [exact Hl | set_solver | exact Hl1].
Qed.

(** X22.  A line that is blank, a line for which [json.loads] raises
    [json.JSONDecodeError], and a line that holds an object whose [Raw] and
    file path do not make a valid finding are passed over: the parser does
    with the stream what it does without the line. *)
Theorem parse_findings_skips_line stream1 line stream2 :
  strip line = []
  \/ json_loads (strip line) = JSONDecodeError
  \/ (exists obj raw detector file_path,
         json_loads (strip line) = Loaded (JObject obj)
         /\ line_fields obj = (raw, detector, file_path)
         /\ _valid_finding raw file_path = false) ->
  parse_findings json_loads (stream1 ++ line :: stream2)
  = parse_findings json_loads (stream1 ++ stream2).
Proof.
  intros Hline. unfold parse_findings. rewrite !parse_loop_app.
  destruct (parse_loop json_loads (∅, []) stream1) as [[seen findings]| |e];
    [|reflexivity..].
  cbn [parse_loop].
  assert (parse_line json_loads (seen, findings) line
          = Parsed (seen, findings)) as ->; [|reflexivity].
  unfold parse_line.
  destruct Hline as [-> | [Hnone | (obj & raw & det & fp & Hobj & Hf & Hv)]];
    [reflexivity | |].
  - destruct (strip line); [reflexivity|]. rewrite Hnone. reflexivity.
  - destruct (strip line); [reflexivity|]. rewrite Hobj, Hf, Hv. reflexivity.
Qed.


(** X24.  Lines read a second time add nothing: the parser gives for a
    stream followed by lines of that stream what it gives for the stream
    alone. *)
Theorem parse_findings_repeated_lines stream again :
  (forall line, In line again -> In line stream) ->
  parse_findings json_loads (stream ++ again)
  = parse_findings json_loads stream.
Proof.
  intros Hagain.
  destruct (parse_findings json_loads stream) as [findings| |e] eqn:E.
  - apply parse_findings_parsed in E as [Hobj ->].
    rewrite parse_findings_spec.
    + rewrite omap_app, keep_first_app.
      rewrite (keep_first_seen (omap (line_finding json_loads) again));
        [rewrite app_nil_r; reflexivity|].
      intros f Hf. apply list_elem_of_In, list_elem_of_omap in Hf
        as (line & Hline & Hf).
      apply elem_of_union_l, elem_of_list_to_set, list_elem_of_In, in_map.
      apply list_elem_of_In, list_elem_of_omap. exists line.
      split; [|exact Hf]. apply list_elem_of_In, Hagain, list_elem_of_In, Hline.
    + intros line Hline. apply in_app_or in Hline as [H | H];
        [apply Hobj, H | apply Hobj, Hagain, H].
  - unfold parse_findings in *. rewrite parse_loop_app.
    destruct (parse_loop json_loads (∅, []) stream) as [[seen findings]| |e];
      [discriminate | reflexivity | discriminate].
  - unfold parse_findings in *. rewrite parse_loop_app.
    destruct (parse_loop json_loads (∅, []) stream) as [[seen findings]| |e'];
      [discriminate | discriminate | exact E].
Qed.

End ParserProperties.

Lemma example_stream_parsed :
  parse_findings example_json_loads example_stream = Parsed [example_finding].
Proof. vm_compute. reflexivity. Qed.

Lemma parse_findings_unique_and_valid_witness :
  List.NoDup (map finding_key [example_finding])
  /\ raw_secret example_finding <> [].
Proof.
  destruct (parse_findings_unique_and_valid example_json_loads example_stream
              [example_finding] example_stream_parsed) as [H1 H2].
  split; [exact H1|]. apply (H2 example_finding). left. reflexivity.
Defined.

Lemma parse_findings_keeps_first_witness :
  sublist [example_finding]
    (omap (line_finding example_json_loads) example_stream)
  /\ omap (line_finding example_json_loads) example_stream
     = [example_finding; example_finding].
Proof.
  destruct (parse_findings_keeps_first example_json_loads example_stream
              [example_finding] example_stream_parsed) as [H _].
  split; [exact H|]. vm_compute. reflexivity.
Defined.

Lemma parse_findings_skips_line_witness :
  parse_findings example_json_loads
    ([newline] ++ (py "not json" ++ newline) :: [finding_line ++ newline])
  = parse_findings example_json_loads ([newline] ++ [finding_line ++ newline]).
Proof.
  apply (parse_findings_skips_line example_json_loads).
  right. left. vm_compute. reflexivity.
Defined.

Lemma parse_findings_repeated_lines_witness :
  parse_findings example_json_loads (example_stream ++ example_stream)
  = parse_findings example_json_loads example_stream.
Proof.
  apply (parse_findings_repeated_lines example_json_loads).
  intros line H. exact H.
Defined.

(** A line that holds a number makes the parser raise, also after a
    line with a finding. *)
Lemma parse_findings_number_line :
  parse_findings example_json_loads [finding_line ++ newline; py "42" ++ newline]
  = AttributeError.
Proof. vm_compute. reflexivity. Qed.

(** The exception of [json.loads] for an integer with too many digits
    leaves the parser, the findings of the earlier lines being lost; a
    line after it is not read. *)
Lemma parse_findings_long_number_line :
  parse_findings example_json_loads
    [finding_line ++ newline; long_number_line ++ newline; py "42" ++ newline]
  = Propagated ValueError.
Proof. vm_compute. reflexivity. Qed.

(** ** The command line: from the findings to the files *)

Lemma os_events_app a b : os_events (a ++ b) = os_events a ++ os_events b.
Proof. unfold os_events. apply flat_map_app. Qed.

Lemma os_events_Os evs : os_events (map Os evs) = evs.
Proof.
  induction evs as [|ev evs IH]; [reflexivity|].
  cbn [map os_events flat_map app] in *. f_equal. exact IH.
Qed.

Lemma os_events_Console evs : os_events (map Console evs) = [].
Proof. induction evs as [|ev evs IH]; [reflexivity | exact IH]. Qed.

Lemma os_events_Logged log : os_events (map Logged log) = [].
Proof. induction log as [|r log IH]; [reflexivity | exact IH]. Qed.

(** The events of two steps in a row. *)
Lemma cli_bind_events {A B : Type} (m : cli A) (k : A -> cli B) :
  snd (m ≫= k)
  = snd m ++ match fst m with
             | inl a => snd (k a)
             | inr _ => []
             end.
Proof.
  destruct m as [[a | e] evs]; cbn [mbind cli_bind fst snd].
  - destruct (k a) as [r evs']. reflexivity.
  - rewrite app_nil_r. reflexivity.
Qed.

Lemma quiet_bind {A B : Type} (m : cli A) (k : A -> cli B) :
  os_events (snd m) = [] ->
  (forall a, fst m = inl a -> os_events (snd (k a)) = []) ->
  os_events (snd (m ≫= k)) = [].
Proof.
  intros Hm Hk. rewrite cli_bind_events, os_events_app, Hm. cbn [app].
  destruct (fst m) as [a | e] eqn:E; [apply Hk; reflexivity | reflexivity].
Qed.

Ltac entry_events :=
  repeat first
    [ apply List.Forall_nil
    | apply List.Forall_cons; [cbn [entry_event]; auto|]
    | apply Forall_app; split; [assumption|] ].

(** The events of one entry are about that entry. *)
Lemma commit_entry_events os target redacted :
  Forall (entry_event target redacted) (snd (commit_entry os target redacted)).
Proof.
  unfold commit_entry. destruct (os_mkstemp os) as [tmp | e];
    [|cbn [snd]; entry_events].
  assert (forall e evs,
            write_and_rename os tmp target redacted = (e, evs) ->
            Forall (entry_event target redacted) evs) as Hwr.
  { unfold write_and_rename, mbind, commit_bind, bind, call.
    destruct (os_fdopen os); [intros ? ? [= <- <-]; entry_events|].
    destruct (utf8_encodable redacted); [|intros ? ? [= <- <-]; entry_events].
    destruct (os_write os); [intros ? ? [= <- <-]; entry_events|].
    destruct (os_stat os); [intros ? ? [= <- <-]; entry_events|].
    destruct (os_chmod os); [intros ? ? [= <- <-]; entry_events|].
    destruct (os_chown os) as [e|].
    - destruct (is_PermissionError e);
        [|intros ? ? [= <- <-]; entry_events].
      destruct (os_replace os); intros ? ? [= <- <-]; entry_events.
    - destruct (os_replace os); intros ? ? [= <- <-]; entry_events. }
  destruct (write_and_rename os tmp target redacted) as [[[]|e] evs] eqn:E;
    pose proof (Hwr _ _ eq_refl) as Hevs.
  - cbn [snd]. entry_events. exact Hevs.
  - unfold cleanup. destruct (os_unlink os) as [e'|].
    + destruct (is_OSError e'); cbn [snd]; entry_events.
    + cbn [snd]. entry_events.
Qed.

(** Every event of the committer is about an entry of the mapping. *)
Lemma apply_from_events os items : forall count ev,
  In ev (snd (apply_from os count items)) ->
  exists path original redacted,
    In (path, (original, redacted)) items /\ entry_event path redacted ev.
Proof.
  induction items as [|[path [original redacted]] items IH]; intros count ev;
    cbn [apply_from]; [intros []|].
  pose proof (commit_entry_events (os path) path redacted) as Hentry.
  rewrite List.Forall_forall in Hentry.
  assert (forall count', In ev (snd (apply_from os count' items)) ->
            exists p o r,
              In (p, (o, r)) ((path, (original, redacted)) :: items)
              /\ entry_event p r ev) as Hrest.
  { intros count' H. destruct (IH _ _ H) as (p & o & r & Hin & Hev).
    exists p, o, r. split; [right; exact Hin | exact Hev]. }
  assert (In ev (snd (commit_entry (os path) path redacted)) ->
            exists p o r,
              In (p, (o, r)) ((path, (original, redacted)) :: items)
              /\ entry_event p r ev) as Hfirst.
  { intros H. exists path, original, redacted.
    split; [left; reflexivity | apply Hentry, H]. }
  destruct (commit_entry (os path) path redacted) as [[[]|e] evs];
    cbn [snd] in Hfirst.
  - destruct (apply_from os (count + 1) items) as [r evs'] eqn:E.
    cbn [snd]. intros H. apply in_app_or in H as [H | H];
      [apply Hfirst, H|].
    apply (Hrest (count + 1)%Z). rewrite E. exact H.
  - destruct (is_OSError e); [|cbn [snd]; exact Hfirst].
    destruct (apply_from os count items) as [r evs'] eqn:E.
    cbn [snd]. intros H. apply in_app_or in H as [H | H];
      [apply Hfirst, H|].
    apply in_app_or in H as [[<- | []] | H].
    + exists path, original, redacted. split; [left|]; reflexivity.
    + apply (Hrest count). rewrite E. exact H.
Qed.

Section CliProperties.

Variable unified_diff : list text -> list text -> text -> text -> list text.
Variable splitlines : text -> list text.
Variable lower : text -> text.


Lemma main_events args w findings :
  snd (main unified_diff splitlines lower args w findings) = snd (main_steps unified_diff splitlines lower args w findings).
Proof.
  unfold main.
  destruct (main_steps unified_diff splitlines lower args w findings) as [[[]|e] evs];
    reflexivity.
Qed.

Lemma select_sublist args w findings selected :
  fst (select args w findings) = inl selected -> sublist selected findings.
Proof.
  unfold select. destruct (args_no_confirm args).
  - intros [= <-]. reflexivity.
  - pose proof (run_tui_ends (w_tty w) findings (w_keys w)) as H.
    destruct (run_tui (w_tty w) findings (w_keys w)) as [[result|e|] evs];
      cbn [fst] in *; [|discriminate..].
    intros [= <-]. exact H.
Qed.

(** The selection [main] goes on with: the whole list with
    [--no-confirm], and what the console returned otherwise. *)
Lemma select_returns args w findings selected :
  fst (select args w findings) = inl selected <->
  (args_no_confirm args = true /\ selected = findings)
  \/ (args_no_confirm args = false
      /\ fst (run_tui (w_tty w) findings (w_keys w)) = Returned selected).
Proof.
  unfold select. destruct (args_no_confirm args).
  - cbn [fst]. split.
    + intros [= <-]. left. split; reflexivity.
    + intros [[_ ->] | [H _]]; [reflexivity | discriminate].
  - destruct (run_tui (w_tty w) findings (w_keys w)) as [[result|e|] evs];
      cbn [fst]; split;
      try (intros [[H _] | [_ H]]; discriminate); try discriminate.
    + intros [= <-]. right. split; reflexivity.
    + intros [[H _] | [_ [= ->]]]; [discriminate | reflexivity].
Qed.

Lemma select_quiet args w findings :
  os_events (snd (select args w findings)) = [].
Proof.
  unfold select. destruct (args_no_confirm args); [reflexivity|].
  destruct (run_tui (w_tty w) findings (w_keys w)) as [e evs].
  cbn [snd]. apply os_events_Console.
Qed.

Lemma confirm_quiet tty num_files diff_output :
  os_events (snd (_confirm_changes lower tty num_files diff_output)) = [].
Proof. destruct tty; reflexivity. Qed.

(** What the confirmation returns. *)
Lemma confirm_returns tty num_files diff_output b :
  fst (_confirm_changes lower tty num_files diff_output) = inl b ->
  exists line,
    tty = ConfirmLine line /\ b = text_eqb (lower (strip line)) (py "y").
Proof.
  destruct tty as [| |line]; cbn; try discriminate.
  intros [= <-]. exists line. split; reflexivity.
Qed.

(** The events of the committer in the last part of [main]: none, or
    those of [apply_redactions] on the mapping. *)
Lemma main_on_replacements_os_events args w selected replacements :
  os_events (snd (main_on_replacements unified_diff splitlines lower args w selected replacements)) = []
  \/ (args_dry_run args = false
      /\ (args_no_confirm args = true
          \/ exists line,
               w_confirm w = ConfirmLine line
               /\ lower (strip line) = py "y")
      /\ os_events (snd (main_on_replacements unified_diff splitlines lower args w selected replacements))
         = snd (apply_redactions (w_os w) replacements)).
Proof.
  unfold main_on_replacements.
  destruct replacements as [|item items]; [left; reflexivity|].
  set (replacements := item :: items). cbv zeta.
  set (diff_output := generate_diffs _ _ replacements (Some selected)).
  set (step := if negb (args_no_confirm args)
               then _confirm_changes lower (w_confirm w) (len replacements)
                      diff_output
               else (inl true, [])).
  assert (os_events (snd step) = []) as Hstep.
  { unfold step. destruct (args_no_confirm args);
      [reflexivity | apply confirm_quiet]. }
  rewrite cli_bind_events, os_events_app, Hstep. cbn [app].
  destruct (fst step) as [confirmed | e] eqn:Estep; [|left; reflexivity].
  destruct confirmed; cbn [negb]; [|left; reflexivity].
  destruct (args_dry_run args) eqn:Edry.
  { left. destruct (args_no_confirm args); reflexivity. }
  right. split; [reflexivity|]. split.
  - unfold step in Estep. destruct (args_no_confirm args);
      [left; reflexivity|]. right. cbn [negb] in Estep.
    apply confirm_returns in Estep as (line & Hline & Hy).
    exists line. split; [exact Hline|]. apply text_eqb_eq. congruence.
  - destruct (apply_redactions (w_os w) replacements) as [[count|e] evs];
      cbn [snd].
    + rewrite cli_bind_events. cbn [fst snd]. rewrite os_events_app, os_events_Os.
      apply app_nil_r.
    + apply os_events_Os.
Qed.

Lemma main_os_events args w findings :
  os_events (snd (main unified_diff splitlines lower args w findings)) = []
  \/ exists selected,
       fst (select args w findings) = inl selected
       /\ args_dry_run args = false
       /\ (args_no_confirm args = true
           \/ exists line,
                w_confirm w = ConfirmLine line
                /\ lower (strip line) = py "y")
       /\ os_events (snd (main unified_diff splitlines lower args w findings))
          = snd (apply_redactions (w_os w)
                   (generate_replacements (w_fs w) selected
                      (args_placeholder args))).
Proof.
  rewrite main_events. unfold main_steps.
  destruct findings as [|f fs]; [left; reflexivity|].
  set (findings := f :: fs).
  rewrite cli_bind_events. cbn [print fst snd]. rewrite os_events_app.
  cbn [os_events flat_map app].
  rewrite cli_bind_events, os_events_app, select_quiet. cbn [app].
  destruct (fst (select args w findings)) as [selected | e] eqn:Esel;
    [|left; reflexivity].
  unfold main_on_selection.
  destruct selected as [|s ss]; [left; reflexivity|].
  set (selected := s :: ss) in *.
  destruct (generate_replacements_log (w_fs w) selected (args_placeholder args))
    as [replacements log] eqn:Elog.
  rewrite cli_bind_events. cbn [fst snd].
  rewrite os_events_app, os_events_Logged. cbn [app].
  destruct (main_on_replacements_os_events args w selected replacements)
    as [H | (Hdry & Hyes & H)]; [left; exact H|].
  right. exists selected. unfold generate_replacements. rewrite Elog.
  repeat split; assumption.
Qed.

(** X25.  In a dry run, and when the confirmation is asked for and the
    answer read from the terminal, stripped and put in lower case, is not
    [y], [main] calls nothing that changes a file: no temporary file is
    made, nothing is written and nothing renamed. *)
Theorem main_writes_nothing_without_consent args w findings :
  args_dry_run args = true
  \/ (args_no_confirm args = false
      /\ forall line, w_confirm w = ConfirmLine line ->
           lower (strip line) <> py "y") ->
  os_events (snd (main unified_diff splitlines lower args w findings)) = [].
Proof.
  intros Hno.
  destruct (main_os_events args w findings)
    as [H | (selected & _ & Hdry & Hyes & _)]; [exact H|].
  exfalso. destruct Hno as [Hno | [Hnc Hline]]; [congruence|].
  destruct Hyes as [Hyes | (line & Hw & Hy)]; [congruence|].
  exact (Hline line Hw Hy).
Qed.

(** X26.  Every call of [main] that changes a file belongs to an entry
    the planner made for the selection, which is the whole list with
    [--no-confirm] and the list the console returned otherwise, made of
    findings of the list: the file is named by a finding of the selection
    and is a regular file that was read, what is written is the text of
    the file with the secrets of the selected findings of that file
    replaced, and what is renamed onto is the file itself.  So nothing is
    changed when the console returns no finding or does not return. *)
Theorem main_touches_only_planned_files args w findings ev :
  In ev (os_events (snd (main unified_diff splitlines lower args w findings))) ->
  exists selected path original redacted,
    (args_no_confirm args = true /\ selected = findings
     \/ args_no_confirm args = false
        /\ fst (run_tui (w_tty w) findings (w_keys w)) = Returned selected)
    /\ sublist selected findings
    /\ entry_event path redacted ev
    /\ In (path, (original, redacted))
         (generate_replacements (w_fs w) selected (args_placeholder args))
    /\ (exists f, In f selected /\ file_path f = path)
    /\ (exists n, w_fs w path = Regular n (Content original))
    /\ redacted
       = redact (args_placeholder args) (group_of selected path) original
    /\ redacted <> original.
Proof.
  intros Hev.
  destruct (main_os_events args w findings)
    as [H | (selected & Hsel & _ & _ & H)].
  - rewrite H in Hev. destruct Hev.
  - rewrite H in Hev.
    apply apply_from_events in Hev as (path & original & redacted & Hin & Hev).
    exists selected, path, original, redacted.
    split; [apply select_returns, Hsel|].
    split; [apply (select_sublist args w), Hsel|].
    split; [exact Hev|]. split; [exact Hin|].
    apply generate_replacements_In in Hin as [Hg He].
    apply entry_for_Some in He as (Hfs & Hred & Hne).
    split; [|repeat split; assumption].
    destruct (group_of selected path) as [|f g] eqn:Eg; [congruence|].
    assert (In f (group_of selected path)) as Hf by (rewrite Eg; left; reflexivity).
    unfold group_of in Hf. apply filter_In in Hf as [Hf Hp].
    apply text_eqb_eq in Hp. exists f. split; [exact Hf | exact Hp].
Qed.




End CliProperties.

Lemma main_writes_nothing_without_consent_witness :
  os_events
    (snd (main (fun a b _ _ => a ++ b) (fun t => [t]) (fun t => t)
            {| args_placeholder := py "[R]"; args_no_confirm := true;
               args_dry_run := true |}
            (example_world ConfirmOpenFails) nested_findings)) = []
  /\ os_events
       (snd (main (fun a b _ _ => a ++ b) (fun t => [t]) (fun t => t)
               {| args_placeholder := py "[R]"; args_no_confirm := false;
                  args_dry_run := false |}
               (example_world (ConfirmLine (py "yes" ++ newline)))
               nested_findings)) = [].
Proof.
  split.
  - apply main_writes_nothing_without_consent. left. reflexivity.
  - apply main_writes_nothing_without_consent. right.
    split; [reflexivity|]. intros line [= <-]. vm_compute. discriminate.
Defined.

(** The first finding is taken out of the selection on the console:
    what is written is the text with the secret of the other finding
    replaced, and the secret of the first one left. *)
Lemma main_touches_only_planned_files_witness :
  In (Written (py "app.env.tmp") (py "a=[R] b=SECRET"))
    (os_events
       (snd (main (fun a b _ _ => a ++ b) (fun t => [t]) (fun t => t)
               {| args_placeholder := py "[R]"; args_no_confirm := false;
                  args_dry_run := false |}
               (deselecting_world (ConfirmLine (py "y" ++ newline)))
               nested_findings)))
  /\ exists path original redacted,
      entry_event path redacted
        (Written (py "app.env.tmp") (py "a=[R] b=SECRET"))
      /\ In (path, (original, redacted))
           (generate_replacements (one_file "app.env" nested_content)
              [finding "app.env" "SUPERSECRETLONG" "Generic"] (py "[R]"))
      /\ (exists f,
            In f [finding "app.env" "SUPERSECRETLONG" "Generic"]
            /\ file_path f = path)
      /\ redacted <> original.
Proof.
  assert (In (Written (py "app.env.tmp") (py "a=[R] b=SECRET"))
            (os_events
               (snd (main (fun a b _ _ => a ++ b) (fun t => [t]) (fun t => t)
                       {| args_placeholder := py "[R]";
                          args_no_confirm := false; args_dry_run := false |}
                       (deselecting_world (ConfirmLine (py "y" ++ newline)))
                       nested_findings)))) as Hin.
  { vm_compute. right. right. left. reflexivity. }
  split; [exact Hin|].
  destruct (main_touches_only_planned_files _ _ _ _ _ _ _ Hin)
    as (selected & path & original & redacted & Htie & _ & Hev & Hentry & Hf
        & _ & _ & Hne).
  assert (selected = [finding "app.env" "SUPERSECRETLONG" "Generic"]) as ->.
  { destruct Htie as [[H _] | [_ H]]; [discriminate H|].
    assert (fst (run_tui TtyReady nested_findings
                   [turn 24 80 ord_space; turn 24 80 ord_newline])
            = Returned [finding "app.env" "SUPERSECRETLONG" "Generic"]) as E
      by (vm_compute; reflexivity).
    cbn [deselecting_world w_tty w_keys] in H. congruence. }
  exists path, original, redacted. repeat split; assumption.
Defined.


(** A run that writes: the selection is confirmed on the console, the
    preview answered with [y], and the one file rewritten. *)
Lemma main_confirmed_run :
  fst (main (fun a b _ _ => a ++ b) (fun t => [t]) (fun t => t)
         {| args_placeholder := py "[R]"; args_no_confirm := false;
            args_dry_run := false |}
         (example_world (ConfirmLine (py "y" ++ newline))) nested_findings)
  = Returns
  /\ os_events
       (snd (main (fun a b _ _ => a ++ b) (fun t => [t]) (fun t => t)
               {| args_placeholder := py "[R]"; args_no_confirm := false;
                  args_dry_run := false |}
               (example_world (ConfirmLine (py "y" ++ newline)))
               nested_findings))
     = [Mkstemp (py "app.env"); Created (py "app.env.tmp");
        Written (py "app.env.tmp") (py "a=[R] b=[R]");
        ModeCopied (py "app.env.tmp"); OwnerCopied (py "app.env.tmp");
        Renamed (py "app.env.tmp") (py "app.env")].
Proof. vm_compute. split; reflexivity. Qed.

(** ** The diff renderer: the order of the files *)

Lemma text_compare_antisym a : forall b,
  text_compare b a = CompOpp (text_compare a b).
Proof.
  induction a as [|x a IH]; intros [|y b]; cbn [text_compare CompOpp];
    try reflexivity.
  rewrite (N.compare_antisym x y).
  destruct (N.compare x y); cbn [CompOpp]; [apply IH | reflexivity..].
Qed.

Lemma text_compare_lt_trans a : forall b c,
  text_compare a b = Lt -> text_compare b c = Lt -> text_compare a c = Lt.
Proof.
  induction a as [|x a IH]; intros [|y b] [|z c]; cbn [text_compare];
    try discriminate; try reflexivity.
  destruct (N.compare_spec x y) as [-> | Hxy | Hxy]; try discriminate.
  - destruct (N.compare y z); try discriminate; [apply IH | reflexivity].
  - intros _. destruct (N.compare_spec y z) as [-> | Hyz | Hyz];
      try discriminate.
    + intros _. apply N.compare_lt_iff in Hxy. rewrite Hxy. reflexivity.
    + intros _. assert (x < z)%N as Hxz by lia.
      apply N.compare_lt_iff in Hxz. rewrite Hxz. reflexivity.
Qed.

Section Lexicographic.

Context {A B : Type}.
Variable ca : A -> A -> comparison.
Variable cb : B -> B -> comparison.
Variable cab : A * B -> A * B -> comparison.

Hypothesis cab_lex : forall x y,
  cab x y = match ca (fst x) (fst y) with
            | Eq => cb (snd x) (snd y)
            | c => c
            end.
Hypothesis ca_eq : forall a a', ca a a' = Eq <-> a = a'.
Hypothesis cb_eq : forall b b', cb b b' = Eq <-> b = b'.
Hypothesis ca_antisym : forall a a', ca a' a = CompOpp (ca a a').
Hypothesis cb_antisym : forall b b', cb b' b = CompOpp (cb b b').
Hypothesis ca_lt_trans : forall a a' a'',
  ca a a' = Lt -> ca a' a'' = Lt -> ca a a'' = Lt.
Hypothesis cb_lt_trans : forall b b' b'',
  cb b b' = Lt -> cb b' b'' = Lt -> cb b b'' = Lt.

Lemma lex_eq x y : cab x y = Eq <-> x = y.
Proof.
  rewrite cab_lex. destruct x as [a b], y as [a' b']. cbn [fst snd].
  destruct (ca a a') eqn:E.
  - apply ca_eq in E as ->. rewrite cb_eq.
    split; [intros ->; reflexivity | intros [= ->]; reflexivity].
  - split; [discriminate|]. intros [= -> ->].
    rewrite (proj2 (ca_eq a' a') eq_refl) in E. discriminate.
  - split; [discriminate|]. intros [= -> ->].
    rewrite (proj2 (ca_eq a' a') eq_refl) in E. discriminate.
Qed.

Lemma lex_antisym x y : cab y x = CompOpp (cab x y).
Proof.
  rewrite !cab_lex, ca_antisym.
  destruct (ca (fst x) (fst y)); cbn [CompOpp]; [apply cb_antisym | reflexivity..].
Qed.

Lemma lex_lt_trans x y z : cab x y = Lt -> cab y z = Lt -> cab x z = Lt.
Proof.
  rewrite !cab_lex.
  destruct (ca (fst x) (fst y)) eqn:Exy; try discriminate.
  - apply ca_eq in Exy. rewrite Exy.
    destruct (ca (fst y) (fst z)); try discriminate; [apply cb_lt_trans | reflexivity].
  - intros _. destruct (ca (fst y) (fst z)) eqn:Eyz; try discriminate.
    + apply ca_eq in Eyz. rewrite <- Eyz, Exy. reflexivity.
    + intros _. rewrite (ca_lt_trans _ _ _ Exy Eyz). reflexivity.
Qed.

End Lexicographic.

Lemma item_compare_eq x y : item_compare x y = Eq <-> x = y.
Proof.
  apply (lex_eq text_compare
           (fun p q : text * text =>
              match text_compare (fst p) (fst q) with
              | Eq => text_compare (snd p) (snd q)
              | c => c
              end)).
  - reflexivity.
  - apply text_compare_eq.
  - apply (lex_eq text_compare text_compare); [reflexivity | |];
      apply text_compare_eq.
Qed.

Lemma item_compare_antisym x y : item_compare y x = CompOpp (item_compare x y).
Proof.
  apply (lex_antisym text_compare
           (fun p q : text * text =>
              match text_compare (fst p) (fst q) with
              | Eq => text_compare (snd p) (snd q)
              | c => c
              end)).
  - reflexivity.
  - intros a a'. apply text_compare_antisym.
  - apply (lex_antisym text_compare text_compare); [reflexivity | |];
      intros a a'; apply text_compare_antisym.
Qed.

Lemma item_compare_lt_trans x y z :
  item_compare x y = Lt -> item_compare y z = Lt -> item_compare x z = Lt.
Proof.
  apply (lex_lt_trans text_compare
           (fun p q : text * text =>
              match text_compare (fst p) (fst q) with
              | Eq => text_compare (snd p) (snd q)
              | c => c
              end)).
  - reflexivity.
  - apply text_compare_eq.
  - intros a b c. apply text_compare_lt_trans.
  - apply (lex_lt_trans text_compare text_compare); [reflexivity | | |].
    + apply text_compare_eq.
    + intros a b c. apply text_compare_lt_trans.
    + intros a b c. apply text_compare_lt_trans.
Qed.

Lemma item_le_cases x y : item_le x y <-> x = y \/ item_compare x y = Lt.
Proof.
  unfold item_le, item_ltb. rewrite (item_compare_antisym x y).
  destruct (item_compare x y) eqn:E; cbn [CompOpp].
  - apply item_compare_eq in E. tauto.
  - tauto.
  - split; [discriminate|]. intros [-> | H]; [|discriminate].
    rewrite (proj2 (item_compare_eq y y) eq_refl) in E. discriminate.
Qed.

Lemma item_le_trans x y z : item_le x y -> item_le y z -> item_le x z.
Proof.
  rewrite !item_le_cases. intros [-> | Hxy] [-> | Hyz]; auto.
  right. eapply item_compare_lt_trans; eassumption.
Qed.

Lemma item_le_antisym x y : item_le x y -> item_le y x -> x = y.
Proof.
  rewrite !item_le_cases. intros [Hxy | Hxy] [Hyx | Hyx]; auto.
  pose proof (item_compare_antisym x y) as Ha. rewrite Hxy, Hyx in Ha.
  discriminate.
Qed.

Lemma item_le_total x y : item_ltb y x = true -> item_le y x.
Proof.
  unfold item_le, item_ltb. rewrite (item_compare_antisym y x).
  destruct (item_compare y x); cbn [CompOpp]; try discriminate. reflexivity.
Qed.

Lemma insert_item_sorted x l :
  StronglySorted item_le l -> StronglySorted item_le (insert_item x l).
Proof.
  induction 1 as [|y l Hl IH Hy]; cbn [insert_item].
  - repeat constructor.
  - destruct (item_ltb y x) eqn:E.
    + constructor; [exact IH|]. apply List.Forall_forall. intros z Hz.
      apply insert_item_In in Hz as [-> | Hz].
      * apply item_le_total, E.
      * rewrite List.Forall_forall in Hy. apply Hy, Hz.
    + constructor; [constructor; assumption|].
      constructor; [exact E|].
      eapply Forall_impl; [exact Hy|]. intros z Hz. cbn beta in Hz.
      eapply item_le_trans; [exact E | exact Hz].
Qed.

Lemma sorted_items_sorted l : StronglySorted item_le (sorted_items l).
Proof.
  induction l as [|x l IH]; cbn; [constructor | apply insert_item_sorted, IH].
Qed.

Lemma insert_item_perm x l : Permutation (insert_item x l) (x :: l).
Proof.
  induction l as [|y l IH]; cbn [insert_item]; [reflexivity|].
  destruct (item_ltb y x); [|reflexivity].
  rewrite IH. apply perm_swap.
Qed.

Lemma sorted_items_perm l : Permutation (sorted_items l) l.
Proof.
  induction l as [|x l IH]; cbn; [reflexivity|].
  rewrite insert_item_perm. constructor. exact IH.
Qed.

(** X28.  The diff does not depend on the order of the entries in the
    mapping: [sorted] puts the entries in the ascending order of their
    paths, which is one order for all rearrangements of the entries. *)
Theorem generate_diffs_order_independent
    (unified_diff : list text -> list text -> text -> text -> list text)
    (splitlines : text -> list text)
    (r1 r2 : list (text * (text * text))) findings :
  Permutation r1 r2 ->
  generate_diffs unified_diff splitlines r1 findings
  = generate_diffs unified_diff splitlines r2 findings
  /\ sorted_items r1 = sorted_items r2
  /\ Permutation (sorted_items r1) r1
  /\ StronglySorted item_le (sorted_items r1).
Proof.
  intros Hperm.
  assert (sorted_items r1 = sorted_items r2) as Heq.
  { apply (StronglySorted_unique_strong item_le).
    - intros x y _ _. apply item_le_antisym.
    - apply sorted_items_sorted.
    - apply sorted_items_sorted.
    - rewrite !sorted_items_perm. exact Hperm. }
  split; [unfold generate_diffs; rewrite Heq; reflexivity|].
  split; [exact Heq|]. split; [apply sorted_items_perm|].
  apply sorted_items_sorted.
Qed.

Lemma generate_diffs_order_independent_witness :
  sorted_items (rev cross_replacements) = cross_replacements.
Proof.
  destruct (generate_diffs_order_independent (fun a b _ _ => a ++ b)
              (fun t => [t]) (rev cross_replacements) cross_replacements None)
    as (_ & H & _).
  - symmetry. apply Permutation_rev.
  - rewrite H. vm_compute. reflexivity.
Defined.

(** ** What the console and the default placeholder hide *)

Lemma mask_secret_default_length s :
  length (mask_secret s mask_secret_default_visible) = length s.
Proof.
  destruct (le_lt_dec (length s) 8) as [Hle | Hgt].
  - rewrite mask_secret_short by exact Hle. apply length_replicate.
  - rewrite mask_secret_long by exact Hgt. unfold text, char in *.
    rewrite !length_app, length_take, length_replicate, length_drop. lia.
Qed.

(** The mask of a secret without an asterisk does not hold the secret. *)
Lemma mask_secret_differs s :
  s <> [] -> ~ In star s -> ~ occurs s (mask_secret s mask_secret_default_visible).
Proof.
  intros Hs Hstar Hocc.
  destruct (mask_secret_shape s Hs) as (h & n & t & Hm & Hn & _).
  assert (s = mask_secret s mask_secret_default_visible) as Heq.
  { destruct (decide (s = mask_secret s mask_secret_default_visible))
      as [E | E]; [exact E|].
    apply (occurs_proper_shorter _ _ Hocc) in E.
    rewrite mask_secret_default_length in E. lia. }
  apply Hstar. rewrite Heq, Hm. apply in_or_app. right. apply in_or_app. left.
  destruct n; [lia|]. left. reflexivity.
Qed.

(** X29.  While the reveal flag is off, the secret column of a row does
    not hold the secret, for a secret that is not empty and has no
    asterisk; with the flag on, the column is the secret itself when the
    secret is not longer than the column is wide. *)
Theorem row_hides_secret max_x finding is_selected :
  secret finding <> [] -> ~ In star (secret finding) ->
  ~ occurs (secret finding)
      (row_secret (finding_row_columns max_x finding is_selected false))
  /\ ((len (detector_name finding) <= _DETECTOR_COL_WIDTH)%Z ->
      (len (secret finding) <= Z.max 10 (max_x - 43))%Z ->
      row_secret (finding_row_columns max_x finding is_selected true)
      = secret finding).
Proof.
  intros Hs Hstar. split.
  - set (c := finding_row_columns max_x finding is_selected false).
    assert (exists w,
              (0 <= w)%Z
              /\ row_secret c
                 = _truncate_secret
                     (mask_secret (secret finding) mask_secret_default_visible)
                     w) as (w & Hw & Hrow).
    { eexists. split; [|reflexivity]. unfold _MIN_SECRET_WIDTH. lia. }
    rewrite Hrow. intros Hocc.
    pose proof (occurs_length _ _ Hocc) as Hlen.
    pose proof (truncate_secret_len
                  (mask_secret (secret finding) mask_secret_default_visible)
                  w Hw) as Htr.
    unfold len in Htr. rewrite mask_secret_default_length in Htr.
    assert (_truncate_secret
              (mask_secret (secret finding) mask_secret_default_visible) w
            = mask_secret (secret finding) mask_secret_default_visible) as Hfit.
    { unfold _truncate_secret.
      destruct (Z.leb_spec
                  (len (mask_secret (secret finding)
                          mask_secret_default_visible)) w) as [_ | Hlong];
        [reflexivity|].
      unfold len in Hlong. rewrite mask_secret_default_length in Hlong. lia. }
    rewrite Hfit in Hocc. exact (mask_secret_differs _ Hs Hstar Hocc).
  - intros Hdet Hfits.
    set (c := finding_row_columns max_x finding is_selected true).
    assert (len (row_prefix c) = 21%Z) as Hprefix.
    { unfold c, finding_row_columns. cbn [row_prefix].
      rewrite !len_app, len_ljust.
      destruct is_selected; unfold _DETECTOR_COL_WIDTH in *;
        change (len (py "[")) with 1%Z; change (len (py "x")) with 1%Z;
        change (len (py " ")) with 1%Z; change (len (py "] ")) with 2%Z; lia. }
    assert (row_secret c
            = _truncate_secret (secret finding)
                (Z.max _MIN_SECRET_WIDTH
                   (max_x - 1 - len (row_prefix c) - 1 - _PATH_BUDGET)))
      as Hrow by reflexivity.
    rewrite Hrow, Hprefix. unfold _truncate_secret, _MIN_SECRET_WIDTH, _PATH_BUDGET.
    destruct (Z.leb_spec (len (secret finding)) (Z.max 10 (max_x - 1 - 21 - 1 - 20)))
      as [_ | Hlong]; [reflexivity | lia].
Qed.

Lemma row_hides_secret_witness :
  ~ occurs (py "SUPERSECRETLONG")
      (row_secret
         (finding_row_columns 80 (finding "app.env" "SUPERSECRETLONG" "Generic")
            true false))
  /\ row_secret
       (finding_row_columns 80 (finding "app.env" "SUPERSECRETLONG" "Generic")
          true true)
     = py "SUPERSECRETLONG".
Proof.
  destruct (row_hides_secret 80 (finding "app.env" "SUPERSECRETLONG" "Generic")
              true) as [H1 H2].
  - discriminate.
  - vm_compute. intuition discriminate.
  - split; [exact H1|]. apply H2; vm_compute; congruence.
Defined.

(** X30.  With the default placeholder, when no secret of the group is
    empty or holds an asterisk, the redacted text holds none of the
    secrets of the group, and redacting it again changes nothing. *)
Theorem redact_default_removes_secrets file_findings original :
  (forall f, In f file_findings -> secret f <> [] /\ ~ In star (secret f)) ->
  (forall f, In f file_findings ->
     ~ occurs (secret f) (redact [] file_findings original))
  /\ redact [] file_findings (redact [] file_findings original)
     = redact [] file_findings original.
Proof.
  intros Hok.
  assert (secrets_nonempty file_findings) as Hne
    by (intros f Hf; apply (Hok f Hf)).
  assert (replacements_clear [] file_findings) as Hclear.
  { intros f g Hf Hg. cbn [replacement_for]. unfold str_mul, len.
    rewrite Nat2Z.id. destruct (Hok f Hf) as [Hf1 Hf2].
    apply star_run_never_overlaps; [exact Hf1 | | exact Hf2].
    apply length_pos, (Hok g Hg). }
  split.
  - intros f Hf. apply redact_removes; assumption.
  - apply redact_idempotent; assumption.
Qed.

Lemma redact_default_removes_secrets_witness :
  ~ occurs (py "SECRET") (redact [] nested_findings nested_content)
  /\ redact [] nested_findings nested_content
     = py "a=*************** b=******".
Proof.
  destruct (redact_default_removes_secrets nested_findings nested_content)
    as [H _].
  - intros f [<- | [<- | []]]; (split; [discriminate|]);
      vm_compute; intuition discriminate.
  - split; [|vm_compute; reflexivity].
    apply (H (finding "app.env" "SECRET" "Generic")). left. reflexivity.
Defined.

(** ** The event loop: the cursor is on the screen *)

Lemma cursor_rows_app a b : cursor_rows (a ++ b) = cursor_rows a ++ cursor_rows b.
Proof. unfold cursor_rows. apply List.filter_app. Qed.

Ltac window :=
  repeat match goal with
         | |- context [(?a <=? ?b)%Z] => destruct (Z.leb_spec a b)
         | |- context [(?a <? ?b)%Z] => destruct (Z.ltb_spec a b)
         end;
  cbn [andb]; try lia; try reflexivity.

(** Among rows drawn for consecutive indices from [j] on, the cursor
    row is drawn once when the cursor is among the indices, and not at
    all otherwise. *)
Lemma cursor_rows_count cursor rows : forall j,
  (forall k op, rows !! k = Some op ->
     exists r line n, op = DrawRow r line n (j + Z.of_nat k =? cursor)%Z) ->
  length (cursor_rows rows)
  = if ((j <=? cursor) && (cursor <? j + len rows))%Z then 1 else 0.
Proof.
  induction rows as [|op rows IH]; intros j Hrows.
  - unfold len. cbn [length cursor_rows List.filter]. window.
  - destruct (Hrows 0 op eq_refl) as (r & line & n & ->).
    specialize (IH (j + 1)%Z).
    unfold len in *. cbn [length cursor_rows List.filter].
    fold (cursor_rows rows). rewrite Z.add_0_r.
    destruct (Z.eqb_spec j cursor) as [-> | Hne]; cbn [length]; rewrite IH.
    + window.
    + intros k op Hk. destruct (Hrows (S k) op Hk) as (r' & l' & n' & ->).
      exists r', l', n'. f_equal. f_equal. lia.
    + window.
    + intros k op Hk. destruct (Hrows (S k) op Hk) as (r' & l' & n' & ->).
      exists r', l', n'. f_equal. f_equal. lia.
Qed.

Lemma draw_frames findings input : forall (selected : list bool) cursor top reveal,
  length selected = length findings ->
  (0 <= cursor < len findings)%Z -> (0 <= top)%Z ->
  Forall (fun i => (5 <= term_max_y i)%Z) input ->
  Forall (fun ev => forall ops, ev = Frame ops -> length (cursor_rows ops) = 1)
    (snd (draw findings selected cursor top reveal input)).
Proof.
  induction input as [|i rest IH]; intros selected cursor top reveal
    Hlen Hcur Htop Hsize; cbn [draw]; [constructor|].
  inversion Hsize as [|? ? Hi Hrest]; subst. cbv zeta.
  set (visible := (term_max_y i - _HEADER_ROWS - _BOTTOM_RESERVE)%Z).
  set (top' := _adjust_scroll cursor top visible).
  assert (top' <= cursor < top' + visible)%Z as Hwin.
  { unfold top', _adjust_scroll, visible, _HEADER_ROWS, _BOTTOM_RESERVE.
    destruct (Z.ltb_spec cursor top); [lia|].
    destruct (Z.geb_spec cursor (top + (term_max_y i - 3 - 1))); lia. }
  assert (0 <= top')%Z as Htop' by (apply adjust_scroll_nonneg; lia).
  destruct (draw_frame_total (term_raises i) findings selected cursor top'
              reveal (term_max_y i) (term_max_x i) Hlen Htop')
    as (rows & Hrows & Hrow & Hdrawn & _).
  destruct (draw_frame (term_raises i) findings selected cursor top' reveal
              (term_max_y i) (term_max_x i)) as [frame|e];
    [|cbn [snd]; constructor].
  assert (length (cursor_rows frame) = 1) as Hframe.
  { rewrite Hdrawn, !cursor_rows_app, !length_app.
    cbn [header_lines cursor_rows List.filter length].
    rewrite (cursor_rows_count cursor rows top').
    - unfold visible, _HEADER_ROWS, _BOTTOM_RESERVE in Hwin. window.
    - intros k op Hk. destruct (Hrow k op Hk) as (f & s & _ & _ & ->).
      unfold finding_row. eauto. }
  destruct (term_raises i Getch) as [e|].
  { cbn [snd]. constructor; [intros ops [= <-]; exact Hframe | constructor]. }
  destruct (handle_key_total (term_key i) findings selected cursor reveal
              Hlen Hcur) as (r & -> & Hlen' & Hcur' & _).
  destruct (kr_result r) as [result|].
  - cbn [snd]. constructor; [intros ops [= <-]; exact Hframe|].
    constructor; [discriminate | constructor].
  - specialize (IH (kr_selected r) (kr_cursor r) top' (kr_reveal r)
                  Hlen' Hcur' Htop' Hrest).
    destruct (draw findings (kr_selected r) (kr_cursor r) top' (kr_reveal r)
                rest) as [e evs].
    cbn [snd] in *. constructor; [intros ops [= <-]; exact Hframe|].
    constructor; [discriminate | exact IH].
Qed.

(** X6.  In a terminal of at least five rows, every frame the console
    draws has exactly one row drawn as the cursor row, whatever keys were
    pressed before: the scroll offset follows the cursor, so that the
    cursor never leaves the window. *)
Theorem run_tui_frames_show_cursor tty findings input :
  Forall (fun i => (5 <= term_max_y i)%Z) input ->
  Forall (fun ev => forall ops, ev = Frame ops -> length (cursor_rows ops) = 1)
    (snd (run_tui tty findings input)).
Proof.
  intros Hsize. unfold run_tui. destruct findings as [|f fs] eqn:Ef.
  { constructor. }
  rewrite <- Ef.
  destruct tty; cbn [_open_tty snd]; try (repeat constructor; discriminate).
  pose proof (draw_frames findings input (replicate (length findings) true)
                0%Z 0%Z false) as H.
  destruct (draw findings (replicate (length findings) true) 0 0 false input)
    as [e evs].
  cbn [snd] in H.
  assert (Forall (fun ev => forall ops, ev = Frame ops ->
                    length (cursor_rows ops) = 1) evs) as Hevs.
  { apply H; [apply length_replicate | | lia | exact Hsize].
    subst findings. unfold len. cbn [length]. lia. }
  destruct e; cbn [snd]; (constructor; [discriminate|]);
    (constructor; [discriminate|]); try exact Hevs;
    (apply Forall_app; split; [exact Hevs|]);
    repeat constructor; discriminate.
Qed.

Lemma run_tui_frames_show_cursor_witness :
  Forall (fun ev => forall ops, ev = Frame ops -> length (cursor_rows ops) = 1)
    (snd (run_tui TtyReady category_findings
            [turn 5 80 KEY_DOWN;
             turn 5 80 KEY_DOWN;
             turn 5 80 ord_newline])).
Proof.
  apply run_tui_frames_show_cursor.
  repeat constructor; vm_compute; congruence.
Defined.
